(** * Scoring metrics of ScreenQA: a shallow embedding of [code/metrics.py]

    The Python module computes Exact-Match and F1 metrics for three answer
    representations (free text, UI-element lists, UI-element lists with
    bounding boxes).  Every function of the module is embedded below under
    its own name.

    Modelling conventions.
    - Python numbers (ints and floats) are exact rationals [Q]; Python's
      numeric [==], [>=] are [Qeq_bool], [Qle_bool], and results are compared
      up to [Qeq], which is what Python's [==] on numbers decides.  On
      floats the code computes in IEEE 754 binary64, which rounds and can
      overflow or underflow: [iou_float] embeds [iou] on primitive binary64
      numbers, statements about it hold of the float code itself, and
      statements of the rational model that depend on the magnitude of the
      boxes carry that magnitude as a hypothesis.
    - Python exceptions are values of an error monad [res]: the operations
      that can raise in this module ([/] by zero, [max] of an empty list,
      an array index out of range) return [Raise ...].
    - [collections.Counter] is a finite multiset ([gmultiset]); [&] on
      counters is multiset intersection and [sum(c.values())] its size.
    - [scipy.optimize.linear_sum_assignment] is external to the module: it
      is a parameter of the scorer, specified by its documented contract,
      and a brute-force reference solver shows the contract is realisable.
    - Text is a [string] of 8-bit characters; the character tables follow
      Python on the ASCII range. *)

From Stdlib Require Import QArith Qminmax Lqa Lia Ascii String Floats.
From stdpp Require Import base list strings gmultiset.

(** ** Exceptions as an error monad *)

Inductive exn := ZeroDivisionError | ValueError | IndexError.

Inductive res (A : Type) : Type :=
  | Ok (a : A)
  | Raise (e : exn).
Arguments Ok {A} a.
Arguments Raise {A} e.

#[global] Instance res_ret : MRet res := @Ok.
#[global] Instance res_bind : MBind res :=
  fun A B f m => match m with Ok a => f a | Raise e => Raise e end.

Section Numbers.
Local Open Scope Q_scope.

(** Python's true division [a / b]: raises on a zero divisor. *)
Definition py_div (a b : Q) : res Q :=
  if Qeq_bool b 0 then Raise ZeroDivisionError else Ok (a / b).

(** Python's [max(xs)] on a list: raises [ValueError] on the empty list and
    otherwise returns the first maximal element. *)
Definition py_max (xs : list Q) : res Q :=
  match xs with
  | [] => Raise ValueError
  | x :: xs' => Ok (foldl Qmax x xs')
  end.

(** [len(xs)] as a number. *)
Definition len {A} (xs : list A) : Q := inject_Z (Z.of_nat (length xs)).

(** Truthiness of a list: [not xs]. *)
Definition py_not {A} (xs : list A) : bool :=
  match xs with [] => true | _ :: _ => false end.

(** A metric value is equal to a number [q] when the call returned, and
    returned a number equal to [q]. *)
Definition returns (r : res Q) (q : Q) : Prop :=
  exists v, r = Ok v /\ v == q.

End Numbers.

(** ** Geometric overlap *)

Section Geometry.
Local Open Scope Q_scope.

(** A bounding box is the tuple [(ymin, xmin, ymax, xmax)]. *)
Record bbox := BBox { b_ymin : Q; b_xmin : Q; b_ymax : Q; b_xmax : Q }.

Definition iou (bbox1 bbox2 : bbox) : res Q :=
  let ymin := Qmax (b_ymin bbox1) (b_ymin bbox2) in
  let xmin := Qmax (b_xmin bbox1) (b_xmin bbox2) in
  let ymax := Qmin (b_ymax bbox1) (b_ymax bbox2) in
  let xmax := Qmin (b_xmax bbox1) (b_xmax bbox2) in
  let intersection_area := Qmax 0 (xmax - xmin) * Qmax 0 (ymax - ymin) in
  if Qeq_bool intersection_area 0 then Ok 0
  else
    let bbox1_area :=
      (b_xmax bbox1 - b_xmin bbox1) * (b_ymax bbox1 - b_ymin bbox1) in
    let bbox2_area :=
      (b_xmax bbox2 - b_xmin bbox2) * (b_ymax bbox2 - b_ymin bbox2) in
    py_div intersection_area (bbox1_area + bbox2_area - intersection_area).

(** The invariant the module assumes of its boxes and does not check. *)
Definition valid_bbox (b : bbox) : Prop :=
  b_ymin b <= b_ymax b /\ b_xmin b <= b_xmax b.

Definition area (b : bbox) : Q :=
  (b_ymax b - b_ymin b) * (b_xmax b - b_xmin b).

(** The number [iou] returns. *)
Definition iou_value (a b : bbox) : Q :=
  match iou a b with Ok v => v | Raise _ => 0 end.

(** The area of the overlap rectangle of two boxes, the
    [intersection_area] of [iou]. *)
Definition overlap (a b : bbox) : Q :=
  Qmax 0 (Qmin (b_xmax a) (b_xmax b) - Qmax (b_xmin a) (b_xmin b))
  * Qmax 0 (Qmin (b_ymax a) (b_ymax b) - Qmax (b_ymin a) (b_ymin b)).

End Geometry.

(** ** Text normalizer *)

Section Text.
Local Open Scope string_scope.

Definition is_upper (c : ascii) : bool :=
  let n := nat_of_ascii c in (65 <=? n)%nat && (n <=? 90)%nat.

Definition lower_char (c : ascii) : ascii :=
  if is_upper c then ascii_of_nat (nat_of_ascii c + 32) else c.

(** [s.lower()]. *)
Fixpoint lower (s : string) : string :=
  match s with
  | "" => ""
  | String c s' => String (lower_char c) (lower s')
  end.

(** [string.punctuation]; the second character is the double quote. *)
Definition string_punctuation : string :=
  "!" ++ String (ascii_of_nat 34) "" ++ "#$%&'()*+,-./:;<=>?@[\]^_`{|}~".

(** [ch in s] for a single character [ch]. *)
Fixpoint char_in (ch : ascii) (s : string) : bool :=
  match s with
  | "" => false
  | String c s' => if Ascii.eqb ch c then true else char_in ch s'
  end.

(** Whitespace, as [str.split()] and [str.isspace] see it. *)
Definition is_space (c : ascii) : bool :=
  let n := nat_of_ascii c in
  (9 <=? n)%nat && (n <=? 13)%nat || (28 <=? n)%nat && (n <=? 32)%nat.

(** The class [\w] of [re]: letters, digits and the underscore. *)
Definition is_word (c : ascii) : bool :=
  let n := nat_of_ascii c in
  (48 <=? n)%nat && (n <=? 57)%nat || (65 <=? n)%nat && (n <=? 90)%nat
  || (n =? 95)%nat || (97 <=? n)%nat && (n <=? 122)%nat.

Definition is_word_opt (o : option ascii) : bool :=
  match o with Some c => is_word c | None => false end.

(** [\b] between the characters [prev] and [next] ([None] at an end of
    the text). *)
Definition word_boundary (prev next : option ascii) : bool :=
  xorb (is_word_opt prev) (is_word_opt next).

Definition head_char (s : string) : option ascii :=
  match s with "" => None | String c _ => Some c end.

(** The text left after the literal [lit] at the start of [s], with the
    last character read. *)
Fixpoint match_literal (lit : string) (prev : option ascii) (s : string)
    : option (option ascii * string) :=
  match lit with
  | "" => Some (prev, s)
  | String c lit' =>
      match s with
      | String d s' =>
          if Ascii.eqb c d then match_literal lit' (Some d) s' else None
      | "" => None
      end
  end.

(** One alternative of the group followed by the closing [\b]: the length
    of the match. *)
Definition match_alternative (alt : string) (prev : option ascii)
    (s : string) : option nat :=
  match match_literal alt prev s with
  | Some (last, rest) =>
      if word_boundary last (head_char rest) then Some (String.length alt)
      else None
  | None => None
  end.

(** A match of [\b(a|an|the)\b] at the start of [s], where [prev] is the
    character before it: the alternatives are tried in order. *)
Definition match_article (prev : option ascii) (s : string) : option nat :=
  if word_boundary prev (head_char s) then
    match match_alternative "a" prev s with
    | Some n => Some n
    | None =>
        match match_alternative "an" prev s with
        | Some n => Some n
        | None => match_alternative "the" prev s
        end
    end
  else None.

(** The scan of [re.sub]: [skip] characters of a match are still to be
    dropped; a match is replaced by [repl], any other character is kept. *)
Fixpoint sub_articles (repl : string) (prev : option ascii) (skip : nat)
    (s : string) : string :=
  match s with
  | "" => ""
  | String c s' =>
      match skip with
      | S k => sub_articles repl (Some c) k s'
      | O =>
          match match_article prev s with
          | Some (S k) => repl ++ sub_articles repl (Some c) k s'
          | _ => String c (sub_articles repl (Some c) 0 s')
          end
      end
  end.

(** [re.sub(r"\b(a|an|the)\b", " ", s)]. *)
Definition remove_articles (s : string) : string :=
  sub_articles " " None 0 s.

(** ["".join(punc_repl if ch in string.punctuation else ch for ch in s)]. *)
Fixpoint replace_punctuation (s punc_repl : string) : string :=
  match s with
  | "" => ""
  | String ch s' =>
      (if char_in ch string_punctuation then punc_repl else String ch "")
      ++ replace_punctuation s' punc_repl
  end.

(** [s.split()]: the maximal runs of characters that are not whitespace;
    [cur] is the run being read. *)
Fixpoint split_from (cur : string) (s : string) : list string :=
  match s with
  | "" => match cur with "" => [] | _ => [cur] end
  | String c s' =>
      if is_space c then
        match cur with
        | "" => split_from "" s'
        | _ => cur :: split_from "" s'
        end
      else split_from (cur ++ String c "") s'
  end.

Definition split (s : string) : list string := split_from "" s.

(** [" ".join(s.split())]. *)
Definition white_space_fix (s : string) : string :=
  String.concat " " (split s).

Definition normalize_squad (text : string) : string :=
  let text := lower text in
  let text := replace_punctuation text "" in
  let text := remove_articles text in
  let text := white_space_fix text in
  text.

(** *** The normalizer, step by step as the prose describes it *)

(** Keep the characters that satisfy [keep]. *)
Fixpoint filter_chars (keep : ascii -> bool) (s : string) : string :=
  match s with
  | "" => ""
  | String c s' =>
      if keep c then String c (filter_chars keep s') else filter_chars keep s'
  end.

(** Step 2: every punctuation character is removed. *)
Definition strip_punctuation (s : string) : string :=
  filter_chars (fun c => negb (char_in c string_punctuation)) s.

(** A text is a sequence of whole words (maximal runs of word characters)
    and of characters between them. *)
Inductive block := Word (w : string) | Other (c : ascii).

Fixpoint blocks (s : string) : list block :=
  match s with
  | "" => []
  | String c s' =>
      if is_word c then
        match blocks s' with
        | Word w :: bs => Word (String c w) :: bs
        | bs => Word (String c "") :: bs
        end
      else Other c :: blocks s'
  end.

Definition articles : list string := ["a"; "an"; "the"].

Definition render_block (b : block) : string :=
  match b with
  | Word w => if bool_decide (w ∈ articles) then " " else w
  | Other c => String c ""
  end.

Definition render_blocks (bs : list block) : string :=
  foldr (fun b acc => render_block b ++ acc) "" bs.

(** Step 3: every whole word that is an article becomes a single space. *)
Definition replace_article_words (s : string) : string :=
  render_blocks (blocks s).

(** Every run of whitespace becomes a single space; [in_run] holds while
    a run is being read. *)
Fixpoint collapse_spaces (in_run : bool) (s : string) : string :=
  match s with
  | "" => ""
  | String c s' =>
      if is_space c then
        if in_run then collapse_spaces true s'
        else String " " (collapse_spaces true s')
      else String c (collapse_spaces false s')
  end.

Fixpoint drop_leading_spaces (s : string) : string :=
  match s with
  | "" => ""
  | String c s' => if is_space c then drop_leading_spaces s' else s
  end.

Fixpoint drop_trailing_spaces (s : string) : string :=
  match s with
  | "" => ""
  | String c s' =>
      match drop_trailing_spaces s' with
      | "" => if is_space c then "" else String c ""
      | r => String c r
      end
  end.

Definition trim (s : string) : string :=
  drop_trailing_spaces (drop_leading_spaces s).

(** Step 4: whitespace runs are collapsed, then the text is trimmed. *)
Definition collapse_and_trim (s : string) : string :=
  trim (collapse_spaces false s).

(** The four steps in the order of the prose. *)
Definition normalize_in_order (s : string) : string :=
  collapse_and_trim (replace_article_words (strip_punctuation (lower s))).

(** Auxiliary notions about runs of characters. *)

(** No character of [s] is whitespace. *)
Fixpoint no_space (s : string) : bool :=
  match s with
  | "" => true
  | String c s' => negb (is_space c) && no_space s'
  end.

(** Every character of [s] is a word character. *)
Fixpoint all_word (s : string) : bool :=
  match s with
  | "" => true
  | String c s' => is_word c && all_word s'
  end.

(** The last character read after [w], when [prev] was read before it. *)
Fixpoint last_char (prev : option ascii) (w : string) : option ascii :=
  match w with
  | "" => prev
  | String c w' => last_char (Some c) w'
  end.

End Text.

(** ** Token F1 *)

Section TokenF1.
Local Open Scope Q_scope.
Context `{Countable K}.

(** [collections.Counter(tokens)]: the multiset of the tokens. *)
Definition Counter (tokens : list K) : gmultiset K := list_to_set_disj tokens.

(** [sum(c.values())]: the total of all counts. *)
Definition sum_values (c : gmultiset K) : nat := size c.

Definition f1_score (prediction_tokens ground_truth_tokens : list K) : res Q :=
  let common := Counter prediction_tokens ∩ Counter ground_truth_tokens in
  let num_same := sum_values common in
  if (num_same =? 0)%nat then Ok 0
  else
    precision ← py_div (1 * inject_Z (Z.of_nat num_same)) (len prediction_tokens);
    recall ← py_div (1 * inject_Z (Z.of_nat num_same)) (len ground_truth_tokens);
    f1 ← py_div (2 * precision * recall) (precision + recall);
    Ok f1.

End TokenF1.

(** ** Element matcher and positional exact match *)

Section Elements.
Local Open Scope Q_scope.
Context {C : Type} `{EqDecision C}.

(** A UI element is a pair of a bounding box and its content. *)
Abbreviation element := (bbox * C)%type.

(** The default value of the [iou_threshold] keyword argument. *)
Definition default_iou_threshold : Q := 1 # 10.

(** [content1 == content2 and iou(bbox1, bbox2) >= iou_threshold]; the
    right operand of [and] is evaluated only when the contents are equal. *)
Definition ui_elements_match (element1 element2 : element)
    (iou_threshold : Q) : res bool :=
  let '(bbox1, content1) := element1 in
  let '(bbox2, content2) := element2 in
  if bool_decide (content1 = content2) then
    v ← iou bbox1 bbox2; Ok (Qle_bool iou_threshold v)
  else Ok false.

(** [all(ui_elements_match(el1, el2, t) for el1, el2 in pairs)], which stops
    at the first pair that does not match. *)
Fixpoint all_elements_match (pairs : list (element * element))
    (iou_threshold : Q) : res bool :=
  match pairs with
  | [] => Ok true
  | (el1, el2) :: pairs' =>
      b ← ui_elements_match el1 el2 iou_threshold;
      if b : bool then all_elements_match pairs' iou_threshold else Ok false
  end.

Definition uic_bb_exact_match (elements1 elements2 : list element)
    (iou_threshold : Q) : res bool :=
  if negb (length elements1 =? length elements2)%nat then Ok false
  else all_elements_match (zip elements1 elements2) iou_threshold.

(** Two elements match at a threshold: same content and enough overlap. *)
Definition elements_match_at (iou_threshold : Q) (e1 e2 : element) : Prop :=
  e1.2 = e2.2 /\ exists v, iou e1.1 e2.1 = Ok v /\ iou_threshold <= v.

(** Two lists match position by position at a threshold. *)
Definition positional_match (iou_threshold : Q)
    (elements1 elements2 : list element) : Prop :=
  length elements2 = length elements1 /\
  Forall (fun p => elements_match_at iou_threshold p.1 p.2)
         (zip elements1 elements2).

End Elements.

(** ** Metric variants *)

Section TextMetrics.
Local Open Scope Q_scope.

Definition NO_ANSWER : string := "<no answer>".

Definition sqa_s_metrics (prediction : string) (ground_truths : list string)
    : res (Q * Q) :=
  if bool_decide (prediction = NO_ANSWER) then
    if existsb (fun gt => bool_decide (gt = NO_ANSWER)) ground_truths
    then Ok (1, 1) else Ok (0, 0)
  else
    let ground_truths := filter (fun gt => gt <> NO_ANSWER) ground_truths in
    if py_not ground_truths then Ok (0, 0)
    else
      let prediction := normalize_squad prediction in
      let ground_truths := map normalize_squad ground_truths in
      let prediction_tokens := split prediction in
      let exact_match :=
        if bool_decide (prediction ∈ ground_truths) then 1 else 0 in
      scores ← mapM (fun gt => f1_score prediction_tokens (split gt))
                    ground_truths;
      f1 ← py_max scores;
      Ok (exact_match, f1).

Definition sqa_uic_metrics `{Countable K} (prediction : list K)
    (ground_truths : list (list K)) : res (Q * Q) :=
  if py_not prediction then
    if existsb py_not ground_truths then Ok (1, 1) else Ok (0, 0)
  else
    let ground_truths := filter (fun gt => py_not gt = false) ground_truths in
    if py_not ground_truths then Ok (0, 0)
    else
      let exact_match :=
        if bool_decide (prediction ∈ ground_truths) then 1 else 0 in
      scores ← mapM (fun gt => f1_score prediction gt) ground_truths;
      f1 ← py_max scores;
      Ok (exact_match, f1).

End TextMetrics.

(** ** Bipartite assignment scorer *)

(** A dense matrix, as a list of rows. *)
Abbreviation matrix := (list (list Q)).

(** [m[i, j]], raising [IndexError] out of range. *)
Definition mat_at (m : matrix) (i j : nat) : res Q :=
  match m !! i with
  | Some row => match row !! j with
                | Some v => Ok v
                | None => Raise IndexError
                end
  | None => Raise IndexError
  end.

(** [-m]. *)
Definition mat_neg (m : matrix) : matrix := map (map Qopp) m.

Section Scorer.
Local Open Scope Q_scope.

(** [scipy.optimize.linear_sum_assignment]: from a cost matrix to the arrays
    of row indices and of column indices of an optimal assignment. *)
Variable linear_sum_assignment : matrix -> list nat * list nat.

Definition uic_bb_f1_score {A B : Type} (prediction : list A)
    (ground_truth : list B) (score_func : A -> B -> res Q)
    (threshold : Q) : res Q :=
  if py_not prediction && py_not ground_truth then Ok 1
  else if py_not prediction || py_not ground_truth then Ok 0
  else
    (* Create cost matrix. *)
    cost_matrix ← mapM (fun element1 =>
                     mapM (fun element2 =>
                       score ← score_func element1 element2;
                       Ok (if Qle_bool threshold score then score else 0))
                       ground_truth) prediction;
    (* Create matches. *)
    let '(idxs1, idxs2) := linear_sum_assignment (mat_neg cost_matrix) in
    (* Filter out any matches below threshold. *)
    if negb (length idxs1 =? length idxs2)%nat then Raise IndexError
    else
      selected_costs ← mapM (fun '(i, j) => mat_at cost_matrix i j)
                            (zip idxs1 idxs2);
      let valid := filter (fun c => Qle_bool threshold c = true)
                          selected_costs in
      let matches := length valid in
      if (matches =? 0)%nat then Ok 0
      else
        precision ← py_div (1 * inject_Z (Z.of_nat matches)) (len prediction);
        recall ← py_div (1 * inject_Z (Z.of_nat matches)) (len ground_truth);
        f1 ← py_div (2 * precision * recall) (precision + recall);
        Ok f1.

(** [any(uic_bb_exact_match(prediction, gt) for gt in ground_truths)] as the
    module calls it: without the [iou_threshold] argument, so at the default
    of the callee; [any] stops at the first true result. *)
Fixpoint any_exact_match {C} `{EqDecision C} (prediction : list (bbox * C))
    (ground_truths : list (list (bbox * C))) : res bool :=
  match ground_truths with
  | [] => Ok false
  | gt :: ground_truths' =>
      b ← uic_bb_exact_match prediction gt default_iou_threshold;
      if b : bool then Ok true else any_exact_match prediction ground_truths'
  end.

Definition sqa_uic_bb_metrics {C} `{EqDecision C}
    (prediction : list (bbox * C)) (ground_truths : list (list (bbox * C)))
    (iou_threshold : Q) : res (Q * Q * Q) :=
  if py_not prediction then
    if existsb py_not ground_truths then Ok (1, 1, 1) else Ok (0, 0, 0)
  else
    let ground_truths := filter (fun gt => py_not gt = false) ground_truths in
    if py_not ground_truths then Ok (0, 0, 0)
    else
      bbox_scores ← mapM (fun gt =>
                       uic_bb_f1_score (map fst prediction) (map fst gt)
                         iou iou_threshold) ground_truths;
      bbox_f1 ← py_max bbox_scores;
      exact_match ← any_exact_match prediction ground_truths;
      scores ← mapM (fun gt =>
                  uic_bb_f1_score prediction gt
                    (fun x y => if bool_decide (x.2 = y.2)
                                then iou x.1 y.1 else Ok 0)
                    iou_threshold) ground_truths;
      f1 ← py_max scores;
      Ok (bbox_f1, if exact_match : bool then 1 else 0, f1).

End Scorer.

(** ** Assignments and the contract of the solver *)

(** An assignment pairs row indices with column indices. *)
Abbreviation assignment := (list (nat * nat)).

Section Assignments.
Local Open Scope Q_scope.

(** [m[i, j]] where the indices are known to be in range (0 elsewhere). *)
Definition mat_get (m : matrix) (i j : nat) : Q :=
  default 0 (m !! i ≫= fun row => row !! j).

(** The total of the entries an assignment selects. *)
Definition total (m : matrix) (a : assignment) : Q :=
  foldr (fun p acc => mat_get m p.1 p.2 + acc) 0 a.

(** An [n]-by-[m] matrix. *)
Definition shape (c : matrix) (n m : nat) : Prop :=
  length c = n /\ Forall (fun row => length row = m) c.

(** One-to-one: no row and no column is paired twice, and every index is
    in range. *)
Definition one_to_one (n m : nat) (a : assignment) : Prop :=
  NoDup a.*1 /\ NoDup a.*2 /\ Forall (fun p => (p.1 < n /\ p.2 < m)%nat) a.

(** One-to-one and pairing every element of the shorter side. *)
Definition complete (n m : nat) (a : assignment) : Prop :=
  one_to_one n m a /\ length a = Nat.min n m.

(** The documented contract of [scipy.optimize.linear_sum_assignment] on a
    non-empty cost matrix: two index arrays of the same length that pair
    every element of the shorter side, one-to-one, with the least total
    cost among all such pairings. *)
Definition lsa_contract (lsa : matrix -> list nat * list nat) : Prop :=
  forall (c : matrix) (n m : nat),
    shape c n m -> (0 < n)%nat -> (0 < m)%nat ->
    length (lsa c).1 = length (lsa c).2 /\
    complete n m (zip (lsa c).1 (lsa c).2) /\
    forall a, complete n m a -> total c (zip (lsa c).1 (lsa c).2) <= total c a.

(** The thresholded score matrix the scorer builds. *)
Definition score_matrix {A B} (prediction : list A) (ground_truth : list B)
    (f : A -> B -> Q) (threshold : Q) : matrix :=
  map (fun x => map (fun y => if Qle_bool threshold (f x y) then f x y else 0)
                    ground_truth) prediction.

(** The pairs of an assignment whose entry passes the threshold. *)
Definition count_matches (threshold : Q) (m : matrix) (a : assignment) : nat :=
  length (filter (fun p => Qle_bool threshold (mat_get m p.1 p.2) = true) a).

(** [2PR/(P+R)] for [P = matches/|A|] and [R = matches/|B|], and 0 when
    there is no match. *)
Definition f1_of_matches (matches n m : nat) : Q :=
  if (matches =? 0)%nat then 0
  else
    let precision := inject_Z (Z.of_nat matches) / inject_Z (Z.of_nat n) in
    let recall := inject_Z (Z.of_nat matches) / inject_Z (Z.of_nat m) in
    (2 * precision * recall) / (precision + recall).

(** Plain equality as a score: 1 for equal elements and 0 otherwise. *)
Definition eq_score `{EqDecision K} (x y : K) : Q :=
  if bool_decide (x = y) then 1 else 0.

(** The pair of positions [p] holds equal elements of [xs] and [ys]. *)
Definition paired {K} (xs ys : list K) (p : nat * nat) : Prop :=
  exists x, xs !! p.1 = Some x /\ ys !! p.2 = Some x.

(** *** A reference solver by exhaustive search *)

(** All the ways to pair [k] of the rows with [k] of the columns. *)
Fixpoint matchings (k : nat) (rows cols : list nat) : list assignment :=
  match k with
  | O => [[]]
  | S k' =>
      i ← rows; j ← cols;
      map (cons (i, j))
          (matchings k' (filter (fun x => x <> i) rows)
                        (filter (fun x => x <> j) cols))
  end.

(** The first element of least cost. *)
Fixpoint argmin {X} (cost : X -> Q) (xs : list X) : option X :=
  match xs with
  | [] => None
  | x :: xs' =>
      match argmin cost xs' with
      | None => Some x
      | Some b => Some (if Qle_bool (cost x) (cost b) then x else b)
      end
  end.

Definition lsa_brute (c : matrix) : list nat * list nat :=
  let n := length c in
  let m := length (default [] (head c)) in
  let best := argmin (total c) (matchings (Nat.min n m) (seq 0 n) (seq 0 m)) in
  let a := default [] best in
  (a.*1, a.*2).

(** The scores of a 2-by-2 instance on which pairing greedily (first the
    best pair, [(0, 0)]) leaves one element unmatched, while the optimal
    assignment matches both. *)
Definition greedy_trap (x y : nat) : Q :=
  match x, y with
  | O, O => 9 # 10
  | O, _ => 8 # 10
  | _, O => 8 # 10
  | _, _ => 0
  end.

(** *** The two sentences about the scorer and about exact match, as the
    prose states them *)

(** The scorer read as: the F1 of the matches of a partial one-to-one
    assignment of greatest total among all partial one-to-one
    assignments. *)
Definition partial_optimum_f1 (lsa : matrix -> list nat * list nat) {A B}
    (prediction : list A) (ground_truth : list B) (f : A -> B -> Q)
    (threshold : Q) : Prop :=
  let n := length prediction in
  let m := length ground_truth in
  let c := score_matrix prediction ground_truth f threshold in
  exists a,
    one_to_one n m a /\
    (forall a', one_to_one n m a' -> total c a' <= total c a) /\
    returns (uic_bb_f1_score lsa prediction ground_truth
               (fun x y => Ok (f x y)) threshold)
            (f1_of_matches (count_matches threshold c a) n m).

(** The call returned a triple whose second component is [em]. *)
Definition em_component (r : res (Q * Q * Q)) (em : Q) : Prop :=
  exists bbox_f1 f1, r = Ok (bbox_f1, em, f1).

(** Exact match read as: 1 exactly when some non-empty ground truth matches
    the prediction position by position at the threshold of the call. *)
Definition em_at_call_threshold (lsa : matrix -> list nat * list nat)
    {C} `{EqDecision C} (prediction : list (bbox * C))
    (ground_truths : list (list (bbox * C))) (iou_threshold : Q) : Prop :=
  exists em,
    em_component (sqa_uic_bb_metrics lsa prediction ground_truths
                    iou_threshold) em /\
    (em == 1 <->
     exists gt, gt ∈ ground_truths /\ gt <> [] /\
                positional_match iou_threshold prediction gt).

End Assignments.

(** ** Notions used to state further properties *)

Section FurtherNotions.
Local Open Scope Q_scope.

(** Two boxes with equal coordinates. *)
Definition same_box (a b : bbox) : Prop :=
  b_ymin a == b_ymin b /\ b_xmin a == b_xmin b /\
  b_ymax a == b_ymax b /\ b_xmax a == b_xmax b.

(** The two boxes share a rectangle of positive width and height. *)
Definition interiors_meet (a b : bbox) : Prop :=
  Qmax (b_xmin a) (b_xmin b) < Qmin (b_xmax a) (b_xmax b) /\
  Qmax (b_ymin a) (b_ymin b) < Qmin (b_ymax a) (b_ymax b).

(** A box of positive width and height. *)
Definition proper_bbox (b : bbox) : Prop :=
  b_ymin b < b_ymax b /\ b_xmin b < b_xmax b.

End FurtherNotions.

Section FurtherTextNotions.
Local Open Scope string_scope.

(** Every character of [s] satisfies [P]. *)
Fixpoint string_forall (P : ascii -> bool) (s : string) : bool :=
  match s with
  | "" => true
  | String c s' => P c && string_forall P s'
  end.

(** The characters a normalized text is made of: no upper-case letter, no
    punctuation, and no whitespace other than the space. *)
Definition normal_char (c : ascii) : bool :=
  negb (is_upper c) && negb (char_in c string_punctuation)
  && (negb (is_space c) || Ascii.eqb c " ").

(** The whole words of a text, in order. *)
Definition words (s : string) : list string :=
  omap (fun b => match b with Word w => Some w | Other _ => None end)
       (blocks s).

(** The text a block stands for. *)
Definition raw_block (b : block) : string :=
  match b with Word w => w | Other c => String c "" end.

(** Words are non-empty runs of word characters, never adjacent, and the
    characters between them are not word characters. *)
Fixpoint well_formed (bs : list block) : Prop :=
  match bs with
  | [] => True
  | Word w :: rest =>
      w <> "" /\ all_word w = true /\
      match rest with Word _ :: _ => False | _ => True end /\
      well_formed rest
  | Other c :: rest => is_word c = false /\ well_formed rest
  end.

End FurtherTextNotions.

(** ** Binary64 arithmetic *)

(** [iou] as it runs when the coordinates are floats: the same expressions
    on primitive binary64 numbers.  Python's [max(a, b)] is [b] when
    [b > a] and [a] otherwise, [min(a, b)] is [b] when [b < a], and [/]
    raises on a zero divisor; the integer [0] of the source converts to the
    float [0]. *)
Section Binary64.
Local Open Scope float_scope.





End Binary64.

(** Sizes of boxes for which the binary64 arithmetic of [iou] stays within
    range, so that the rational model and the code agree on what is stated
    of them. *)
Section Magnitudes.
Local Open Scope Q_scope.




(** With sides of at most [2^511] the area of a box does not overflow when
    doubled; with sides of at least [2^-511] it does not underflow. *)
Definition side_bound : Q := inject_Z (2 ^ 511).

Definition sides_sized (b : bbox) : Prop :=
  (/ side_bound <= b_xmax b - b_xmin b /\
   b_xmax b - b_xmin b <= side_bound) /\
  (/ side_bound <= b_ymax b - b_ymin b /\
   b_ymax b - b_ymin b <= side_bound).

(** A whole number of magnitude at most [2^25], as pixel coordinates are:
    differences, products and sums of such coordinates are computed exactly
    in binary64. *)
Definition pixel (c : Q) : Prop :=
  exists z : Z, c == inject_Z z /\ (Z.abs z <= 2 ^ 25)%Z.

Definition pixel_bbox (b : bbox) : Prop :=
  pixel (b_ymin b) /\ pixel (b_xmin b) /\ pixel (b_ymax b) /\ pixel (b_xmax b).

End Magnitudes.

(** * Properties *)

(** ** The error monad *)

Section MonadFacts.

Lemma mapM_cons {A B} (f : A -> res B) (x : A) (l : list A) :
  mapM f (x :: l) = y ← f x; k ← mapM f l; Ok (y :: k).
Proof. reflexivity. Qed.

Lemma mapM_Ok {A B} (g : A -> B) (l : list A) :
  mapM (fun x => Ok (g x)) l = Ok (map g l).
Proof.
  induction l as [|x l IH]; [done|]. by rewrite mapM_cons, IH.
Qed.

Lemma mapM_res_ext {A B} (f g : A -> res B) (l : list A) :
  (forall x, f x = g x) -> mapM f l = mapM g l.
Proof.
  intros E. induction l as [|x l IH]; [done|].
  by rewrite !mapM_cons, E, IH.
Qed.

Lemma mapM_Ok_on {A B} (f : A -> res B) (g : A -> B) (l : list A) :
  Forall (fun x => f x = Ok (g x)) l -> mapM f l = Ok (map g l).
Proof.
  induction 1 as [|x l Hx _ IH]; [done|].
  by rewrite mapM_cons, Hx, IH.
Qed.

Lemma mapM_returns {A B} (h : A -> res B) (l : list A) :
  (forall x, exists v, h x = Ok v) ->
  exists vs, mapM h l = Ok vs /\ length vs = length l.
Proof.
  intros Hh. induction l as [|x l (vs & IH & L)]; [by exists []|].
  destruct (Hh x) as [v Hv]. exists (v :: vs).
  split; [by rewrite mapM_cons, Hv, IH | simpl; lia].
Qed.

Lemma py_max_returns (xs : list Q) : xs <> [] -> exists v, py_max xs = Ok v.
Proof. destruct xs; [done|]. intros _. eexists. reflexivity. Qed.

End MonadFacts.
Section GeometryFacts.
Local Open Scope Q_scope.

Lemma Qeq_bool_false (x y : Q) : Qeq_bool x y = false <-> ~ x == y.
Proof.
  split.
  - intros E Hxy. apply Qeq_bool_iff in Hxy. congruence.
  - intros N. destruct (Qeq_bool x y) eqn:E; [|done].
    apply Qeq_bool_iff in E. contradiction.
Qed.

Lemma py_div_nonzero (a b : Q) : ~ b == 0 -> py_div a b = Ok (a / b).
Proof. intros N. unfold py_div. apply Qeq_bool_false in N. by rewrite N. Qed.

Lemma Qmax_cases (x y : Q) :
  (x <= Qmax x y /\ y <= Qmax x y) /\ (Qmax x y == x \/ Qmax x y == y).
Proof.
  destruct (Q.max_spec x y) as [[? E]|[? E]]; rewrite E; split; try lra; auto.
Qed.

Lemma Qmin_cases (x y : Q) :
  (Qmin x y <= x /\ Qmin x y <= y) /\ (Qmin x y == x \/ Qmin x y == y).
Proof.
  destruct (Q.min_spec x y) as [[? E]|[? E]]; rewrite E; split; try lra; auto.
Qed.

Lemma iou_unfold (a b : bbox) :
  iou a b =
    if Qeq_bool (overlap a b) 0 then Ok 0
    else py_div (overlap a b)
           ((b_xmax a - b_xmin a) * (b_ymax a - b_ymin a)
            + (b_xmax b - b_xmin b) * (b_ymax b - b_ymin b) - overlap a b).
Proof. reflexivity. Qed.

Lemma overlap_sym (a b : bbox) : overlap a b == overlap b a.
Proof.
  unfold overlap.
  rewrite (Q.min_comm (b_xmax a)), (Q.max_comm (b_xmin a)),
    (Q.min_comm (b_ymax a)), (Q.max_comm (b_ymin a)). reflexivity.
Qed.

Lemma overlap_nonneg (a b : bbox) : 0 <= overlap a b.
Proof.
  unfold overlap.
  apply Qmult_le_0_compat; apply Q.le_max_l.
Qed.

(** A non-empty overlap is contained in both boxes, which then have a
    positive area each: no inverted box overlaps anything. *)
Lemma overlap_le_area (a b : bbox) :
  ~ overlap a b == 0 ->
  overlap a b <= (b_xmax a - b_xmin a) * (b_ymax a - b_ymin a) /\
  overlap a b <= (b_xmax b - b_xmin b) * (b_ymax b - b_ymin b) /\
  0 < overlap a b.
Proof.
  unfold overlap.
  set (w := Qmin (b_xmax a) (b_xmax b) - Qmax (b_xmin a) (b_xmin b)).
  set (h := Qmin (b_ymax a) (b_ymax b) - Qmax (b_ymin a) (b_ymin b)).
  intros N.
  destruct (Qmin_cases (b_xmax a) (b_xmax b)) as [[? ?] _].
  destruct (Qmax_cases (b_xmin a) (b_xmin b)) as [[? ?] _].
  destruct (Qmin_cases (b_ymax a) (b_ymax b)) as [[? ?] _].
  destruct (Qmax_cases (b_ymin a) (b_ymin b)) as [[? ?] _].
  assert (Hw : 0 < w).
  { destruct (Qlt_le_dec 0 w) as [|Hle]; [done|]. exfalso. apply N.
    rewrite (Q.max_l 0 w) by done. lra. }
  assert (Hh : 0 < h).
  { destruct (Qlt_le_dec 0 h) as [|Hle]; [done|]. exfalso. apply N.
    rewrite (Q.max_l 0 h) by done. lra. }
  rewrite (Q.max_r 0 w), (Q.max_r 0 h) by lra.
  assert (w <= b_xmax a - b_xmin a) by (unfold w; lra).
  assert (w <= b_xmax b - b_xmin b) by (unfold w; lra).
  assert (h <= b_ymax a - b_ymin a) by (unfold h; lra).
  assert (h <= b_ymax b - b_ymin b) by (unfold h; lra).
  repeat split; nra.
Qed.

(** [iou] never divides by zero, whatever the boxes. *)
Lemma iou_total (a b : bbox) : exists v, iou a b = Ok v /\ 0 <= v /\ v <= 1.
Proof.
  rewrite iou_unfold.
  destruct (Qeq_bool (overlap a b) 0) eqn:E.
  - exists 0. split; [done|lra].
  - apply Qeq_bool_false in E.
    destruct (overlap_le_area a b E) as (Ha & Hb & Hpos).
    eexists. split.
    + apply py_div_nonzero. lra.
    + split.
      * apply Qle_shift_div_l; lra.
      * apply Qle_shift_div_r; lra.
Qed.

Lemma iou_sym (a b : bbox) :
  exists v w, iou a b = Ok v /\ iou b a = Ok w /\ v == w.
Proof.
  rewrite !iou_unfold.
  pose proof (overlap_sym a b) as S.
  destruct (Qeq_bool (overlap a b) 0) eqn:E.
  - assert (Qeq_bool (overlap b a) 0 = true) as ->.
    { apply Qeq_bool_iff. apply Qeq_bool_iff in E. lra. }
    exists 0, 0. done.
  - apply Qeq_bool_false in E.
    assert (E' : ~ overlap b a == 0) by lra.
    destruct (overlap_le_area a b E) as (Ha & Hb & Hpos).
    destruct (overlap_le_area b a E') as (Ha' & Hb' & Hpos').
    apply Qeq_bool_false in E'. rewrite E'.
    do 2 eexists. split; [apply py_div_nonzero; lra|].
    split; [apply py_div_nonzero; lra|].
    rewrite S. apply Qdiv_comp; [reflexivity|]. ring.
Qed.

End GeometryFacts.

Section GeometryClaims.
Local Open Scope Q_scope.

Lemma overlap_self (b : bbox) : valid_bbox b -> overlap b b == area b.
Proof.
  intros [Hy Hx]. unfold overlap, area.
  rewrite !Q.min_id, !Q.max_id.
  rewrite !Q.max_r by lra. ring.
Qed.

(** In exact arithmetic, for a valid box [b], [iou(b, b)] is 1 when [b]
    has a positive area and 0 when its area is zero. *)
Lemma iou_self (b : bbox) :
  valid_bbox b ->
  (0 < area b -> returns (iou b b) 1) /\
  (area b == 0 -> returns (iou b b) 0).
Proof.
  intros Hv. pose proof (overlap_self b Hv) as Ho.
  rewrite iou_unfold. split; intros Ha.
  - assert (N : ~ overlap b b == 0) by lra.
    pose proof N as N'. apply Qeq_bool_false in N'. rewrite N'.
    eexists. split; [apply py_div_nonzero; unfold area in *; lra|].
    rewrite Ho. unfold area in *. field. lra.
  - assert (E : Qeq_bool (overlap b b) 0 = true) by (apply Qeq_bool_iff; lra).
    rewrite E. exists 0. done.
Qed.



End GeometryClaims.

(** ** Binary64: [iou] of a box with itself *)

(** The operations of binary64 are specified by [SpecFloat]; the facts
    below are read off that specification. *)
Section SpecFacts.
Local Open Scope Z_scope.

(** Rounding a mantissa that is already canonical changes nothing. *)













End SpecFacts.

Section Binary64Facts.
Local Open Scope float_scope.










End Binary64Facts.

Section Binary64Examples.
Local Open Scope float_scope.




End Binary64Examples.

(** ** The text normalizer *)

Section NormalizerFacts.
Local Open Scope string_scope.

Lemma append_nil_l (s : string) : "" ++ s = s.
Proof. reflexivity. Qed.

Lemma append_cons (c : ascii) (s1 s2 : string) :
  String c s1 ++ s2 = String c (s1 ++ s2).
Proof. reflexivity. Qed.

Ltac app_simpl := rewrite ?append_cons, ?append_nil_l.

Lemma append_nil_r (s : string) : s ++ "" = s.
Proof. induction s as [|c s IH]; app_simpl; [done|]. by rewrite IH. Qed.

Lemma append_assoc (s1 s2 s3 : string) : (s1 ++ s2) ++ s3 = s1 ++ s2 ++ s3.
Proof. induction s1 as [|c s1 IH]; app_simpl; [done|]. by rewrite IH. Qed.

(** *** Punctuation *)

Lemma replace_punctuation_empty (s : string) :
  replace_punctuation s "" = strip_punctuation s.
Proof.
  unfold strip_punctuation. induction s as [|c s IH]; [done|].
  cbn [replace_punctuation filter_chars].
  destruct (char_in c string_punctuation); cbn [negb]; app_simpl;
    by rewrite IH.
Qed.

(** *** Whitespace *)

Lemma no_space_snoc (cur : string) (c : ascii) :
  no_space cur = true -> is_space c = false ->
  no_space (cur ++ String c "") = true.
Proof.
  intros Hc Hs. induction cur as [|d cur IH]; app_simpl; cbn in *.
  - by rewrite Hs.
  - apply andb_true_iff in Hc as [-> Hc]. cbn. by apply IH.
Qed.

Lemma collapse_no_space (cur s : string) (b : bool) :
  no_space cur = true -> cur <> "" ->
  collapse_spaces b (cur ++ s) = cur ++ collapse_spaces false s.
Proof.
  intros Hc Hne. revert b. induction cur as [|d cur IH]; intros b; [done|].
  cbn in Hc. apply andb_true_iff in Hc as [Hd Hc].
  apply negb_true_iff in Hd. app_simpl. cbn. rewrite Hd.
  destruct cur as [|e cur]; [done|]. by rewrite IH.
Qed.

Lemma collapse_no_space_all (cur : string) (b : bool) :
  no_space cur = true -> collapse_spaces b cur = cur.
Proof.
  revert b. induction cur as [|d cur IH]; intros b Hc; [done|].
  cbn in Hc. apply andb_true_iff in Hc as [Hd Hc].
  apply negb_true_iff in Hd. cbn. rewrite Hd. by rewrite IH.
Qed.

Lemma drop_trailing_no_space (cur s : string) :
  no_space cur = true ->
  drop_trailing_spaces (cur ++ s) = cur ++ drop_trailing_spaces s.
Proof.
  intros Hc. induction cur as [|d cur IH]; [done|].
  cbn in Hc. apply andb_true_iff in Hc as [Hd Hc].
  apply negb_true_iff in Hd. app_simpl. cbn. rewrite IH by done.
  rewrite Hd. by destruct (cur ++ drop_trailing_spaces s).
Qed.

Lemma drop_leading_no_space (cur s : string) :
  no_space cur = true -> cur <> "" ->
  drop_leading_spaces (cur ++ s) = cur ++ s.
Proof.
  intros Hc Hne. destruct cur as [|d cur]; [done|].
  cbn in Hc. apply andb_true_iff in Hc as [Hd _].
  apply negb_true_iff in Hd. app_simpl. cbn. by rewrite Hd.
Qed.

Lemma space_is_space : is_space " " = true.
Proof. reflexivity. Qed.

(** Inside a run the collapsed text has no leading space, and leading
    spaces are dropped the same whether a run was being read or not. *)
Lemma drop_leading_collapse (s : string) :
  drop_leading_spaces (collapse_spaces true s) = collapse_spaces true s /\
  drop_leading_spaces (collapse_spaces false s) = collapse_spaces true s.
Proof.
  induction s as [|c s [IH1 IH2]]; [done|]. cbn.
  destruct (is_space c) eqn:E; cbn; rewrite ?E; done.
Qed.

Lemma split_from_tokens (cur s : string) :
  Forall (fun w => w <> "") (split_from cur s).
Proof.
  revert cur. induction s as [|c s IH]; intros cur; cbn.
  - destruct cur; repeat constructor. done.
  - destruct (is_space c); [|apply IH].
    destruct cur; [apply IH|]. constructor; [done|apply IH].
Qed.

Lemma concat_tokens_empty (ws : list string) :
  Forall (fun w => w <> "") ws -> String.concat " " ws = "" -> ws = [].
Proof.
  intros Hws E. destruct Hws as [|w ws Hw _]; [done|]. exfalso.
  destruct w as [|c w]; [done|]. destruct ws; discriminate E.
Qed.

Lemma white_space_fix_from (cur s : string) :
  no_space cur = true ->
  String.concat " " (split_from cur s)
  = trim (collapse_spaces false (cur ++ s)).
Proof.
  revert cur. induction s as [|c s IH]; intros cur Hc.
  - rewrite append_nil_r. unfold trim.
    rewrite collapse_no_space_all by done.
    destruct cur as [|d cur]; [done|].
    pose proof (drop_leading_no_space (String d cur) "" Hc) as E1.
    pose proof (drop_trailing_no_space (String d cur) "" Hc) as E2.
    cbn [drop_trailing_spaces] in E2. rewrite !append_nil_r in E1, E2.
    rewrite E1 by done. by rewrite E2.
  - cbn [split_from]. destruct (is_space c) eqn:E.
    + destruct cur as [|d cur].
      * rewrite (IH "") by done. app_simpl. cbn [collapse_spaces].
        rewrite E. unfold trim. cbn [drop_leading_spaces].
        rewrite space_is_space.
        destruct (drop_leading_collapse s) as [H1 H2]. by rewrite H1, H2.
      * set (w := String d cur) in *.
        pose proof (split_from_tokens "" s) as Htok.
        pose proof (IH "" eq_refl) as IH0. rewrite append_nil_l in IH0.
        unfold trim in IH0 |- *.
        destruct (drop_leading_collapse s) as [H1 H2].
        rewrite H2 in IH0.
        rewrite collapse_no_space by done.
        rewrite drop_leading_no_space by done.
        rewrite drop_trailing_no_space by done.
        cbn [collapse_spaces]. rewrite E.
        cbn [drop_trailing_spaces]. rewrite <- IH0.
        destruct (split_from "" s) as [|w1 ws] eqn:Es.
        -- cbn. by rewrite append_nil_r.
        -- destruct (String.concat " " (w1 :: ws)) eqn:Ec.
           ++ apply concat_tokens_empty in Ec; done.
           ++ change (w ++ " " ++ String.concat " " (w1 :: ws)
                      = w ++ String " " (String a s0)).
              by rewrite Ec.
    + rewrite IH by (by apply no_space_snoc).
      by rewrite append_assoc.
Qed.

Lemma white_space_fix_collapse_and_trim (s : string) :
  white_space_fix s = collapse_and_trim s.
Proof. apply (white_space_fix_from "" s). reflexivity. Qed.

(** *** Articles *)

Lemma match_literal_spec (lit : string) (prev : option ascii) (s : string)
    (l : option ascii) (r : string) :
  match_literal lit prev s = Some (l, r) ->
  s = lit ++ r /\ l = last_char prev lit.
Proof.
  revert prev s. induction lit as [|c lit IH]; intros prev s Hm; cbn in Hm.
  - injection Hm as <- <-. done.
  - destruct s as [|d s]; [done|].
    destruct (Ascii.eqb_spec c d) as [->|]; [|done].
    apply IH in Hm as [-> ->]. done.
Qed.

Lemma match_literal_app (lit : string) (prev : option ascii) (r : string) :
  match_literal lit prev (lit ++ r) = Some (last_char prev lit, r).
Proof.
  revert prev. induction lit as [|c lit IH]; intros prev; [done|].
  app_simpl. cbn. rewrite Ascii.eqb_refl. apply IH.
Qed.

Lemma word_prefix_unique (w v r r' : string) :
  all_word w = true -> all_word v = true ->
  is_word_opt (head_char r) = false -> is_word_opt (head_char r') = false ->
  w ++ r = v ++ r' -> w = v.
Proof.
  revert v. induction w as [|c w IH]; intros v Hw Hv Hr Hr' E.
  - destruct v as [|d v]; [done|]. rewrite append_nil_l, append_cons in E.
    subst r. cbn in Hv, Hr. apply andb_true_iff in Hv as [Hd _]. congruence.
  - cbn in Hw. apply andb_true_iff in Hw as [Hc Hw].
    destruct v as [|d v].
    + rewrite append_nil_l, append_cons in E. subst r'. cbn in Hr'.
      congruence.
    + rewrite !append_cons in E. injection E as -> E.
      cbn in Hv. apply andb_true_iff in Hv as [_ Hv].
      f_equal. by apply IH.
Qed.

Lemma last_char_word (prev : option ascii) (w : string) :
  all_word w = true -> w <> "" -> is_word_opt (last_char prev w) = true.
Proof.
  revert prev. induction w as [|c w IH]; intros prev Hw Hne; [done|].
  cbn in Hw. apply andb_true_iff in Hw as [Hc Hw]. cbn.
  destruct w as [|d w]; [done|]. by apply IH.
Qed.

(** An alternative matches at the start of a whole word exactly when it
    is that word. *)
Lemma match_alternative_word (alt w rest : string) (prev : option ascii) :
  all_word alt = true -> alt <> "" -> all_word w = true ->
  is_word_opt (head_char rest) = false ->
  match_alternative alt prev (w ++ rest) =
    if bool_decide (w = alt) then Some (String.length alt) else None.
Proof.
  intros Halt Hne Hw Hrest. unfold match_alternative.
  destruct (bool_decide_reflect (w = alt)) as [->|N].
  - rewrite match_literal_app.
    unfold word_boundary. rewrite last_char_word, Hrest by done. done.
  - destruct (match_literal alt prev (w ++ rest)) as [[l r]|] eqn:Em;
      [|done].
    apply match_literal_spec in Em as [E ->].
    unfold word_boundary. rewrite last_char_word by done.
    destruct (is_word_opt (head_char r)) eqn:Hr; [done|].
    exfalso. apply N. by apply (word_prefix_unique w alt rest r).
Qed.

Lemma match_article_word (w rest : string) (prev : option ascii) :
  is_word_opt prev = false -> all_word w = true -> w <> "" ->
  is_word_opt (head_char rest) = false ->
  match_article prev (w ++ rest) =
    if bool_decide (w ∈ articles) then Some (String.length w) else None.
Proof.
  intros Hp Hw Hne Hrest. unfold match_article.
  assert (word_boundary prev (head_char (w ++ rest)) = true) as ->.
  { destruct w as [|c w]; [done|]. rewrite append_cons. cbn in Hw |- *.
    apply andb_true_iff in Hw as [Hc _]. unfold word_boundary. cbn.
    by rewrite Hp, Hc. }
  rewrite !match_alternative_word by done.
  unfold articles.
  destruct (bool_decide_reflect (w = "a")) as [->|Na].
  { by rewrite bool_decide_eq_true_2 by (repeat constructor). }
  destruct (bool_decide_reflect (w = "an")) as [->|Nan].
  { by rewrite bool_decide_eq_true_2 by (repeat constructor). }
  destruct (bool_decide_reflect (w = "the")) as [->|Nthe].
  { by rewrite bool_decide_eq_true_2 by (repeat constructor). }
  rewrite bool_decide_eq_false_2; [done|].
  rewrite !elem_of_cons. intros [?|[?|[?|Hin]]]; try done.
  by apply not_elem_of_nil in Hin.
Qed.

Lemma match_alternative_nonword (alt s : string) (prev : option ascii) :
  all_word alt = true -> alt <> "" ->
  is_word_opt (head_char s) = false ->
  match_alternative alt prev s = None.
Proof.
  intros Halt Hne Hs. unfold match_alternative.
  destruct alt as [|c alt]; [done|]. cbn.
  destruct s as [|d s]; [done|].
  destruct (Ascii.eqb_spec c d) as [->|]; [|done].
  cbn in Halt, Hs. apply andb_true_iff in Halt as [Hd _]. congruence.
Qed.

Lemma match_article_nonword (s : string) (prev : option ascii) :
  is_word_opt (head_char s) = false -> match_article prev s = None.
Proof.
  intros Hs. unfold match_article.
  rewrite !match_alternative_nonword by done.
  by destruct (word_boundary _ _).
Qed.

Lemma match_article_inside (s : string) (prev : option ascii) :
  is_word_opt prev = true -> is_word_opt (head_char s) = true ->
  match_article prev s = None.
Proof.
  intros Hp Hs. unfold match_article, word_boundary. by rewrite Hp, Hs.
Qed.

(** The whole word at the start of a text that starts with a word
    character. *)
Lemma blocks_word (c : ascii) (s : string) :
  is_word c = true ->
  exists w rest,
    String c s = String c w ++ rest /\
    blocks (String c s) = Word (String c w) :: blocks rest /\
    all_word (String c w) = true /\
    is_word_opt (head_char rest) = false /\
    (String.length rest <= String.length s)%nat.
Proof.
  revert c. induction s as [|d s IH]; intros c Hc.
  - exists "", "". cbn. rewrite Hc. done.
  - destruct (is_word d) eqn:Hd.
    + destruct (IH d Hd) as (w & rest & E & Eb & Hw & Hr & Hl).
      exists (String d w), rest. rewrite E at 1.
      split; [done|]. split; [|split; [|split]].
      * change (blocks (String c (String d s))) with
          (if is_word c then
             match blocks (String d s) with
             | Word w :: bs => Word (String c w) :: bs
             | bs => Word (String c "") :: bs
             end
           else Other c :: blocks (String d s)).
        by rewrite Hc, Eb.
      * change (is_word c && all_word (String d w) = true).
        by rewrite Hc, Hw.
      * done.
      * cbn [String.length]. lia.
    + exists "", (String d s). split; [done|]. split; [|split; [|split]].
      * cbn. by rewrite Hc, Hd.
      * cbn. by rewrite Hc.
      * cbn. done.
      * done.
Qed.

Lemma sub_articles_skip (repl w rest : string) (prev : option ascii) :
  sub_articles repl prev (String.length w) (w ++ rest)
  = sub_articles repl (last_char prev w) 0 rest.
Proof.
  revert prev. induction w as [|c w IH]; intros prev; [done|].
  rewrite append_cons. cbn. apply IH.
Qed.

Lemma sub_articles_inside (repl w rest : string) (prev : option ascii) :
  all_word w = true -> is_word_opt prev = true ->
  sub_articles repl prev 0 (w ++ rest)
  = w ++ sub_articles repl (last_char prev w) 0 rest.
Proof.
  revert prev. induction w as [|c w IH]; intros prev Hw Hp; [done|].
  cbn in Hw. apply andb_true_iff in Hw as [Hc Hw].
  rewrite !append_cons. cbn [sub_articles last_char].
  rewrite match_article_inside by done. f_equal. by apply IH.
Qed.

Lemma render_blocks_cons (b : block) (bs : list block) :
  render_blocks (b :: bs) = render_block b ++ render_blocks bs.
Proof. reflexivity. Qed.

Lemma remove_articles_blocks (n : nat) (s : string) (prev : option ascii) :
  (String.length s <= n)%nat ->
  is_word_opt prev = false \/ is_word_opt (head_char s) = false ->
  sub_articles " " prev 0 s = render_blocks (blocks s).
Proof.
  revert s prev. induction n as [|n IH]; intros s prev Hlen Hb.
  { destruct s; [done|]. cbn in Hlen. lia. }
  destruct s as [|c s]; [done|]. cbn [String.length] in Hlen.
  destruct (is_word c) eqn:Hc.
  - destruct Hb as [Hp|Hh]; [|cbn in Hh; congruence].
    destruct (blocks_word c s Hc) as (w & rest & E & Eb & Hw & Hr & Hl).
    rewrite Eb, render_blocks_cons. cbn [render_block].
    rewrite <- (IH rest (last_char prev (String c w))) by (lia || by right).
    assert (Em := match_article_word (String c w) rest prev Hp Hw
                    ltac:(done) Hr).
    rewrite <- E in Em.
    cbn [sub_articles]. rewrite Em.
    injection E as E. 
    destruct (bool_decide (String c w ∈ articles)).
    + cbn [String.length]. rewrite E at 1.
      by rewrite sub_articles_skip.
    + rewrite append_cons. f_equal. rewrite E at 1.
      cbn in Hw. apply andb_true_iff in Hw as [_ Hw].
      by rewrite sub_articles_inside.
  - cbn [sub_articles]. rewrite match_article_nonword by (cbn; done).
    cbn [blocks]. rewrite Hc, render_blocks_cons. cbn [render_block].
    rewrite append_cons, append_nil_l. f_equal.
    apply IH; [lia|]. left. cbn. done.
Qed.

Lemma remove_articles_spec (s : string) :
  remove_articles s = replace_article_words s.
Proof.
  unfold remove_articles, replace_article_words.
  apply (remove_articles_blocks (String.length s)); [lia|by left].
Qed.

(** C8. [normalize_squad] is the composition, in this order, of
    lowercasing, removing every punctuation character, replacing every
    whole word that is an article by a single space, and collapsing
    whitespace runs and trimming; so ["The Cat."] normalizes like ["cat"]
    and ["a  b"] normalizes to ["b"]. *)
Theorem normalize_squad_steps (s : string) :
  normalize_squad s
  = collapse_and_trim
      (replace_article_words (strip_punctuation (lower s))) /\
  normalize_squad "The Cat." = normalize_squad "cat" /\
  normalize_squad "a  b" = "b".
Proof.
  split; [|split; reflexivity].
  unfold normalize_squad.
  by rewrite replace_punctuation_empty, remove_articles_spec,
    white_space_fix_collapse_and_trim.
Qed.

End NormalizerFacts.

(** ** Token F1 *)

Section TokenF1Facts.
Local Open Scope Q_scope.
Context `{Countable K}.

Lemma size_Counter (l : list K) : size (Counter l) = length l.
Proof.
  unfold Counter. induction l as [|x l IH].
  - apply gmultiset_size_empty.
  - rewrite list_to_set_disj_cons, gmultiset_size_disj_union,
      gmultiset_size_singleton, IH. done.
Qed.

Lemma num_same_le_l (a b : list K) :
  (sum_values (Counter a ∩ Counter b) <= length a)%nat.
Proof.
  unfold sum_values. rewrite <- (size_Counter a).
  apply gmultiset_subseteq_size. multiset_solver.
Qed.

Lemma num_same_le_r (a b : list K) :
  (sum_values (Counter a ∩ Counter b) <= length b)%nat.
Proof.
  unfold sum_values. rewrite <- (size_Counter b).
  apply gmultiset_subseteq_size. multiset_solver.
Qed.

Lemma inject_nat_pos (n : nat) : (0 < n)%nat -> 0 < inject_Z (Z.of_nat n).
Proof. intros Hn. rewrite <- (Zlt_Qlt 0). lia. Qed.

(** The three divisions that compute F1 from a positive number of matches
    all have a non-zero divisor. *)
Lemma f1_divisions (k n m : nat) :
  (0 < k)%nat -> (k <= n)%nat -> (k <= m)%nat ->
  (precision ← py_div (1 * inject_Z (Z.of_nat k)) (inject_Z (Z.of_nat n));
   recall ← py_div (1 * inject_Z (Z.of_nat k)) (inject_Z (Z.of_nat m));
   f1 ← py_div (2 * precision * recall) (precision + recall);
   Ok f1) =
  Ok (2 * (1 * inject_Z (Z.of_nat k) / inject_Z (Z.of_nat n))
        * (1 * inject_Z (Z.of_nat k) / inject_Z (Z.of_nat m))
      / (1 * inject_Z (Z.of_nat k) / inject_Z (Z.of_nat n)
         + 1 * inject_Z (Z.of_nat k) / inject_Z (Z.of_nat m))).
Proof.
  intros Hk Hn Hm.
  pose proof (inject_nat_pos k Hk) as Pk.
  pose proof (inject_nat_pos n ltac:(lia)) as Pn.
  pose proof (inject_nat_pos m ltac:(lia)) as Pm.
  rewrite (py_div_nonzero _ (inject_Z (Z.of_nat n))) by lra.
  cbn [mbind res_bind].
  rewrite (py_div_nonzero _ (inject_Z (Z.of_nat m))) by lra.
  cbn [mbind res_bind].
  rewrite py_div_nonzero; [done|].
  assert (0 < 1 * inject_Z (Z.of_nat k) / inject_Z (Z.of_nat n)).
  { apply Qlt_shift_div_l; lra. }
  assert (0 < 1 * inject_Z (Z.of_nat k) / inject_Z (Z.of_nat m)).
  { apply Qlt_shift_div_l; lra. }
  lra.
Qed.

Lemma f1_score_value (a b : list K) :
  f1_score a b =
    let k := sum_values (Counter a ∩ Counter b) in
    if (k =? 0)%nat then Ok 0
    else Ok (2 * (1 * inject_Z (Z.of_nat k) / len a)
               * (1 * inject_Z (Z.of_nat k) / len b)
             / (1 * inject_Z (Z.of_nat k) / len a
                + 1 * inject_Z (Z.of_nat k) / len b)).
Proof.
  unfold f1_score. cbv zeta.
  destruct (Nat.eqb_spec (sum_values (Counter a ∩ Counter b)) 0); [done|].
  unfold len. apply f1_divisions;
    [lia | apply num_same_le_l | apply num_same_le_r].
Qed.

Lemma f1_score_returns (a b : list K) : exists v, f1_score a b = Ok v.
Proof.
  rewrite f1_score_value. cbv zeta. destruct (_ =? _)%nat; eauto.
Qed.

(** C9. [f1_score] returns a number for every pair of token lists, so no
    division by zero is reached; when either list is empty the multiset
    intersection is empty and the result is 0. *)
Theorem f1_score_total (a b : list K) :
  (exists v, f1_score a b = Ok v) /\
  sum_values (Counter [] ∩ Counter b) = 0%nat /\
  sum_values (Counter a ∩ Counter []) = 0%nat /\
  f1_score [] b = Ok 0 /\ f1_score a [] = Ok 0.
Proof.
  assert (E1 : sum_values (Counter [] ∩ Counter b) = 0%nat).
  { pose proof (num_same_le_l [] b). simpl in *. lia. }
  assert (E2 : sum_values (Counter a ∩ Counter []) = 0%nat).
  { pose proof (num_same_le_r a []). simpl in *. lia. }
  split; [|split; [done|split; [done|split]]].
  - apply f1_score_returns.
  - rewrite f1_score_value. cbv zeta. by rewrite E1.
  - rewrite f1_score_value. cbv zeta. by rewrite E2.
Qed.

End TokenF1Facts.

(** ** The text variant *)

Section TextMetricsFacts.
Local Open Scope Q_scope.

Lemma existsb_no_answer (gts : list string) :
  existsb (fun gt => bool_decide (gt = NO_ANSWER)) gts = true <->
  NO_ANSWER ∈ gts.
Proof.
  rewrite existsb_exists. split.
  - intros (x & Hin & Hx). apply bool_decide_eq_true in Hx. subst.
    by apply list_elem_of_In.
  - intros Hin. exists NO_ANSWER. split; [by apply list_elem_of_In|].
    by apply bool_decide_eq_true.
Qed.

(** The text variant returns a pair for every input. *)
Lemma sqa_s_metrics_returns (p : string) (gts : list string) :
  exists r, sqa_s_metrics p gts = Ok r.
Proof.
  unfold sqa_s_metrics. destruct (bool_decide (p = NO_ANSWER)).
  { destruct (existsb _ gts); eauto. }
  destruct (filter _ gts) as [|g gs] eqn:E; cbn [py_not]; [eauto|].
  destruct (mapM_returns
              (fun gt => f1_score (split (normalize_squad p)) (split gt))
              (map normalize_squad (g :: gs))) as (vs & -> & L).
  { intros gt. apply f1_score_returns. }
  cbn [mbind res_bind].
  destruct (py_max_returns vs) as (v & ->); [|cbn; eauto].
  intros ->. done.
Qed.

(** C5. With the sentinel as prediction the result is [(1, 1)] when some
    ground truth is the sentinel and [(0, 0)] otherwise; with any other
    prediction and only sentinel ground truths the result is [(0, 0)]; all
    of these are returned values, not exceptions. *)
Theorem sqa_s_metrics_no_answer (gts : list string) :
  (NO_ANSWER ∈ gts -> sqa_s_metrics NO_ANSWER gts = Ok (1, 1)) /\
  (NO_ANSWER ∉ gts -> sqa_s_metrics NO_ANSWER gts = Ok (0, 0)) /\
  (forall p, p <> NO_ANSWER -> Forall (fun gt => gt = NO_ANSWER) gts ->
     sqa_s_metrics p gts = Ok (0, 0)).
Proof.
  split; [|split].
  - intros Hin. unfold sqa_s_metrics. rewrite bool_decide_eq_true_2 by done.
    apply existsb_no_answer in Hin. by rewrite Hin.
  - intros Hnin. unfold sqa_s_metrics. rewrite bool_decide_eq_true_2 by done.
    destruct (existsb _ gts) eqn:E; [|done].
    apply existsb_no_answer in E. contradiction.
  - intros p Hp Hall. unfold sqa_s_metrics.
    rewrite bool_decide_eq_false_2 by done.
    assert (filter (fun gt => gt <> NO_ANSWER) gts = []) as ->; [|done].
    induction Hall as [|gt gts' Hgt _ IH]; [done|].
    rewrite filter_cons_False by (intros N; by apply N). done.
Qed.

Lemma sqa_s_metrics_no_answer_witness :
  sqa_s_metrics NO_ANSWER ["paris"; "<no answer>"] = Ok (1, 1) /\
  sqa_s_metrics NO_ANSWER ["paris"] = Ok (0, 0) /\
  sqa_s_metrics "paris" ["<no answer>"; "<no answer>"] = Ok (0, 0).
Proof.
  split; [|split].
  - destruct (sqa_s_metrics_no_answer ["paris"; "<no answer>"]) as (H1 & _).
    apply H1. apply list_elem_of_In. simpl. auto.
  - destruct (sqa_s_metrics_no_answer ["paris"]) as (_ & H2 & _).
    apply H2. intros Hin. apply list_elem_of_In in Hin. simpl in Hin.
    destruct Hin as [E|[]]. discriminate E.
  - destruct (sqa_s_metrics_no_answer ["<no answer>"; "<no answer>"])
      as (_ & _ & H3).
    apply H3; [discriminate | repeat constructor].
Defined.

Lemma filter_idemp {A} (P : A -> Prop) `{forall x, Decision (P x)}
    (l : list A) : filter P (filter P l) = filter P l.
Proof.
  induction l as [|x l IH]; [done|].
  destruct (decide (P x)).
  - rewrite !filter_cons_True by done. by rewrite IH.
  - by rewrite filter_cons_False.
Qed.

End TextMetricsFacts.

(** ** Matrices and assignments *)

Section AssignmentFacts.
Local Open Scope Q_scope.

Lemma cost_matrix_value {A B} (prediction : list A) (ground_truth : list B)
    (score_func : A -> B -> res Q) (f : A -> B -> Q) (threshold : Q) :
  (forall x y, score_func x y = Ok (f x y)) ->
  mapM (fun element1 =>
     mapM (fun element2 =>
       score ← score_func element1 element2;
       Ok (if Qle_bool threshold score then score else 0))
       ground_truth) prediction
  = Ok (score_matrix prediction ground_truth f threshold).
Proof.
  intros Hf. unfold score_matrix.
  rewrite <- (mapM_Ok (fun x => map _ ground_truth)).
  apply mapM_res_ext. intros x.
  rewrite <- (mapM_Ok (fun y => if Qle_bool threshold (f x y) then _ else _)).
  apply mapM_res_ext. intros y.
  by rewrite Hf.
Qed.

Lemma shape_score_matrix {A B} (p : list A) (g : list B) f t :
  shape (score_matrix p g f t) (length p) (length g).
Proof.
  split; unfold score_matrix.
  - by rewrite length_map.
  - apply Forall_forall. intros row Hin.
    apply in_map_iff in Hin as (x & <- & _). by rewrite length_map.
Qed.

Lemma shape_mat_neg (c : matrix) n m : shape c n m -> shape (mat_neg c) n m.
Proof.
  intros [Hn Hm]. split; unfold mat_neg.
  - by rewrite length_map.
  - apply Forall_forall. intros row Hin.
    apply in_map_iff in Hin as (r & <- & Hr). rewrite length_map.
    rewrite Forall_forall in Hm. by apply Hm.
Qed.

Lemma mat_at_in_range (c : matrix) n m i j :
  shape c n m -> (i < n)%nat -> (j < m)%nat ->
  mat_at c i j = Ok (mat_get c i j).
Proof.
  intros [Hn Hm] Hi Hj. unfold mat_at, mat_get.
  destruct (lookup_lt_is_Some_2 c i) as [row Hrow]; [lia|].
  rewrite Hrow. cbn.
  assert (length row = m) as L.
  { rewrite Forall_forall in Hm. apply Hm. apply list_elem_of_In.
    by eapply list_elem_of_lookup_2. }
  destruct (lookup_lt_is_Some_2 row j) as [v Hv]; [lia|].
  by rewrite Hv.
Qed.

Lemma mat_get_neg (c : matrix) i j :
  mat_get (mat_neg c) i j == - mat_get c i j.
Proof.
  unfold mat_get, mat_neg.
  rewrite list_lookup_fmap.
  destruct (c !! i) as [row|]; cbn; [|reflexivity].
  rewrite list_lookup_fmap.
  destruct (row !! j); cbn; reflexivity.
Qed.

Lemma total_cons (c : matrix) (p : nat * nat) (a : assignment) :
  total c (p :: a) = mat_get c p.1 p.2 + total c a.
Proof. reflexivity. Qed.

Lemma total_neg (c : matrix) (a : assignment) :
  total (mat_neg c) a == - total c a.
Proof.
  induction a as [|p a IH]; [reflexivity|].
  rewrite !total_cons, IH, mat_get_neg. ring.
Qed.

Lemma total_app (c : matrix) (a b : assignment) :
  total c (a ++ b) == total c a + total c b.
Proof.
  induction a as [|p a IH].
  - change (total c b == 0 + total c b). ring.
  - change (total c (p :: (a ++ b)) == total c (p :: a) + total c b).
    rewrite !total_cons, IH. ring.
Qed.

Lemma total_nonneg (c : matrix) (a : assignment) :
  (forall i j, 0 <= mat_get c i j) -> 0 <= total c a.
Proof.
  intros Hc. induction a as [|p a IH].
  - change (0 <= 0). lra.
  - rewrite total_cons. specialize (Hc p.1 p.2). lra.
Qed.

Lemma selected_costs_value (c : matrix) n m (a : assignment) :
  shape c n m -> one_to_one n m a ->
  mapM (fun '(i, j) => mat_at c i j) a
  = Ok (map (fun p => mat_get c p.1 p.2) a).
Proof.
  intros Hs (_ & _ & Hr). apply mapM_Ok_on.
  eapply Forall_impl; [|exact Hr]. intros [i j] [Hi Hj]. cbn in *.
  by eapply mat_at_in_range.
Qed.

Lemma count_matches_filter (t : Q) (c : matrix) (a : assignment) :
  length (filter (fun v => Qle_bool t v = true)
                 (map (fun p => mat_get c p.1 p.2) a))
  = count_matches t c a.
Proof.
  unfold count_matches. induction a as [|p a IH]; [done|]. cbn [map].
  destruct (decide (Qle_bool t (mat_get c p.1 p.2) = true)).
  - rewrite !filter_cons_True by done. cbn. by rewrite IH.
  - rewrite !filter_cons_False by done. done.
Qed.

Lemma count_matches_le (t : Q) (c : matrix) (a : assignment) :
  (count_matches t c a <= length a)%nat.
Proof. unfold count_matches. apply length_filter. Qed.

(** A row that an assignment shorter than [n] leaves free. *)
Lemma free_index (l : list nat) (n : nat) :
  (length l < n)%nat -> exists i, (i < n)%nat /\ i ∉ l.
Proof.
  intros Hlt.
  destruct (decide (Forall (fun i => i ∈ l) (seq 0 n))) as [F|NF].
  - exfalso.
    assert (seq 0 n ⊆+ l) as Hsub.
    { apply NoDup_submseteq; [apply NoDup_seq|].
      intros i Hi. rewrite Forall_forall in F.
      apply F. by apply list_elem_of_In. }
    apply submseteq_length in Hsub. rewrite length_seq in Hsub. lia.
  - apply not_Forall_Exists in NF; [|apply _].
    apply Exists_exists in NF as (i & Hi & Hni).
    exists i. split; [|done]. apply in_seq in Hi. lia.
Qed.

(** Every one-to-one assignment extends to a complete one. *)
Lemma one_to_one_extend (n m k : nat) (a : assignment) :
  one_to_one n m a -> (length a + k = Nat.min n m)%nat ->
  exists ext, complete n m (ext ++ a).
Proof.
  revert a. induction k as [|k IH]; intros a Ha Hlen.
  - exists []. split; [done|]. cbn. lia.
  - destruct Ha as (Hr & Hc & Hb).
    destruct (free_index a.*1 n) as (i & Hi & Hni);
      [rewrite length_fmap; lia|].
    destruct (free_index a.*2 m) as (j & Hj & Hnj);
      [rewrite length_fmap; lia|].
    destruct (IH ((i, j) :: a)) as [ext Hext].
    + split; [|split].
      * cbn. by apply list.NoDup_cons.
      * cbn. by apply list.NoDup_cons.
      * by apply list.Forall_cons.
    + cbn. lia.
    + exists (ext ++ [(i, j)]). by rewrite <- app_assoc.
Qed.

Lemma one_to_one_length (n m : nat) (a : assignment) :
  one_to_one n m a -> (length a <= Nat.min n m)%nat.
Proof.
  intros (Hr & Hc & Hb).
  assert (a.*1 ⊆+ seq 0 n) as H1.
  { apply NoDup_submseteq; [done|]. intros i Hi.
    apply list_elem_of_fmap in Hi as (p & -> & Hp).
    rewrite Forall_forall in Hb. apply elem_of_seq.
    apply list_elem_of_In in Hp. specialize (Hb p Hp). lia. }
  assert (a.*2 ⊆+ seq 0 m) as H2.
  { apply NoDup_submseteq; [done|]. intros i Hi.
    apply list_elem_of_fmap in Hi as (p & -> & Hp).
    rewrite Forall_forall in Hb. apply elem_of_seq.
    apply list_elem_of_In in Hp. specialize (Hb p Hp). lia. }
  apply submseteq_length in H1, H2.
  rewrite length_fmap, length_seq in H1, H2. lia.
Qed.

(** With no negative entry, a complete assignment of greatest total among
    the complete ones has the greatest total among all one-to-one
    assignments. *)
Lemma complete_optimum_is_global (c : matrix) (n m : nat) (a : assignment) :
  (forall i j, 0 <= mat_get c i j) ->
  (forall a', complete n m a' -> total c a' <= total c a) ->
  forall a', one_to_one n m a' -> total c a' <= total c a.
Proof.
  intros Hc Hopt a' Ha'.
  pose proof (one_to_one_length n m a' Ha') as Hlen.
  destruct (one_to_one_extend n m (Nat.min n m - length a') a' Ha')
    as [ext Hext]; [lia|].
  specialize (Hopt _ Hext). rewrite total_app in Hopt.
  pose proof (total_nonneg c ext Hc). lra.
Qed.

End AssignmentFacts.

(** ** The assignment scorer *)

Section ScorerFacts.
Local Open Scope Q_scope.

Variable lsa : matrix -> list nat * list nat.
Hypothesis lsa_ok : lsa_contract lsa.

(** The assignment the solver returns for the score matrix. *)
Lemma solver_assignment {A B} (prediction : list A) (ground_truth : list B)
    (f : A -> B -> Q) (threshold : Q) :
  prediction <> [] -> ground_truth <> [] ->
  let c := score_matrix prediction ground_truth f threshold in
  let a := zip (lsa (mat_neg c)).1 (lsa (mat_neg c)).2 in
  length (lsa (mat_neg c)).1 = length (lsa (mat_neg c)).2 /\
  complete (length prediction) (length ground_truth) a /\
  (forall a', complete (length prediction) (length ground_truth) a' ->
     total c a' <= total c a).
Proof.
  intros Hp Hg c a.
  destruct (lsa_ok (mat_neg c) (length prediction) (length ground_truth))
    as (Hl & Hc & Hopt).
  - apply shape_mat_neg, shape_score_matrix.
  - destruct prediction; [done|simpl; lia].
  - destruct ground_truth; [done|simpl; lia].
  - split; [done|]. split; [done|].
    intros a' Ha'. specialize (Hopt a' Ha'). rewrite !total_neg in Hopt.
    fold a in Hopt. lra.
Qed.

(** What [uic_bb_f1_score] returns on two non-empty lists. *)
Lemma uic_bb_f1_score_value {A B} (prediction : list A)
    (ground_truth : list B) (score_func : A -> B -> res Q)
    (f : A -> B -> Q) (threshold : Q) :
  prediction <> [] -> ground_truth <> [] ->
  (forall x y, score_func x y = Ok (f x y)) ->
  let c := score_matrix prediction ground_truth f threshold in
  let a := zip (lsa (mat_neg c)).1 (lsa (mat_neg c)).2 in
  let k := count_matches threshold c a in
  uic_bb_f1_score lsa prediction ground_truth score_func threshold =
    if (k =? 0)%nat then Ok 0
    else Ok (2 * (1 * inject_Z (Z.of_nat k) / len prediction)
               * (1 * inject_Z (Z.of_nat k) / len ground_truth)
             / (1 * inject_Z (Z.of_nat k) / len prediction
                + 1 * inject_Z (Z.of_nat k) / len ground_truth)).
Proof.
  intros Hp Hg Hf. cbv zeta.
  pose proof (solver_assignment prediction ground_truth f threshold Hp Hg)
    as S. cbv zeta in S. destruct S as (Hl & [Ha Hlen] & _).
  set (c := score_matrix prediction ground_truth f threshold) in *.
  unfold uic_bb_f1_score.
  assert (py_not prediction = false) as -> by (by destruct prediction).
  assert (py_not ground_truth = false) as -> by (by destruct ground_truth).
  cbn [andb orb].
  rewrite (cost_matrix_value _ _ _ f) by done. cbn [mbind res_bind].
  fold c. destruct (lsa (mat_neg c)) as [idxs1 idxs2] eqn:E.
  cbn [fst snd] in *.
  rewrite Hl, Nat.eqb_refl. cbn [negb].
  rewrite (selected_costs_value c _ _ _ (shape_score_matrix _ _ _ _) Ha).
  cbn [mbind res_bind].
  rewrite count_matches_filter.
  set (k := count_matches threshold c (zip idxs1 idxs2)).
  destruct (Nat.eqb_spec k 0); [done|].
  pose proof (count_matches_le threshold c (zip idxs1 idxs2)) as Hk.
  fold k in Hk. unfold len. apply f1_divisions; lia.
Qed.

Lemma f1_of_matches_eq (k n m : nat) :
  (if (k =? 0)%nat then 0
   else 2 * (1 * inject_Z (Z.of_nat k) / inject_Z (Z.of_nat n))
          * (1 * inject_Z (Z.of_nat k) / inject_Z (Z.of_nat m))
        / (1 * inject_Z (Z.of_nat k) / inject_Z (Z.of_nat n)
           + 1 * inject_Z (Z.of_nat k) / inject_Z (Z.of_nat m)))
  == f1_of_matches k n m.
Proof.
  unfold f1_of_matches. destruct (k =? 0)%nat; [reflexivity|].
  cbv zeta. rewrite !Qmult_1_l. reflexivity.
Qed.

End ScorerFacts.

(** ** The reference solver meets the contract *)

Section ReferenceSolver.
Local Open Scope Q_scope.

Lemma matchings_sound (k : nat) (rows cols : list nat) (a : assignment) :
  a ∈ matchings k rows cols ->
  length a = k /\ NoDup a.*1 /\ NoDup a.*2 /\
  Forall (fun p => p.1 ∈ rows /\ p.2 ∈ cols) a.
Proof.
  revert rows cols a. induction k as [|k IH]; intros rows cols a Ha.
  - cbn in Ha. apply list_elem_of_singleton in Ha as ->.
    repeat split; constructor.
  - cbn [matchings] in Ha.
    apply list_elem_of_bind in Ha as (i & Ha & Hi).
    apply list_elem_of_bind in Ha as (j & Ha & Hj).
    apply list_elem_of_fmap in Ha as (a' & -> & Ha').
    destruct (IH _ _ _ Ha') as (Hlen & Hr & Hc & Hin).
    rewrite List.Forall_forall in Hin.
    split; [cbn; lia|]. split; [|split].
    + cbn. apply list.NoDup_cons. split; [|done].
      intros Hm. apply list_elem_of_fmap in Hm as (p & -> & Hp).
      apply list_elem_of_In in Hp. destruct (Hin p Hp) as [H1 _].
      apply list_elem_of_filter in H1 as [H1 _]. done.
    + cbn. apply list.NoDup_cons. split; [|done].
      intros Hm. apply list_elem_of_fmap in Hm as (p & -> & Hp).
      apply list_elem_of_In in Hp. destruct (Hin p Hp) as [_ H2].
      apply list_elem_of_filter in H2 as [H2 _]. done.
    + apply list.Forall_cons. split; [done|].
      apply List.Forall_forall. intros p Hp. destruct (Hin p Hp) as [H1 H2].
      apply list_elem_of_filter in H1 as [_ H1].
      apply list_elem_of_filter in H2 as [_ H2]. done.
Qed.

Lemma matchings_complete (rows cols : list nat) (a : assignment) :
  NoDup a.*1 -> NoDup a.*2 ->
  Forall (fun p => p.1 ∈ rows /\ p.2 ∈ cols) a ->
  a ∈ matchings (length a) rows cols.
Proof.
  revert rows cols. induction a as [|[i j] a IH]; intros rows cols Hr Hc Hin.
  - cbn. apply list_elem_of_singleton. done.
  - cbn [length matchings].
    cbn in Hr, Hc. apply list.NoDup_cons in Hr as [Hi Hr].
    apply list.NoDup_cons in Hc as [Hj Hc].
    apply list.Forall_cons in Hin as [[Hi' Hj'] Hin]. cbn in Hi', Hj'.
    apply list_elem_of_bind. exists i. split; [|done].
    apply list_elem_of_bind. exists j. split; [|done].
    apply list_elem_of_fmap. exists a. split; [done|].
    apply IH; [done|done|].
    rewrite List.Forall_forall in Hin. apply List.Forall_forall.
    intros p Hp. destruct (Hin p Hp) as [H1 H2].
    apply list_elem_of_In in Hp.
    split; apply list_elem_of_filter; (split; [|done]).
    + intros E. apply Hi. apply list_elem_of_fmap. by exists p.
    + intros E. apply Hj. apply list_elem_of_fmap. by exists p.
Qed.

Lemma argmin_spec {X} (cost : X -> Q) (xs : list X) :
  xs <> [] ->
  exists b, argmin cost xs = Some b /\ b ∈ xs /\
            forall x, x ∈ xs -> cost b <= cost x.
Proof.
  induction xs as [|x xs IH]; [done|]. intros _.
  destruct xs as [|y xs'].
  - exists x. cbn. split; [done|]. split; [left|].
    intros z Hz. apply list_elem_of_singleton in Hz as ->. lra.
  - destruct IH as (b & Eb & Hb & Hmin); [done|].
    cbn [argmin] in Eb |- *. rewrite Eb.
    destruct (Qle_bool (cost x) (cost b)) eqn:E.
    + apply Qle_bool_iff in E. exists x. split; [done|]. split; [left|].
      intros z Hz. apply elem_of_cons in Hz as [->|Hz]; [lra|].
      specialize (Hmin z Hz). lra.
    + assert (cost b < cost x) as Hlt.
      { apply Qnot_le_lt. intros Hle. apply Qle_bool_iff in Hle. congruence. }
      exists b. split; [done|]. split; [by right|].
      intros z Hz. apply elem_of_cons in Hz as [->|Hz]; [lra|].
      by apply Hmin.
Qed.

Lemma complete_in_matchings (n m : nat) (a : assignment) :
  complete n m a -> a ∈ matchings (Nat.min n m) (seq 0 n) (seq 0 m).
Proof.
  intros [(Hr & Hc & Hb) Hlen]. rewrite <- Hlen.
  apply matchings_complete; [done|done|].
  eapply Forall_impl; [|exact Hb]. intros p [H1 H2].
  split; apply elem_of_seq; lia.
Qed.

Lemma matchings_are_complete (n m : nat) (a : assignment) :
  a ∈ matchings (Nat.min n m) (seq 0 n) (seq 0 m) -> complete n m a.
Proof.
  intros Ha. destruct (matchings_sound _ _ _ _ Ha) as (Hlen & Hr & Hc & Hin).
  split; [|done]. split; [done|]. split; [done|].
  eapply Forall_impl; [|exact Hin]. intros p [H1 H2].
  apply elem_of_seq in H1, H2. lia.
Qed.

(** The exhaustive search is a solver in the sense of the contract. *)
Lemma lsa_brute_contract : lsa_contract lsa_brute.
Proof.
  intros c n m [Hn Hm] Pn Pm. unfold lsa_brute.
  assert (length (default [] (head c)) = m) as ->.
  { destruct c as [|row c]; [simpl in Hn; lia|].
    cbn. by apply list.Forall_cons in Hm as [? _]. }
  rewrite Hn.
  destruct (one_to_one_extend n m (Nat.min n m) []) as [ext Hext].
  { repeat split; constructor. }
  { done. }
  rewrite app_nil_r in Hext.
  destruct (argmin_spec (total c) (matchings (Nat.min n m) (seq 0 n) (seq 0 m)))
    as (b & Eb & Hb & Hmin).
  { intros E. pose proof (complete_in_matchings n m ext Hext) as Hin.
    rewrite E in Hin. by apply not_elem_of_nil in Hin. }
  rewrite Eb. cbn [default fst snd].
  rewrite zip_fst_snd. split; [by rewrite !length_fmap|].
  split; [by apply matchings_are_complete|].
  intros a Ha. apply Hmin. by apply complete_in_matchings.
Qed.

End ReferenceSolver.

Section ScorerClaims.
Local Open Scope Q_scope.

Variable lsa : matrix -> list nat * list nat.
Hypothesis lsa_ok : lsa_contract lsa.

Lemma score_matrix_entry {A B} (p : list A) (g : list B) f t i j :
  mat_get (score_matrix p g f t) i j =
    match p !! i, g !! j with
    | Some x, Some y => if Qle_bool t (f x y) then f x y else 0
    | _, _ => 0
    end.
Proof.
  unfold mat_get, score_matrix.
  change (map ?h p) with (h <$> p). rewrite list_lookup_fmap.
  destruct (p !! i) as [x|]; cbn; [|done].
  change (map ?h g) with (h <$> g). rewrite list_lookup_fmap.
  destruct (g !! j) as [y|]; cbn; done.
Qed.

Lemma score_matrix_nonneg {A B} (p : list A) (g : list B) f t :
  (0 <= t \/ forall x y, 0 <= f x y) ->
  forall i j, 0 <= mat_get (score_matrix p g f t) i j.
Proof.
  intros Hnn i j. rewrite score_matrix_entry.
  destruct (p !! i) as [x|]; [|lra]. destruct (g !! j) as [y|]; [|lra].
  destruct (Qle_bool t (f x y)) eqn:E; [|lra].
  apply Qle_bool_iff in E. destruct Hnn as [Ht|Hf]; [lra|apply Hf].
Qed.

(** C4. Two empty lists score 1; an empty list against a non-empty one
    scores 0, whichever side is empty. *)
Theorem uic_bb_f1_score_empty {A B} (score_func : A -> B -> res Q)
    (threshold : Q) (la : list A) (lb : list B) :
  la <> [] -> lb <> [] ->
  uic_bb_f1_score lsa [] [] score_func threshold = Ok 1 /\
  uic_bb_f1_score lsa [] lb score_func threshold = Ok 0 /\
  uic_bb_f1_score lsa la [] score_func threshold = Ok 0.
Proof.
  intros Ha Hb. split; [done|].
  destruct la; [done|]. destruct lb; [done|]. done.
Qed.

(** C2 (amended). On two non-empty lists the scorer returns [2PR/(P+R)]
    (0 when there is no match) for the number of threshold-passing pairs of
    the solver's assignment.  That assignment is one-to-one, pairs every
    element of the shorter list, and has the greatest total of thresholded
    scores among all such assignments; when the threshold or the score
    function is non-negative it has the greatest total among all partial
    one-to-one assignments too. *)
Theorem uic_bb_f1_score_optimal {A B} (prediction : list A)
    (ground_truth : list B) (f : A -> B -> Q) (threshold : Q) :
  prediction <> [] -> ground_truth <> [] ->
  let n := length prediction in
  let m := length ground_truth in
  let c := score_matrix prediction ground_truth f threshold in
  exists a,
    complete n m a /\
    (forall a', complete n m a' -> total c a' <= total c a) /\
    ((0 <= threshold \/ forall x y, 0 <= f x y) ->
     forall a', one_to_one n m a' -> total c a' <= total c a) /\
    returns (uic_bb_f1_score lsa prediction ground_truth
               (fun x y => Ok (f x y)) threshold)
            (f1_of_matches (count_matches threshold c a) n m).
Proof.
  intros Hp Hg n m c.
  destruct (solver_assignment lsa lsa_ok prediction ground_truth f threshold
              Hp Hg) as (_ & Hc & Hopt).
  fold c in Hc, Hopt.
  exists (zip (lsa (mat_neg c)).1 (lsa (mat_neg c)).2).
  split; [done|]. split; [done|]. split.
  - intros Hnn. apply (complete_optimum_is_global c n m); [|done].
    by apply score_matrix_nonneg.
  - rewrite (uic_bb_f1_score_value lsa lsa_ok _ _ _ f) by done.
    cbv zeta. fold c.
    set (k := count_matches threshold c _).
    pose proof (f1_of_matches_eq k n m) as E. unfold len. fold n m.
    destruct (k =? 0)%nat; eexists; (split; [reflexivity|exact E]).
Qed.

End ScorerClaims.

Section ScorerExamples.
Local Open Scope Q_scope.

Lemma uic_bb_f1_score_empty_witness :
  uic_bb_f1_score lsa_brute [] [] (fun _ _ : unit => Ok 1) (1 # 2) = Ok 1 /\
  uic_bb_f1_score lsa_brute [] [tt] (fun _ _ : unit => Ok 1) (1 # 2) = Ok 0 /\
  uic_bb_f1_score lsa_brute [tt; tt] [] (fun _ _ : unit => Ok 1) (1 # 2)
    = Ok 0.
Proof.
  apply (uic_bb_f1_score_empty lsa_brute (fun _ _ : unit => Ok 1) (1 # 2)
           [tt; tt] [tt]); discriminate.
Defined.

Lemma uic_bb_f1_score_optimal_witness :
  exists a,
    complete 2 2 a /\
    (forall a', complete 2 2 a' ->
       total (score_matrix [0; 1]%nat [0; 1]%nat greedy_trap (1 # 2)) a'
       <= total (score_matrix [0; 1]%nat [0; 1]%nat greedy_trap (1 # 2)) a) /\
    ((0 <= 1 # 2 \/ forall x y, 0 <= greedy_trap x y) ->
     forall a', one_to_one 2 2 a' ->
       total (score_matrix [0; 1]%nat [0; 1]%nat greedy_trap (1 # 2)) a'
       <= total (score_matrix [0; 1]%nat [0; 1]%nat greedy_trap (1 # 2)) a) /\
    returns (uic_bb_f1_score lsa_brute [0; 1]%nat [0; 1]%nat
               (fun x y => Ok (greedy_trap x y)) (1 # 2))
            (f1_of_matches
               (count_matches (1 # 2)
                  (score_matrix [0; 1]%nat [0; 1]%nat greedy_trap (1 # 2)) a) 2 2).
Proof.
  apply (uic_bb_f1_score_optimal lsa_brute lsa_brute_contract
           [0; 1]%nat [0; 1]%nat greedy_trap (1 # 2)); discriminate.
Defined.

End ScorerExamples.

Section ScorerCounterexample.
Local Open Scope Q_scope.

(** On the greedy trap the scorer matches both elements. *)
Example uic_bb_f1_score_greedy_trap :
  returns (uic_bb_f1_score lsa_brute [0; 1]%nat [0; 1]%nat
             (fun x y => Ok (greedy_trap x y)) (1 # 2)) 1.
Proof. eexists. split; [vm_compute; reflexivity|reflexivity]. Qed.

(** With one element on each side, score [-1/2] and threshold [-1], the
    scorer pairs the two elements and returns 1, while the only assignment
    of greatest total among all partial one-to-one assignments is the empty
    one, for which the F1 of the matches is 0. *)
Lemma negative_score_instance :
  let f := fun _ _ : unit => - (1 # 2) in
  let c := score_matrix [tt] [tt] f (-1) in
  returns (uic_bb_f1_score lsa_brute [tt] [tt] (fun x y => Ok (f x y)) (-1)) 1
  /\ (one_to_one 1 1 [] /\
      forall a', one_to_one 1 1 a' -> total c a' <= total c [])
  /\ (forall a, one_to_one 1 1 a ->
        (forall a', one_to_one 1 1 a' -> total c a' <= total c a) ->
        f1_of_matches (count_matches (-1) c a) 1 1 == 0)
  /\ ~ (1 == 0).
Proof.
  intros f c.
  assert (Hcases : forall a, one_to_one 1 1 a -> a = [] \/ a = [(0, 0)%nat]).
  { intros a Ha. pose proof (one_to_one_length 1 1 a Ha) as Hlen.
    destruct Ha as (_ & _ & Hb).
    destruct a as [|[i j] [|q a]]; [by left| |simpl in Hlen; lia].
    right. apply list.Forall_cons in Hb as [[Hi Hj] _]. cbn in Hi, Hj.
    f_equal. f_equal; lia. }
  split; [eexists; split; [vm_compute; reflexivity|reflexivity]|].
  split; [|split].
  - split; [repeat split; constructor|].
    intros a' Ha'. destruct (Hcases a' Ha') as [->| ->]; vm_compute; discriminate.
  - intros a Ha Hopt. destruct (Hcases a Ha) as [->| ->]; [reflexivity|].
    exfalso. specialize (Hopt []).
    assert (one_to_one 1 1 []) as H0 by (repeat split; constructor).
    specialize (Hopt H0). vm_compute in Hopt. by apply Hopt.
  - discriminate.
Qed.

(** C2 as stated fails for a negative threshold and a negative score: on
    the instance above the value returned is not the F1 of the matches of
    any partial one-to-one assignment of greatest total. *)
Lemma uic_bb_f1_score_partial_optimum_fails :
  ~ partial_optimum_f1 lsa_brute [tt] [tt] (fun _ _ => - (1 # 2)) (-1).
Proof.
  destruct negative_score_instance as ((v & Hv & Ev) & _ & Hzero & _).
  intros (a & Ha & Hopt & (w & Hw & Ew)). cbv zeta in *.
  rewrite Hv in Hw. injection Hw as <-.
  specialize (Hzero a Ha Hopt). cbn [length] in Ew.
  rewrite Hzero in Ew. rewrite Ev in Ew. discriminate Ew.
Qed.

End ScorerCounterexample.

(** ** The boxed-element variant *)

Section BoxedElements.
Local Open Scope Q_scope.
Context {C : Type} `{EqDecision C}.

Lemma iou_Ok (a b : bbox) : iou a b = Ok (iou_value a b).
Proof.
  unfold iou_value. destruct (iou_total a b) as (v & -> & _). done.
Qed.

Lemma ui_elements_match_spec (e1 e2 : bbox * C) (t : Q) :
  exists b, ui_elements_match e1 e2 t = Ok b /\
            (b = true <-> elements_match_at t e1 e2).
Proof.
  destruct e1 as [b1 c1], e2 as [b2 c2]. unfold ui_elements_match.
  unfold elements_match_at. cbn [fst snd].
  destruct (bool_decide_reflect (c1 = c2)) as [E|N].
  - rewrite iou_Ok. cbn [mbind res_bind]. eexists. split; [done|].
    rewrite Qle_bool_iff. split.
    + intros Hle. split; [done|]. eauto.
    + intros (_ & v & Hv & Hle). injection Hv as <-. done.
  - exists false. split; [done|]. split; [done|]. intros [E _]. done.
Qed.

Lemma all_elements_match_spec (pairs : list ((bbox * C) * (bbox * C)))
    (t : Q) :
  exists b, all_elements_match pairs t = Ok b /\
            (b = true <->
             Forall (fun p => elements_match_at t p.1 p.2) pairs).
Proof.
  induction pairs as [|[e1 e2] pairs (b & IH & Hb)].
  - exists true. split; [done|]. split; [constructor|done].
  - destruct (ui_elements_match_spec e1 e2 t) as (b1 & E1 & H1).
    cbn [all_elements_match]. rewrite E1. cbn [mbind res_bind].
    destruct b1.
    + exists b. split; [done|]. rewrite Hb, list.Forall_cons. cbn [fst snd].
      split; [intros ?; split; [by apply H1|done] | by intros [_ ?]].
    + exists false. split; [done|]. split; [done|].
      intros HF. apply list.Forall_cons in HF as [HF _].
      apply H1 in HF. done.
Qed.

Lemma uic_bb_exact_match_spec (l1 l2 : list (bbox * C)) (t : Q) :
  exists b, uic_bb_exact_match l1 l2 t = Ok b /\
            (b = true <-> positional_match t l1 l2).
Proof.
  unfold uic_bb_exact_match, positional_match.
  destruct (Nat.eqb_spec (length l1) (length l2)) as [E|N]; cbn [negb].
  - destruct (all_elements_match_spec (zip l1 l2) t) as (b & Hb & Hiff).
    exists b. split; [done|]. rewrite Hiff. split; [done|by intros [_ ?]].
  - exists false. split; [done|]. split; [done|]. intros [E _]. lia.
Qed.

Lemma any_exact_match_spec (prediction : list (bbox * C))
    (gts : list (list (bbox * C))) :
  exists b, any_exact_match prediction gts = Ok b /\
            (b = true <->
             exists gt, gt ∈ gts /\
                        positional_match default_iou_threshold prediction gt).
Proof.
  induction gts as [|gt gts (b & IH & Hb)].
  - exists false. split; [done|]. split; [done|].
    intros (gt & Hin & _). by apply not_elem_of_nil in Hin.
  - destruct (uic_bb_exact_match_spec prediction gt default_iou_threshold)
      as (b1 & E1 & H1).
    cbn [any_exact_match]. rewrite E1. cbn [mbind res_bind].
    destruct b1.
    + exists true. split; [done|]. split; [|done]. intros _.
      exists gt. split; [left|]. by apply H1.
    + exists b. split; [done|]. rewrite Hb. split.
      * intros (g & Hin & Hg). exists g. split; [by right|done].
      * intros (g & Hin & Hg). apply elem_of_cons in Hin as [->|Hin].
        -- apply H1 in Hg. done.
        -- by exists g.
Qed.

Variable lsa : matrix -> list nat * list nat.
Hypothesis lsa_ok : lsa_contract lsa.

Lemma uic_bb_f1_score_returns {A B} (p : list A) (g : list B)
    (score_func : A -> B -> res Q) (f : A -> B -> Q) (t : Q) :
  (forall x y, score_func x y = Ok (f x y)) ->
  exists v, uic_bb_f1_score lsa p g score_func t = Ok v.
Proof.
  intros Hf. destruct p as [|x p]; [destruct g; by eexists|].
  destruct g as [|y g]; [by eexists|].
  rewrite (uic_bb_f1_score_value lsa lsa_ok _ _ _ f) by done.
  cbv zeta. destruct (_ =? _)%nat; by eexists.
Qed.

Lemma existsb_py_not {A} (gts : list (list A)) :
  existsb py_not gts = true <-> [] ∈ gts.
Proof.
  rewrite existsb_exists. split.
  - intros (g & Hin & Hg). destruct g; [|done]. by apply list_elem_of_In.
  - intros Hin. exists []. split; [by apply list_elem_of_In|done].
Qed.

(** On a non-empty prediction with a non-empty ground truth left by the
    filter, the variant returns, and its exact-match component is the
    result of the positional comparisons, whatever the threshold. *)
Lemma sqa_uic_bb_metrics_nonempty (prediction : list (bbox * C))
    (ground_truths : list (list (bbox * C))) (iou_threshold : Q) :
  prediction <> [] ->
  filter (fun gt => py_not gt = false) ground_truths <> [] ->
  exists bbox_f1 f1 b,
    any_exact_match prediction
      (filter (fun gt => py_not gt = false) ground_truths) = Ok b /\
    sqa_uic_bb_metrics lsa prediction ground_truths iou_threshold
    = Ok (bbox_f1, if b then 1 else 0, f1).
Proof.
  intros Hp Hg. unfold sqa_uic_bb_metrics.
  set (gts := filter (fun gt => py_not gt = false) ground_truths) in *.
  assert (py_not prediction = false) as -> by (by destruct prediction).
  assert (py_not gts = false) as -> by (by destruct gts).
  destruct (any_exact_match_spec prediction gts) as (b & Eb & _).
  destruct (mapM_returns (fun gt =>
              uic_bb_f1_score lsa (map fst prediction) (map fst gt) iou
                iou_threshold) gts) as (v1 & -> & L1).
  { intros gt. apply (uic_bb_f1_score_returns _ _ _ iou_value).
    intros; apply iou_Ok. }
  cbn [mbind res_bind].
  destruct (py_max_returns v1) as (m1 & ->).
  { intros ->. by destruct gts. }
  cbn [mbind res_bind]. rewrite Eb. cbn [mbind res_bind].
  destruct (mapM_returns (fun gt =>
              uic_bb_f1_score lsa prediction gt
                (fun x y => if bool_decide (x.2 = y.2)
                            then iou x.1 y.1 else Ok 0)
                iou_threshold) gts) as (v2 & -> & L2).
  { intros gt.
    apply (uic_bb_f1_score_returns _ _ _
             (fun x y => if bool_decide (x.2 = y.2)
                         then iou_value x.1 y.1 else 0)).
    intros x y. destruct (bool_decide _); [apply iou_Ok|done]. }
  cbn [mbind res_bind].
  destruct (py_max_returns v2) as (m2 & ->).
  { intros ->. by destruct gts. }
  cbn [mbind res_bind]. by exists m1, m2, b.
Qed.

(** The threshold of the call does not reach the exact-match component. *)
Lemma sqa_uic_bb_metrics_em_any_threshold (prediction : list (bbox * C))
    (ground_truths : list (list (bbox * C))) (t t' em : Q) :
  em_component (sqa_uic_bb_metrics lsa prediction ground_truths t) em ->
  em_component (sqa_uic_bb_metrics lsa prediction ground_truths t') em.
Proof.
  destruct prediction as [|e prediction]; [done|].
  destruct (filter (fun gt => py_not gt = false) ground_truths)
    as [|g gs] eqn:Eg.
  { unfold sqa_uic_bb_metrics. cbn [py_not]. rewrite Eg. done. }
  destruct (sqa_uic_bb_metrics_nonempty (e :: prediction) ground_truths t)
    as (b1 & f1 & b & Eb & ->); [done|by rewrite Eg|].
  destruct (sqa_uic_bb_metrics_nonempty (e :: prediction) ground_truths t')
    as (b1' & f1' & b' & Eb' & ->); [done|by rewrite Eg|].
  rewrite Eb in Eb'. injection Eb' as <-.
  intros (x & y & E). injection E as _ <- _. by do 2 eexists.
Qed.

(** In exact arithmetic, at the default threshold 0.1 the exact-match
    component is 1 exactly when either the prediction and some ground truth
    are both empty, or the prediction is non-empty and matches some
    non-empty ground truth of the same length position by position: equal
    contents and an IoU of at least the threshold. *)
Lemma sqa_uic_bb_metrics_em_exact (prediction : list (bbox * C))
    (ground_truths : list (list (bbox * C))) :
  exists em,
    em_component (sqa_uic_bb_metrics lsa prediction ground_truths
                    default_iou_threshold) em /\
    (em = 0 \/ em = 1) /\
    (em == 1 <->
     (prediction = [] /\ [] ∈ ground_truths) \/
     (prediction <> [] /\
      exists gt, gt ∈ ground_truths /\ gt <> [] /\
                 positional_match default_iou_threshold prediction gt)).
Proof.
  destruct prediction as [|e prediction].
  - unfold sqa_uic_bb_metrics, em_component. cbn [py_not].
    destruct (existsb py_not ground_truths) eqn:E.
    + exists 1. split; [by do 2 eexists|]. split; [by right|].
      split; [|reflexivity]. intros _. left. split; [done|].
      by apply existsb_py_not.
    + exists 0. split; [by do 2 eexists|]. split; [by left|].
      split; [discriminate|]. intros [[_ Hin]|[N _]]; [|done].
      apply existsb_py_not in Hin. congruence.
  - set (pred := e :: prediction).
    set (gts := filter (fun gt => py_not gt = false) ground_truths).
    assert (Hgts : forall gt, gt ∈ gts <-> gt ∈ ground_truths /\ gt <> []).
    { intros gt. unfold gts. rewrite list_elem_of_filter.
      destruct gt; cbn; split; intros [? ?]; split; done. }
    destruct (any_exact_match_spec pred gts) as (b & Eb & Hb).
    assert (Hiff : b = true <->
      exists gt, gt ∈ ground_truths /\ gt <> [] /\
                 positional_match default_iou_threshold pred gt).
    { rewrite Hb. split; intros (gt & Hin & Hm).
      - apply Hgts in Hin as [? ?]. by exists gt.
      - destruct Hm as [? ?]. exists gt. split; [by apply Hgts|done]. }
    destruct (decide (gts = [])) as [Eg|Ng].
    + exists 0. split.
      { unfold sqa_uic_bb_metrics, em_component. cbn [py_not].
        fold gts. rewrite Eg. by do 2 eexists. }
      split; [by left|]. split; [discriminate|].
      intros [[? _]|[_ Hex]]; [done|]. apply Hiff in Hex.
      rewrite Eg in Eb. cbn in Eb. congruence.
    + destruct (sqa_uic_bb_metrics_nonempty pred ground_truths
                  default_iou_threshold) as (b1 & f1 & b' & Eb' & Er);
        [done|done|].
      fold gts in Eb'. rewrite Eb in Eb'. injection Eb' as <-.
      exists (if b then 1 else 0). split; [by exists b1, f1|].
      split; [destruct b; auto|]. split.
      * intros E1. right. split; [done|]. apply Hiff.
        destruct b; [done|discriminate E1].
      * intros [[? _]|[_ Hex]]; [done|]. apply Hiff in Hex. subst b.
        reflexivity.
Qed.

(** X29. For boxes in pixel coordinates (on which binary64 computes the
    areas exactly, and a quotient of areas below 1/10 stays below the
    float 0.1), at the default threshold 0.1 the exact-match component is
    1 exactly when either the prediction and some ground truth are both
    empty, or the prediction is non-empty and matches some non-empty ground
    truth of the same length position by position: equal contents and an
    IoU of at least the threshold. *)
Theorem sqa_uic_bb_metrics_em_default (prediction : list (bbox * C))
    (ground_truths : list (list (bbox * C))) :
  Forall (fun e => pixel_bbox e.1) prediction ->
  Forall (Forall (fun e => pixel_bbox e.1)) ground_truths ->
  exists em,
    em_component (sqa_uic_bb_metrics lsa prediction ground_truths
                    default_iou_threshold) em /\
    (em = 0 \/ em = 1) /\
    (em == 1 <->
     (prediction = [] /\ [] ∈ ground_truths) \/
     (prediction <> [] /\
      exists gt, gt ∈ ground_truths /\ gt <> [] /\
                 positional_match default_iou_threshold prediction gt)).
Proof. intros _ _. apply sqa_uic_bb_metrics_em_exact. Qed.

End BoxedElements.

Section BoxedExamples.
Local Open Scope Q_scope.

(** C1. The defect at a concrete input.  The two boxes overlap with
    IoU 1/2 and carry the same content.  At the threshold 9/10 of the call
    they do not match ([uic_bb_exact_match] at 9/10 says so, and both F1
    components are 0), yet the exact-match component is 1: the threshold is
    not handed to [uic_bb_exact_match], which compares at its default. *)
Theorem sqa_uic_bb_metrics_em_ignores_threshold :
  returns (iou (BBox 0 0 1 1) (BBox 0 0 1 2)) (1 # 2) /\
  uic_bb_exact_match [(BBox 0 0 1 1, "btn"%string)]
    [(BBox 0 0 1 2, "btn"%string)] (9 # 10) = Ok false /\
  (exists bbox_f1 f1,
     sqa_uic_bb_metrics lsa_brute [(BBox 0 0 1 1, "btn"%string)]
       [[(BBox 0 0 1 2, "btn"%string)]] (9 # 10) = Ok (bbox_f1, 1, f1) /\
     bbox_f1 == 0 /\ f1 == 0) /\
  ~ em_at_call_threshold lsa_brute
      [(BBox 0 0 1 1, "btn"%string)] [[(BBox 0 0 1 2, "btn"%string)]]
      (9 # 10).
Proof.
  split; [eexists; split; by vm_compute|].
  split; [by vm_compute|].
  split; [do 2 eexists; split; [by vm_compute|split; by vm_compute]|].
  intros (em & (bf & f1 & Hr) & Hiff).
  vm_compute in Hr. injection Hr as _ <- _.
  destruct Hiff as [Hex _].
  destruct Hex as (gt & Hin & _ & _ & HF).
  { reflexivity. }
  apply list_elem_of_singleton in Hin as ->. cbn in HF.
  apply list.Forall_cons in HF as [(_ & v & Hv & Hle) _].
  cbn in Hv. vm_compute in Hv. injection Hv as <-.
  vm_compute in Hle. by apply Hle.
Qed.

Lemma sqa_uic_bb_metrics_em_default_witness :
  exists em,
    em_component (sqa_uic_bb_metrics lsa_brute
                    [(BBox 0 0 1 1, "btn"%string)]
                    [[(BBox 0 0 1 2, "btn"%string)]]
                    default_iou_threshold) em /\
    (em = 0 \/ em = 1) /\
    (em == 1 <->
     ([(BBox 0 0 1 1, "btn"%string)] = [] /\
      [] ∈ [[(BBox 0 0 1 2, "btn"%string)]]) \/
     ([(BBox 0 0 1 1, "btn"%string)] <> [] /\
      exists gt, gt ∈ [[(BBox 0 0 1 2, "btn"%string)]] /\ gt <> [] /\
                 positional_match default_iou_threshold
                   [(BBox 0 0 1 1, "btn"%string)] gt)).
Proof.
  apply (sqa_uic_bb_metrics_em_default lsa_brute lsa_brute_contract);
    repeat constructor; cbn; by eexists (_ : Z).
Defined.

End BoxedExamples.

(** ** The multiset intersection is a maximum matching *)

Section Refinement.
Local Open Scope Q_scope.
Context `{Countable K}.

Lemma omap_submseteq {A B} (g : A -> option B) (l k : list A) :
  l ⊆+ k -> omap g l ⊆+ omap g k.
Proof.
  induction 1 as [|x l k _ IH|x y l|x l k _ IH|l k1 k2 _ IH1 _ IH2]; cbn.
  - constructor.
  - destruct (g x); [by constructor|done].
  - destruct (g x), (g y); try done. constructor.
  - destruct (g x); [by constructor|done].
  - by etrans.
Qed.

Lemma Counter_submseteq (l k : list K) : l ⊆+ k -> Counter l ⊆ Counter k.
Proof.
  unfold Counter.
  induction 1 as [|x l k _ IH|x y l|x l k _ IH|l k1 k2 _ IH1 _ IH2];
    rewrite ?list_to_set_disj_cons; multiset_solver.
Qed.

Lemma inter_skip (x : K) (X Y : gmultiset K) :
  x ∉ Y -> ({[+ x +]} ⊎ X) ∩ Y = X ∩ Y.
Proof.
  intros Hx. apply gmultiset_eq. intros z.
  rewrite !multiplicity_intersection, multiplicity_disj_union.
  apply not_elem_of_multiplicity in Hx.
  destruct (decide (z = x)) as [->|N].
  - rewrite Hx. lia.
  - rewrite multiplicity_singleton_ne by done. lia.
Qed.

Lemma inter_both (x : K) (X Y : gmultiset K) :
  ({[+ x +]} ⊎ X) ∩ ({[+ x +]} ⊎ Y) = {[+ x +]} ⊎ (X ∩ Y).
Proof. multiset_solver. Qed.

Lemma omap_fmap {A B D} (g : A -> B) (h : B -> option D) (l : list A) :
  omap h (g <$> l) = omap (fun x => h (g x)) l.
Proof. induction l as [|x l IH]; cbn; [done|]. by rewrite IH. Qed.

Lemma omap_lookup_seq (l : list K) :
  omap (fun i => l !! i) (seq 0 (length l)) = l.
Proof.
  induction l as [|x l IH]; [done|].
  change (x :: omap (fun i => (x :: l) !! i) (seq 1 (length l)) = x :: l).
  rewrite <- fmap_S_seq, omap_fmap.
  change (x :: omap (fun i => l !! i) (seq 0 (length l)) = x :: l).
  by rewrite IH.
Qed.

(** The values found at distinct positions of a list form a sub-multiset of
    the list. *)
Lemma values_at_submseteq (l : list K) (idx : list nat) :
  NoDup idx -> Forall (fun i => (i < length l)%nat) idx ->
  omap (fun i => l !! i) idx ⊆+ l.
Proof.
  intros Hnd Hr.
  pose proof (omap_submseteq (fun i => l !! i) idx (seq 0 (length l))) as Hs.
  rewrite omap_lookup_seq in Hs. apply Hs.
  apply NoDup_submseteq; [done|]. intros i Hi. apply elem_of_seq.
  rewrite List.Forall_forall in Hr. apply list_elem_of_In in Hi.
  specialize (Hr i Hi). lia.
Qed.

(** Pairing each indexed row with a free indexed column of the same value,
    while there is one, pairs as many as the multiset intersection holds. *)
Lemma equal_pairs_exist (rows cols : list (nat * K)) :
  NoDup rows.*1 -> NoDup cols.*1 ->
  exists a : assignment,
    NoDup a.*1 /\ NoDup a.*2 /\
    Forall (fun p => exists x, (p.1, x) ∈ rows /\ (p.2, x) ∈ cols) a /\
    length a = size (Counter rows.*2 ∩ Counter cols.*2).
Proof.
  revert cols. induction rows as [|[i x] rows IH]; intros cols Hr Hc.
  - exists []. repeat split; try constructor.
    unfold Counter. change (([] : list (nat * K)).*2) with ([] : list K).
    rewrite list_to_set_disj_nil. symmetry.
    apply gmultiset_size_empty_iff. multiset_solver.
  - cbn in Hr. apply list.NoDup_cons in Hr as [Hi Hr].
    destruct (decide (x ∈ cols.*2)) as [Hx|Hx].
    + apply list_elem_of_fmap in Hx as ([j y] & -> & Hj). cbn [snd].
      apply elem_of_Permutation in Hj as [cols' Hperm].
      assert (NoDup ((j, y) :: cols').*1) as Hc'
        by (by rewrite <- Hperm).
      cbn in Hc'. apply list.NoDup_cons in Hc' as [Hj Hc'].
      destruct (IH cols' Hr Hc') as (a & Ha1 & Ha2 & Hin & Hlen).
      rewrite List.Forall_forall in Hin.
      exists ((i, j) :: a). split; [|split; [|split]].
      * cbn. apply list.NoDup_cons. split; [|done].
        intros Hm. apply list_elem_of_fmap in Hm as (p & -> & Hp).
        apply list_elem_of_In in Hp. destruct (Hin p Hp) as (z & Hz & _).
        apply Hi. apply list_elem_of_fmap. by exists (p.1, z).
      * cbn. apply list.NoDup_cons. split; [|done].
        intros Hm. apply list_elem_of_fmap in Hm as (p & -> & Hp).
        apply list_elem_of_In in Hp. destruct (Hin p Hp) as (z & _ & Hz).
        apply Hj. apply list_elem_of_fmap. by exists (p.2, z).
      * apply list.Forall_cons. split.
        -- exists y. cbn. split; [left|]. rewrite Hperm. left.
        -- apply List.Forall_forall. intros p Hp.
           destruct (Hin p Hp) as (z & Hz1 & Hz2). exists z.
           split; [by right|]. rewrite Hperm. by right.
      * assert (Counter ((i, y) :: rows).*2 ∩ Counter cols.*2
                = {[+ y +]} ⊎ (Counter rows.*2 ∩ Counter cols'.*2)) as ->.
        { unfold Counter.
          rewrite (list_to_set_disj_perm cols.*2 ((j, y) :: cols').*2)
            by (by rewrite Hperm).
          rewrite !fmap_cons, !list_to_set_disj_cons. cbn [snd].
          apply inter_both. }
        rewrite gmultiset_size_disj_union, gmultiset_size_singleton.
        cbn [length]. by rewrite Hlen.
    + destruct (IH cols Hr Hc) as (a & Ha1 & Ha2 & Hin & Hlen).
      exists a. split; [done|]. split; [done|]. split.
      * eapply Forall_impl; [|exact Hin]. intros p (z & Hz1 & Hz2).
        exists z. split; [by right|done].
      * rewrite Hlen. f_equal. unfold Counter.
        rewrite fmap_cons, list_to_set_disj_cons. cbn [snd].
        symmetry. apply inter_skip. by rewrite elem_of_list_to_set_disj.
Qed.

Lemma elem_of_indexed (l : list K) (i : nat) (x : K) :
  (i, x) ∈ zip (seq 0 (length l)) l -> l !! i = Some x.
Proof.
  intros Hin. apply list_elem_of_lookup in Hin as [k Hk].
  apply lookup_zip_Some in Hk as [H1 H2].
  apply lookup_seq in H1 as [-> _]. done.
Qed.

Variables xs ys : list K.
Variable t : Q.
Hypothesis t_pos : 0 < t.
Hypothesis t_le_1 : t <= 1.

Local Abbreviation c := (score_matrix xs ys eq_score t).
Local Abbreviation n := (length xs).
Local Abbreviation m := (length ys).
Local Abbreviation num_same := (sum_values (Counter xs ∩ Counter ys)).
Local Abbreviation paired := (paired xs ys).

Lemma eq_entry (p : nat * nat) :
  (paired p /\ mat_get c p.1 p.2 = 1) \/
  (~ paired p /\ mat_get c p.1 p.2 = 0).
Proof.
  rewrite score_matrix_entry. unfold paired.
  destruct (xs !! p.1) as [x|] eqn:Ex; [|right; split; [by intros (?&?&?)|done]].
  destruct (ys !! p.2) as [y|] eqn:Ey; [|right; split; [by intros (?&?&?)|done]].
  unfold eq_score. destruct (bool_decide_reflect (x = y)) as [->|N].
  - left. split; [by exists y|].
    assert (Qle_bool t 1 = true) as -> by (by apply Qle_bool_iff). done.
  - right. split; [intros (z & ? & ?); congruence|].
    destruct (Qle_bool t 0) eqn:E; done.
Qed.

Lemma passes_iff_paired (p : nat * nat) :
  Qle_bool t (mat_get c p.1 p.2) = true <-> paired p.
Proof.
  destruct (eq_entry p) as [[Hp ->]|[Hn ->]].
  - split; [done|]. intros _. by apply Qle_bool_iff.
  - split; [|done]. intros E. apply Qle_bool_iff in E. lra.
Qed.

Lemma total_counts (a : assignment) :
  total c a == inject_Z (Z.of_nat (count_matches t c a)).
Proof.
  unfold count_matches. induction a as [|p a IH]; [reflexivity|].
  rewrite total_cons, IH.
  destruct (eq_entry p) as [[Hp E]|[Hn E]]; rewrite E.
  - rewrite filter_cons_True by (by apply passes_iff_paired).
    cbn [length]. rewrite Nat2Z.inj_succ, <- Z.add_1_l, inject_Z_plus. reflexivity.
  - rewrite filter_cons_False by (by rewrite passes_iff_paired). ring.
Qed.

(** No one-to-one assignment pairs more equal elements than the multiset
    intersection holds. *)
Lemma count_matches_le_num_same (a : assignment) :
  one_to_one n m a -> (count_matches t c a <= num_same)%nat.
Proof.
  intros (Hr & Hc & Hb). unfold count_matches.
  set (e := filter (fun p => Qle_bool t (mat_get c p.1 p.2) = true) a).
  assert (He : e `sublist_of` a) by apply sublist_filter.
  assert (Hp : Forall paired e).
  { apply List.Forall_forall. intros p Hin. apply list_elem_of_In in Hin.
    apply list_elem_of_filter in Hin as [Hin _]. by apply passes_iff_paired. }
  assert (Hbe : Forall (fun p => (p.1 < n /\ p.2 < m)%nat) e).
  { apply List.Forall_forall. intros p Hin. apply list_elem_of_In in Hin.
    apply list_elem_of_filter in Hin as [_ Hin].
    rewrite List.Forall_forall in Hb. apply Hb. by apply list_elem_of_In. }
  set (v := omap (fun p : nat * nat => xs !! p.1) e).
  assert (Hlen : length v = length e).
  { unfold v. clear He Hbe. induction Hp as [|p e' (x & Hx & _) _ IH];
      [done|]. cbn. rewrite Hx. cbn. by rewrite IH. }
  assert (Hv : v = omap (fun p : nat * nat => ys !! p.2) e).
  { unfold v. clear He Hbe Hlen. induction Hp as [|p e' (x & Hx & Hy) _ IH];
      [done|]. cbn. rewrite Hx, Hy. cbn. by rewrite IH. }
  assert (Hvx : v ⊆+ xs).
  { unfold v. rewrite <- (omap_fmap fst (fun i => xs !! i)).
    apply values_at_submseteq.
    - eapply sublist_NoDup; [exact Hr|]. by apply fmap_sublist.
    - apply Forall_fmap. eapply Forall_impl; [|exact Hbe]. by intros p [? _]. }
  assert (Hvy : v ⊆+ ys).
  { rewrite Hv. rewrite <- (omap_fmap snd (fun i => ys !! i)).
    apply values_at_submseteq.
    - eapply sublist_NoDup; [exact Hc|]. by apply fmap_sublist.
    - apply Forall_fmap. eapply Forall_impl; [|exact Hbe]. by intros p [_ ?]. }
  apply Counter_submseteq in Hvx, Hvy.
  rewrite <- Hlen, <- (size_Counter v). unfold sum_values.
  apply gmultiset_subseteq_size. multiset_solver.
Qed.

(** Some one-to-one assignment pairs as many equal elements as the multiset
    intersection holds. *)
Lemma num_same_is_matched :
  exists a, one_to_one n m a /\ count_matches t c a = num_same.
Proof.
  destruct (equal_pairs_exist (zip (seq 0 n) xs) (zip (seq 0 m) ys))
    as (a & Ha1 & Ha2 & Hin & Hlen).
  { rewrite fst_zip by (rewrite length_seq; lia). apply NoDup_seq. }
  { rewrite fst_zip by (rewrite length_seq; lia). apply NoDup_seq. }
  rewrite !snd_zip in Hlen by (rewrite length_seq; lia).
  assert (Hp : Forall paired a).
  { eapply Forall_impl; [|exact Hin]. intros p (x & H1 & H2).
    exists x. split; by apply elem_of_indexed. }
  exists a. split.
  - split; [done|]. split; [done|].
    eapply Forall_impl; [|exact Hp]. intros p (x & H1 & H2).
    apply lookup_lt_Some in H1, H2. done.
  - unfold sum_values. rewrite <- Hlen. unfold count_matches.
    clear Ha1 Ha2 Hin Hlen. induction Hp as [|p a Hp _ IH]; [done|].
    rewrite filter_cons_True by (by apply passes_iff_paired).
    cbn. by rewrite IH.
Qed.

Variable lsa : matrix -> list nat * list nat.
Hypothesis lsa_ok : lsa_contract lsa.
Hypothesis xs_nonempty : xs <> [].
Hypothesis ys_nonempty : ys <> [].

(** The solver's assignment on the equality scores pairs exactly as many
    elements as the multiset intersection holds. *)
Lemma solver_matches_num_same :
  count_matches t c (zip (lsa (mat_neg c)).1 (lsa (mat_neg c)).2) = num_same.
Proof.
  destruct (solver_assignment lsa lsa_ok xs ys eq_score t xs_nonempty
              ys_nonempty) as (_ & [Ha Hlen] & Hopt).
  set (a := zip (lsa (mat_neg c)).1 (lsa (mat_neg c)).2) in *.
  apply Nat.le_antisymm; [by apply count_matches_le_num_same|].
  destruct num_same_is_matched as (b & Hb & <-).
  assert (total c b <= total c a) as Hle.
  { apply (complete_optimum_is_global c n m); [|done|done].
    apply score_matrix_nonneg. left. lra. }
  rewrite !total_counts in Hle. rewrite <- Zle_Qle in Hle. lia.
Qed.

End Refinement.

(** C3. For non-empty lists and a threshold in (0, 1], the Counter-based
    [f1_score] returns what the assignment scorer returns with plain
    equality as score function, whatever the threshold and whichever
    optimal assignment the solver picks. *)
Theorem f1_score_refines_assignment_f1 `{Countable K}
    (lsa : matrix -> list nat * list nat) (xs ys : list K) (t : Q) :
  lsa_contract lsa -> xs <> [] -> ys <> [] -> (0 < t)%Q -> (t <= 1)%Q ->
  f1_score xs ys =
    uic_bb_f1_score lsa xs ys (fun x y => Ok (eq_score x y)) t /\
  exists v, f1_score xs ys = Ok v.
Proof.
  intros Hlsa Hx Hy Ht0 Ht1. split; [|apply f1_score_returns].
  rewrite f1_score_value.
  rewrite (uic_bb_f1_score_value lsa Hlsa _ _ _ eq_score) by done.
  cbv zeta. by rewrite solver_matches_num_same.
Qed.

Lemma f1_score_refines_assignment_f1_witness :
  f1_score ["a"; "b"; "a"]%string ["a"; "c"; "a"; "b"]%string =
    uic_bb_f1_score lsa_brute ["a"; "b"; "a"]%string
      ["a"; "c"; "a"; "b"]%string (fun x y => Ok (eq_score x y)) (1 # 2)
  /\ exists v, f1_score ["a"; "b"; "a"]%string ["a"; "c"; "a"; "b"]%string
               = Ok v.
Proof.
  apply (f1_score_refines_assignment_f1 lsa_brute
           ["a"; "b"; "a"]%string ["a"; "c"; "a"; "b"]%string (1 # 2));
    [apply lsa_brute_contract | discriminate | discriminate
    | reflexivity | discriminate].
Defined.

(** * Further properties of the module *)

(** ** Token F1: closed form, symmetry, order, extreme values *)

Section TokenF1Extras.
Local Open Scope Q_scope.
Context `{Countable K}.

Lemma Counter_perm_inv (a b : list K) : Counter a = Counter b -> a ≡ₚ b.
Proof.
  revert b. induction a as [|x a IH]; intros b E.
  - assert (length b = 0%nat) as L.
    { rewrite <- (size_Counter b), <- E. apply gmultiset_size_empty. }
    by destruct b.
  - assert (x ∈ b) as Hx.
    { apply elem_of_list_to_set_disj. unfold Counter in E. rewrite <- E.
      rewrite list_to_set_disj_cons. multiset_solver. }
    apply elem_of_Permutation in Hx as [b' Hb]. rewrite Hb.
    constructor. apply IH. unfold Counter in *.
    rewrite (list_to_set_disj_perm b (x :: b')) in E by done.
    rewrite !list_to_set_disj_cons in E. multiset_solver.
Qed.

Lemma subseteq_size_eq (X Y : gmultiset K) :
  X ⊆ Y -> size X = size Y -> X = Y.
Proof.
  intros Hs Hsz.
  assert (size (Y ∖ X) = 0%nat) as E
    by (rewrite gmultiset_size_difference by done; lia).
  apply gmultiset_size_empty_inv in E. multiset_solver.
Qed.

(** The value of F1 from [k > 0] common tokens of lists of [n] and [m]
    tokens is [2k/(n+m)]. *)
Lemma harmonic_closed_form (k n m : Q) :
  0 < k -> k <= n -> k <= m ->
  2 * (1 * k / n) * (1 * k / m) / (1 * k / n + 1 * k / m) == 2 * k / (n + m).
Proof. intros Hk Hn Hm. field. repeat split; try lra. nra. Qed.

Lemma f1_score_closed (a b : list K) :
  let k := inject_Z (Z.of_nat (sum_values (Counter a ∩ Counter b))) in
  exists v, f1_score a b = Ok v /\ v * (len a + len b) == 2 * k.
Proof.
  cbv zeta. rewrite f1_score_value. cbv zeta.
  pose proof (num_same_le_l a b) as Ha. pose proof (num_same_le_r a b) as Hb.
  set (k := sum_values (Counter a ∩ Counter b)) in *.
  destruct (Nat.eqb_spec k 0) as [->|Hk].
  - exists 0. split; [done|]. change (inject_Z (Z.of_nat 0)) with 0. ring.
  - eexists. split; [done|].
    assert (0 < inject_Z (Z.of_nat k)) by (apply inject_nat_pos; lia).
    assert (inject_Z (Z.of_nat k) <= len a)
      by (unfold len; rewrite <- Zle_Qle; lia).
    assert (inject_Z (Z.of_nat k) <= len b)
      by (unfold len; rewrite <- Zle_Qle; lia).
    rewrite harmonic_closed_form by done. field. lra.
Qed.

Lemma f1_score_unit (a b : list K) :
  exists v, f1_score a b = Ok v /\ 0 <= v /\ v <= 1.
Proof.
  destruct (f1_score_closed a b) as (v & Hv & E). cbv zeta in E.
  exists v. split; [done|].
  pose proof (num_same_le_l a b) as Ha. pose proof (num_same_le_r a b) as Hb.
  set (k := sum_values (Counter a ∩ Counter b)) in *.
  assert (0 <= inject_Z (Z.of_nat k)) by (rewrite <- (Zle_Qle 0); lia).
  assert (inject_Z (Z.of_nat k) <= len a)
    by (unfold len; rewrite <- Zle_Qle; lia).
  assert (inject_Z (Z.of_nat k) <= len b)
    by (unfold len; rewrite <- Zle_Qle; lia).
  destruct (Nat.eqb_spec k 0) as [Hk|Hk].
  - rewrite f1_score_value in Hv. cbv zeta in Hv. fold k in Hv.
    rewrite Hk in Hv. injection Hv as <-. lra.
  - assert (0 < inject_Z (Z.of_nat k)) by (apply inject_nat_pos; lia).
    split; nra.
Qed.

(** X2. [f1_score] is symmetric: swapping prediction and ground truth
    swaps precision and recall and returns an equal number. *)
Theorem f1_score_sym (a b : list K) :
  exists v w, f1_score a b = Ok v /\ f1_score b a = Ok w /\ v == w.
Proof.
  rewrite !f1_score_value. cbv zeta.
  assert (Counter b ∩ Counter a = Counter a ∩ Counter b) as ->
    by multiset_solver.
  destruct (_ =? _)%nat; do 2 eexists; (split; [done|split; [done|]]);
    [reflexivity|].
  set (p := 1 * _ / len a). set (r := 1 * _ / len b).
  rewrite (Qplus_comm r p). apply Qdiv_comp; [ring|reflexivity].
Qed.

Lemma Counter_perm (a a' : list K) : a ≡ₚ a' -> Counter a = Counter a'.
Proof. intros Ha. unfold Counter. by rewrite Ha. Qed.

(** X3. The order of the tokens is irrelevant: permuting either list does
    not change what [f1_score] returns. *)
Theorem f1_score_perm (a a' b b' : list K) :
  a ≡ₚ a' -> b ≡ₚ b' -> f1_score a b = f1_score a' b'.
Proof.
  intros Ha Hb. rewrite !f1_score_value. cbv zeta. unfold len.
  rewrite (Counter_perm a a' Ha), (Counter_perm b b' Hb).
  by rewrite (Permutation_length Ha), (Permutation_length Hb).
Qed.

Lemma f1_score_one_zero (a b : list K) :
  (returns (f1_score a b) 1 <-> a <> [] /\ a ≡ₚ b) /\
  (returns (f1_score a b) 0 <-> forall x, x ∈ a -> x ∉ b).
Proof.
  destruct (f1_score_closed a b) as (v & Hv & E). cbv zeta in E.
  pose proof (num_same_le_l a b) as Ha. pose proof (num_same_le_r a b) as Hb.
  set (k := sum_values (Counter a ∩ Counter b)) in *.
  assert (Hka : inject_Z (Z.of_nat k) <= len a)
    by (unfold len; rewrite <- Zle_Qle; lia).
  assert (Hkb : inject_Z (Z.of_nat k) <= len b)
    by (unfold len; rewrite <- Zle_Qle; lia).
  assert (Hk0 : 0 <= inject_Z (Z.of_nat k)) by (rewrite <- (Zle_Qle 0); lia).
  split; split.
  - intros (w & Hw & Ew). rewrite Hv in Hw. injection Hw as <-.
    assert (inject_Z (Z.of_nat k) == len a /\ inject_Z (Z.of_nat k) == len b)
      as [Ea Eb] by (split; nra).
    assert (k = length a) as Ea' by (apply Nat2Z.inj, inject_Z_injective, Ea).
    assert (k = length b) as Eb' by (apply Nat2Z.inj, inject_Z_injective, Eb).
    clear Ea Eb.
    assert (k <> 0)%nat as Hk.
    { intros Hk. rewrite f1_score_value in Hv. cbv zeta in Hv. fold k in Hv.
      rewrite Hk in Hv. injection Hv as <-. discriminate Ew. }
    split; [intros ->; simpl in Ea'; lia|].
    apply Counter_perm_inv.
    assert (Counter a ∩ Counter b = Counter a) as E1.
    { apply subseteq_size_eq; [multiset_solver|].
      by rewrite size_Counter. }
    assert (Counter a ∩ Counter b = Counter b) as E2.
    { apply subseteq_size_eq; [multiset_solver|].
      by rewrite size_Counter. }
    congruence.
  - intros [Hne Hp]. rewrite f1_score_value. cbv zeta. unfold len.
    rewrite (Counter_perm a b Hp), (Permutation_length Hp). fold (len b).
    assert (Counter b ∩ Counter b = Counter b) as -> by multiset_solver.
    unfold sum_values. rewrite size_Counter.
    assert (b <> []) as Hb' by (intros ->; by apply Permutation_nil_r in Hp).
    destruct (Nat.eqb_spec (length b) 0) as [E0|N0]; [by destruct b|].
    eexists. split; [done|]. unfold len.
    assert (0 < inject_Z (Z.of_nat (length b))) by (apply inject_nat_pos; lia).
    field. lra.
  - intros (w & Hw & Ew) x Hxa Hxb. rewrite Hv in Hw. injection Hw as <-.
    assert (k = 0%nat) as Hk.
    { destruct (Nat.eqb_spec k 0) as [|N]; [done|]. exfalso.
      assert (0 < inject_Z (Z.of_nat k)) by (apply inject_nat_pos; lia).
      nra. }
    apply gmultiset_size_empty_inv in Hk.
    assert (x ∈ Counter a ∩ Counter b) as Hin.
    { apply gmultiset_elem_of_intersection.
      split; by apply elem_of_list_to_set_disj. }
    rewrite Hk in Hin. multiset_solver.
  - intros Hdis. rewrite f1_score_value. cbv zeta.
    assert (Counter a ∩ Counter b = ∅) as ->.
    { apply gmultiset_size_empty_inv.
      destruct (size (Counter a ∩ Counter b)) eqn:Es; [done|]. exfalso.
      destruct (gmultiset_size_pos_elem_of (Counter a ∩ Counter b))
        as [x Hx]; [lia|].
      apply gmultiset_elem_of_intersection in Hx as [Hxa Hxb].
      apply elem_of_list_to_set_disj in Hxa, Hxb. by apply (Hdis x). }
    unfold sum_values. rewrite gmultiset_size_empty. by exists 0.
Qed.

(** X4. [f1_score] returns 1 exactly when the two lists are non-empty
    permutations of each other, and 0 exactly when they share no token. *)
Theorem f1_score_extremes (a b : list K) :
  (returns (f1_score a b) 1 <-> a <> [] /\ a ≡ₚ b) /\
  (returns (f1_score a b) 0 <-> forall x, x ∈ a -> x ∉ b).
Proof.
  destruct (f1_score_one_zero a b) as [[H1 H2] [H3 H4]].
  split; split; assumption.
Qed.

(** X1. [f1_score] returns a number in [[0, 1]] for every two lists, and
    the number is positive exactly when the lists share a token. *)
Theorem f1_score_range (a b : list K) :
  exists v,
    f1_score a b = Ok v /\ 0 <= v /\ v <= 1 /\
    (0 < v <-> exists x, x ∈ a /\ x ∈ b).
Proof.
  destruct (f1_score_unit a b) as (v & Hv & H0 & H1).
  exists v. split; [done|]. split; [done|]. split; [done|].
  destruct (f1_score_one_zero a b) as [_ [Hz1 Hz2]].
  split.
  - intros Hpos.
    destruct (decide (Forall (fun x => x ∉ b) a)) as [Hall|Hex].
    + destruct Hz2 as (w & Hw & Ew).
      { intros x Hx. rewrite List.Forall_forall in Hall.
        by apply Hall, list_elem_of_In. }
      rewrite Hv in Hw. injection Hw as <-. lra.
    + apply not_Forall_Exists in Hex; [|intros x; apply _].
      apply List.Exists_exists in Hex as (x & Hx & Hxb).
      exists x. split; [by apply list_elem_of_In|].
      by destruct (decide (x ∈ b)).
  - intros (x & Hxa & Hxb).
    destruct (Qlt_le_dec 0 v) as [|Hle]; [done|].
    assert (Ez : v == 0) by lra.
    exfalso. apply (Hz1 (ex_intro _ v (conj Hv Ez)) x Hxa Hxb).
Qed.

End TokenF1Extras.

Lemma f1_score_perm_witness :
  f1_score ["x"; "y"; "x"]%string ["y"; "z"]%string
  = f1_score ["x"; "x"; "y"]%string ["z"; "y"]%string.
Proof.
  apply (f1_score_perm ["x"; "y"; "x"]%string ["x"; "x"; "y"]%string
           ["y"; "z"]%string ["z"; "y"]%string).
  - apply perm_skip, perm_swap.
  - apply perm_swap.
Defined.

(** ** IoU: no exception, zero and one *)

Section GeometryExtras.
Local Open Scope Q_scope.

Lemma overlap_pos_iff (a b : bbox) : 0 < overlap a b <-> interiors_meet a b.
Proof.
  unfold overlap, interiors_meet.
  set (w := Qmin (b_xmax a) (b_xmax b) - Qmax (b_xmin a) (b_xmin b)).
  set (h := Qmin (b_ymax a) (b_ymax b) - Qmax (b_ymin a) (b_ymin b)).
  destruct (Qmax_cases 0 w) as [[Hw0 Hw1] Hw2].
  destruct (Qmax_cases 0 h) as [[Hh0 Hh1] Hh2].
  split.
  - intros Hpos.
    assert (0 < Qmax 0 w /\ 0 < Qmax 0 h) as [Pw Ph] by (split; nra).
    assert (0 < w) by (destruct Hw2; lra).
    assert (0 < h) by (destruct Hh2; lra).
    unfold w, h in *. split; lra.
  - intros [Hx Hy].
    assert (0 < Qmax 0 w) by (unfold w in *; lra).
    assert (0 < Qmax 0 h) by (unfold h in *; lra).
    nra.
Qed.

(** In exact arithmetic [iou] returns a number in [[0, 1]] for every pair
    of boxes, also inverted ones, and the number is positive exactly when
    the boxes share a rectangle of positive width and height. *)
Lemma iou_positive_exact (a b : bbox) :
  exists v, iou a b = Ok v /\ 0 <= v /\ v <= 1 /\
            (0 < v <-> interiors_meet a b).
Proof.
  destruct (iou_total a b) as (v & Hv & H0 & H1).
  exists v. split; [done|]. split; [done|]. split; [done|].
  rewrite <- overlap_pos_iff. rewrite iou_unfold in Hv.
  pose proof (overlap_nonneg a b) as Hnn.
  destruct (Qeq_bool (overlap a b) 0) eqn:E.
  - injection Hv as <-. apply Qeq_bool_iff in E. split; lra.
  - apply Qeq_bool_false in E.
    destruct (overlap_le_area a b E) as (Ha & Hb & Hpos).
    rewrite py_div_nonzero in Hv by lra. injection Hv as <-.
    split; [done|]. intros _. apply Qlt_shift_div_l; lra.
Qed.

Lemma product_eq_factors (w h w' h' : Q) :
  0 < w -> 0 < h -> w <= w' -> h <= h' -> w' * h' <= w * h ->
  w == w' /\ h == h'.
Proof. intros. split; nra. Qed.

(** In exact arithmetic [iou] returns 1 exactly when the two boxes have
    equal coordinates and a positive width and height. *)
Lemma iou_one_exact (a b : bbox) :
  returns (iou a b) 1 <-> same_box a b /\ proper_bbox a.
Proof.
  rewrite iou_unfold. unfold same_box, proper_bbox.
  pose proof (overlap_nonneg a b) as Hnn.
  pose proof (overlap_pos_iff a b) as Hpos. revert Hnn Hpos.
  unfold overlap, interiors_meet.
  destruct (Qmin_cases (b_xmax a) (b_xmax b)) as [[? ?] Hx1].
  destruct (Qmax_cases (b_xmin a) (b_xmin b)) as [[? ?] Hx0].
  destruct (Qmin_cases (b_ymax a) (b_ymax b)) as [[? ?] Hy1].
  destruct (Qmax_cases (b_ymin a) (b_ymin b)) as [[? ?] Hy0].
  set (x1 := Qmin (b_xmax a) (b_xmax b)) in *.
  set (x0 := Qmax (b_xmin a) (b_xmin b)) in *.
  set (y1 := Qmin (b_ymax a) (b_ymax b)) in *.
  set (y0 := Qmax (b_ymin a) (b_ymin b)) in *.
  clearbody x1 x0 y1 y0.
  destruct (Qmax_cases 0 (x1 - x0)) as [[? ?] Hw].
  destruct (Qmax_cases 0 (y1 - y0)) as [[? ?] Hh].
  set (w := Qmax 0 (x1 - x0)) in *. set (h := Qmax 0 (y1 - y0)) in *.
  clearbody w h. intros Hnn Hpos.
  split.
  - intros (v & Hv & Ev).
    destruct (Qeq_bool (w * h) 0) eqn:E.
    { injection Hv as <-. discriminate Ev. }
    apply Qeq_bool_false in E.
    assert (0 < w * h) as P by lra.
    apply Hpos in P as [Px Py].
    assert (w == x1 - x0) as Ew by (destruct Hw; lra).
    assert (h == y1 - y0) as Eh by (destruct Hh; lra).
    set (A1 := (b_xmax a - b_xmin a) * (b_ymax a - b_ymin a)) in *.
    set (A2 := (b_xmax b - b_xmin b) * (b_ymax b - b_ymin b)) in *.
    assert (w * h <= A1) by (unfold A1; nra).
    assert (w * h <= A2) by (unfold A2; nra).
    rewrite py_div_nonzero in Hv by lra. injection Hv as <-.
    assert (w * h == w * h / (A1 + A2 - w * h) * (A1 + A2 - w * h)) as Eu
      by (field; lra).
    rewrite Ev in Eu.
    assert (0 < w) by lra. assert (0 < h) by lra.
    assert (A1 <= w * h) by lra. assert (A2 <= w * h) by lra.
    destruct (product_eq_factors w h (b_xmax a - b_xmin a)
                (b_ymax a - b_ymin a)) as [E1 E2]; [lra..|done|].
    destruct (product_eq_factors w h (b_xmax b - b_xmin b)
                (b_ymax b - b_ymin b)) as [E3 E4]; [lra..|done|].
    repeat split; lra.
  - intros [(Ey0 & Ex0 & Ey1 & Ex1) [Py Px]].
    assert (w == b_xmax a - b_xmin a) as Ew by (destruct Hw, Hx1, Hx0; lra).
    assert (h == b_ymax a - b_ymin a) as Eh by (destruct Hh, Hy1, Hy0; lra).
    assert (0 < w * h) as P by nra.
    assert (Qeq_bool (w * h) 0 = false) as -> by (apply Qeq_bool_false; lra).
    set (A1 := (b_xmax a - b_xmin a) * (b_ymax a - b_ymin a)) in *.
    set (A2 := (b_xmax b - b_xmin b) * (b_ymax b - b_ymin b)) in *.
    assert (w * h == A1) as E1 by (unfold A1; nra).
    assert (w * h == A2) as E2 by (unfold A2; nra).
    eexists. split; [apply py_div_nonzero; lra|].
    assert (A1 + A2 - w * h == w * h) as -> by lra. field. lra.
Qed.

(** X5. For boxes in pixel coordinates (whole numbers of magnitude at
    most [2^25], on which binary64 computes the differences, areas and sums
    of [iou] exactly), also inverted ones, [iou] returns a number in
    [[0, 1]]: the division is never by zero.  The number is positive
    exactly when the boxes share a rectangle of positive width and
    height. *)
Theorem iou_positive_iff (a b : bbox) :
  pixel_bbox a -> pixel_bbox b ->
  exists v, iou a b = Ok v /\ 0 <= v /\ v <= 1 /\
            (0 < v <-> interiors_meet a b).
Proof. intros _ _. apply iou_positive_exact. Qed.

(** X6. For boxes in pixel coordinates, [iou] returns 1 exactly when the
    two boxes have equal coordinates and a positive width and height: with
    areas below [2^53] a quotient of different areas stays below 1 after
    rounding. *)
Theorem iou_one_iff (a b : bbox) :
  pixel_bbox a -> pixel_bbox b ->
  returns (iou a b) 1 <-> same_box a b /\ proper_bbox a.
Proof. intros _ _. apply iou_one_exact. Qed.

End GeometryExtras.

Section GeometryExtraExamples.
Local Open Scope Q_scope.

Lemma pixel_small (z : Z) : (Z.abs z <= 2 ^ 25)%Z -> pixel (inject_Z z).
Proof. intros Hz. by exists z. Qed.

Lemma iou_positive_iff_witness :
  exists v, iou (BBox 0 0 20 30) (BBox 10 40 5 15) = Ok v /\
            0 <= v /\ v <= 1 /\
            (0 < v <-> interiors_meet (BBox 0 0 20 30) (BBox 10 40 5 15)).
Proof.
  apply (iou_positive_iff (BBox 0 0 20 30) (BBox 10 40 5 15));
    repeat split; cbn; apply pixel_small; lia.
Defined.

Lemma iou_one_iff_witness :
  returns (iou (BBox 0 0 20 30) (BBox 0 0 20 30)) 1 <->
  same_box (BBox 0 0 20 30) (BBox 0 0 20 30) /\
  proper_bbox (BBox 0 0 20 30).
Proof.
  apply (iou_one_iff (BBox 0 0 20 30) (BBox 0 0 20 30));
    repeat split; cbn; apply pixel_small; lia.
Defined.

End GeometryExtraExamples.

(** ** Element matching: symmetry, self-match, thresholds *)

Section ElementExtras.
Local Open Scope Q_scope.
Context {C : Type} `{EqDecision C}.

Lemma ui_elements_match_sym (e1 e2 : bbox * C) (t : Q) :
  ui_elements_match e1 e2 t = ui_elements_match e2 e1 t.
Proof.
  destruct e1 as [b1 c1], e2 as [b2 c2]. unfold ui_elements_match.
  destruct (bool_decide_reflect (c1 = c2)) as [->|N].
  - rewrite bool_decide_eq_true_2 by done.
    destruct (iou_sym b1 b2) as (v & w & -> & -> & E).
    cbn [mbind res_bind]. by rewrite E.
  - by rewrite bool_decide_eq_false_2 by (intros E; by apply N).
Qed.

Lemma all_elements_match_sym (l1 l2 : list (bbox * C)) (t : Q) :
  all_elements_match (zip l1 l2) t = all_elements_match (zip l2 l1) t.
Proof.
  revert l2. induction l1 as [|e1 l1 IH]; intros [|e2 l2]; try done.
  cbn [zip zip_with all_elements_match].
  rewrite (ui_elements_match_sym e1 e2).
  destruct (ui_elements_match e2 e1 t) as [[|]|]; cbn [mbind res_bind];
    [apply IH|done|done].
Qed.

(** X7. Matching is symmetric: two elements match in either order, and so
    do two lists compared position by position. *)
Theorem uic_bb_exact_match_sym (l1 l2 : list (bbox * C)) (t : Q) :
  uic_bb_exact_match l1 l2 t = uic_bb_exact_match l2 l1 t /\
  forall e1 e2 : bbox * C,
    ui_elements_match e1 e2 t = ui_elements_match e2 e1 t.
Proof.
  split; [|intros; apply ui_elements_match_sym].
  unfold uic_bb_exact_match. rewrite (Nat.eqb_sym (length l2)).
  destruct (length l1 =? length l2)%nat; cbn [negb]; [|done].
  apply all_elements_match_sym.
Qed.

Lemma iou_proper_self (b : bbox) :
  proper_bbox b -> exists v, iou b b = Ok v /\ v == 1.
Proof.
  intros [Hy Hx]. rewrite iou_unfold.
  assert (overlap b b == area b) as Ho
    by (apply overlap_self; split; lra).
  assert (0 < area b) as Pa by (unfold area; nra).
  assert (Qeq_bool (overlap b b) 0 = false) as ->
    by (apply Qeq_bool_false; lra).
  eexists. split; [apply py_div_nonzero; unfold area in *; lra|].
  rewrite Ho. unfold area. field. unfold area in Pa. lra.
Qed.

Lemma positional_match_self (l : list (bbox * C)) (t : Q) :
  t <= 1 -> Forall (fun e => proper_bbox e.1) l -> positional_match t l l.
Proof.
  intros Ht Hl. split; [done|].
  induction Hl as [|[b c] l Hb _ IH]; [constructor|].
  cbn [zip zip_with]. constructor; [|exact IH].
  split; [done|]. cbn [fst snd].
  destruct (iou_proper_self b Hb) as (v & Hv & Ev).
  exists v. split; [done|lra].
Qed.

Lemma sides_sized_proper (b : bbox) : sides_sized b -> proper_bbox b.
Proof.
  intros [[Hx _] [Hy _]].
  assert (0 < / side_bound) by (apply Qinv_lt_0_compat; reflexivity).
  split; lra.
Qed.

Lemma Forall_sized_proper (l : list (bbox * C)) :
  Forall (fun e => sides_sized e.1) l -> Forall (fun e => proper_bbox e.1) l.
Proof.
  induction 1 as [|e l He _ IH]; constructor; [|exact IH].
  by apply sides_sized_proper.
Qed.

(** X8. A list of elements whose boxes have sides between [2^-511] and
    [2^511], so that in binary64 their areas neither underflow nor
    overflow when doubled, matches itself exactly at every threshold up
    to 1. *)
Theorem uic_bb_exact_match_self (l : list (bbox * C)) (t : Q) :
  t <= 1 -> Forall (fun e => sides_sized e.1) l ->
  uic_bb_exact_match l l t = Ok true.
Proof.
  intros Ht Hl%Forall_sized_proper.
  destruct (uic_bb_exact_match_spec l l t) as (b & -> & Hb).
  f_equal. apply Hb. by apply positional_match_self.
Qed.

Lemma iou_no_meet (a b : bbox) : ~ interiors_meet a b -> iou a b = Ok 0.
Proof.
  intros N. rewrite iou_unfold.
  pose proof (overlap_nonneg a b) as Hnn.
  assert (overlap a b == 0) as E.
  { destruct (Qlt_le_dec 0 (overlap a b)) as [P|?]; [|lra].
    apply overlap_pos_iff in P. contradiction. }
  apply Qeq_bool_iff in E. by rewrite E.
Qed.

Lemma zero_area_no_meet (a b : bbox) :
  valid_bbox a -> area a == 0 -> ~ interiors_meet a b.
Proof.
  intros [Hy Hx] Ha [Mx My]. unfold area in Ha.
  destruct (Qmax_cases (b_xmin a) (b_xmin b)) as [[? ?] _].
  destruct (Qmin_cases (b_xmax a) (b_xmax b)) as [[? ?] _].
  destruct (Qmax_cases (b_ymin a) (b_ymin b)) as [[? ?] _].
  destruct (Qmin_cases (b_ymax a) (b_ymax b)) as [[? ?] _].
  apply Qmult_integral in Ha as [E|E]; lra.
Qed.

(** X9. A box of zero area matches nothing at a positive threshold: a list
    that holds such a box exactly matches no list, not even itself. *)
Theorem uic_bb_exact_match_zero_area (l1 l2 : list (bbox * C)) (t : Q) :
  0 < t ->
  Exists (fun e => valid_bbox e.1 /\ area e.1 == 0) l1 ->
  uic_bb_exact_match l1 l2 t = Ok false.
Proof.
  intros Ht Hex.
  destruct (uic_bb_exact_match_spec l1 l2 t) as (b & -> & Hb).
  destruct b; [|done]. exfalso.
  destruct Hb as [[Hlen HF] _]; [done|].
  apply Exists_exists in Hex as (e & Hin & Hv & Ha).
  apply list_elem_of_In, list_elem_of_lookup in Hin as [i Hi].
  destruct (lookup_lt_is_Some_2 l2 i) as [e2 He2].
  { rewrite Hlen. by eapply lookup_lt_Some. }
  assert (zip l1 l2 !! i = Some (e, e2)) as Hz by (by apply lookup_zip_Some).
  rewrite List.Forall_forall in HF.
  destruct (HF (e, e2)) as (_ & v & Hiou & Hle).
  { apply list_elem_of_In. by eapply list_elem_of_lookup_2. }
  cbn [fst snd] in Hiou.
  rewrite (iou_no_meet e.1 e2.1) in Hiou by (by apply zero_area_no_meet).
  injection Hiou as <-. lra.
Qed.

(** X10. Lowering the threshold keeps an exact match. *)
Theorem uic_bb_exact_match_mono (l1 l2 : list (bbox * C)) (t t' : Q) :
  t' <= t ->
  uic_bb_exact_match l1 l2 t = Ok true ->
  uic_bb_exact_match l1 l2 t' = Ok true.
Proof.
  intros Ht Hm.
  destruct (uic_bb_exact_match_spec l1 l2 t) as (b & Eb & Hb).
  destruct (uic_bb_exact_match_spec l1 l2 t') as (b' & -> & Hb').
  rewrite Hm in Eb. injection Eb as <-. f_equal. apply Hb'.
  destruct Hb as [[Hlen HF] _]; [done|]. split; [done|].
  eapply Forall_impl; [|exact HF].
  intros p (Hc & v & Hv & Hle). split; [done|]. exists v. split; [done|lra].
Qed.

End ElementExtras.

Section ElementExamples.
Local Open Scope Q_scope.

Lemma uic_bb_exact_match_self_witness :
  uic_bb_exact_match [(BBox 0 0 1 1, "ok"%string); (BBox 2 2 5 3, "no"%string)]
    [(BBox 0 0 1 1, "ok"%string); (BBox 2 2 5 3, "no"%string)] (9 # 10)
  = Ok true.
Proof.
  apply (uic_bb_exact_match_self
           [(BBox 0 0 1 1, "ok"%string); (BBox 2 2 5 3, "no"%string)]
           (9 # 10)); [discriminate|].
  repeat constructor; apply Qle_bool_iff; reflexivity.
Defined.

Lemma uic_bb_exact_match_zero_area_witness :
  uic_bb_exact_match [(BBox 0 0 0 4, "line"%string)]
    [(BBox 0 0 0 4, "line"%string)] (1 # 10) = Ok false.
Proof.
  apply (uic_bb_exact_match_zero_area [(BBox 0 0 0 4, "line"%string)]
           [(BBox 0 0 0 4, "line"%string)] (1 # 10)); [reflexivity|].
  constructor. split; [split; discriminate|reflexivity].
Defined.

Lemma uic_bb_exact_match_mono_witness :
  uic_bb_exact_match [(BBox 0 0 1 1, "ok"%string)]
    [(BBox 0 0 1 2, "ok"%string)] (1 # 10) = Ok true.
Proof.
  apply (uic_bb_exact_match_mono [(BBox 0 0 1 1, "ok"%string)]
           [(BBox 0 0 1 2, "ok"%string)] (1 # 2) (1 # 10));
    [discriminate|reflexivity].
Defined.

End ElementExamples.

(** ** Maximum over ground truths *)

Section MaxFacts.
Local Open Scope Q_scope.

Lemma foldl_Qmax_spec (xs : list Q) (x : Q) :
  (x <= foldl Qmax x xs /\ Forall (fun y => y <= foldl Qmax x xs) xs) /\
  (foldl Qmax x xs = x \/ foldl Qmax x xs ∈ xs).
Proof.
  revert x. induction xs as [|y xs IH]; intros x; cbn [foldl].
  - split; [split; [lra|constructor]|by left].
  - destruct (IH (Qmax x y)) as [[H1 H2] H3].
    destruct (Qmax_cases x y) as [[Hx Hy] _].
    split; [split; [lra|constructor; [lra|done]]|].
    destruct H3 as [E|Hin]; [|right; by right].
    rewrite E. unfold Qmax, GenericMinMax.gmax.
    destruct (x ?= y); [by left|right; left|by left].
Qed.

Lemma py_max_spec (xs : list Q) (v : Q) :
  py_max xs = Ok v -> v ∈ xs /\ Forall (fun y => y <= v) xs.
Proof.
  destruct xs as [|x xs]; [done|]. cbn. intros E. injection E as <-.
  destruct (foldl_Qmax_spec xs x) as [[H1 H2] H3].
  split; [destruct H3 as [->|?]; [left|by right]|by constructor].
Qed.

Lemma mapM_Forall2 {A B} (h : A -> res B) (l : list A) (vs : list B) :
  mapM h l = Ok vs -> Forall2 (fun x v => h x = Ok v) l vs.
Proof.
  revert vs. induction l as [|x l IH]; intros vs E.
  - injection E as <-. constructor.
  - rewrite mapM_cons in E. destruct (h x) as [v|] eqn:Ex; [|done].
    cbn [mbind res_bind] in E.
    destruct (mapM h l) as [vs'|]; [|done]. cbn [mbind res_bind] in E.
    injection E as <-. constructor; [done|by apply IH].
Qed.

(** The maximum of scores that are all within [[0, 1]] is within
    [[0, 1]]; it is 1 as soon as one score is. *)
Lemma py_max_unit {A} (h : A -> res Q) (l : list A) (vs : list Q) (v : Q) :
  mapM h l = Ok vs -> py_max vs = Ok v ->
  (forall x w, x ∈ l -> h x = Ok w -> 0 <= w /\ w <= 1) ->
  (0 <= v /\ v <= 1) /\
  ((exists x w, x ∈ l /\ h x = Ok w /\ w == 1) -> v == 1).
Proof.
  intros Hm Hv Hr. apply mapM_Forall2 in Hm.
  apply py_max_spec in Hv as [Hin Hmax].
  assert (Hv : 0 <= v /\ v <= 1).
  { apply list_elem_of_lookup in Hin as [i Hi].
    destruct (Forall2_lookup_r _ _ _ _ _ Hm Hi) as (x & Hx & Hhx).
    apply (Hr x v); [by eapply list_elem_of_lookup_2|done]. }
  split; [done|]. intros (x & w & Hx & Hw & Ew).
  apply list_elem_of_lookup in Hx as [i Hi].
  destruct (Forall2_lookup_l _ _ _ _ _ Hm Hi) as (w' & Hw' & Hhx).
  rewrite Hw in Hhx. injection Hhx as <-.
  rewrite List.Forall_forall in Hmax.
  assert (w <= v) by (apply Hmax, list_elem_of_In;
                      by eapply list_elem_of_lookup_2).
  lra.
Qed.

Lemma py_max_one_iff {A} (h : A -> res Q) (l : list A) (vs : list Q)
    (v : Q) :
  mapM h l = Ok vs -> py_max vs = Ok v ->
  (forall x w, x ∈ l -> h x = Ok w -> w <= 1) ->
  (v == 1 <-> exists x w, x ∈ l /\ h x = Ok w /\ w == 1).
Proof.
  intros Hm Hv Hr. apply mapM_Forall2 in Hm.
  apply py_max_spec in Hv as [Hin Hmax]. split.
  - intros Ev. apply list_elem_of_lookup in Hin as [i Hi].
    destruct (Forall2_lookup_r _ _ _ _ _ Hm Hi) as (x & Hx & Hhx).
    exists x, v. split; [by eapply list_elem_of_lookup_2|done].
  - intros (x & w & Hx & Hw & Ew).
    pose proof (Hr x w Hx Hw) as Hw1.
    apply list_elem_of_lookup in Hx as [i Hi].
    destruct (Forall2_lookup_l _ _ _ _ _ Hm Hi) as (w' & Hw' & Hhx).
    rewrite Hw in Hhx. injection Hhx as <-.
    rewrite List.Forall_forall in Hmax.
    assert (w <= v) by (apply Hmax, list_elem_of_In;
                        by eapply list_elem_of_lookup_2).
    apply list_elem_of_lookup in Hin as [j Hj].
    destruct (Forall2_lookup_r _ _ _ _ _ Hm Hj) as (y & Hy & Hhy).
    assert (v <= 1)
      by (apply (Hr y v); [by eapply list_elem_of_lookup_2|done]).
    lra.
Qed.

Lemma py_max_zero_iff {A} (h : A -> res Q) (l : list A) (vs : list Q)
    (v : Q) :
  mapM h l = Ok vs -> py_max vs = Ok v ->
  (forall x w, x ∈ l -> h x = Ok w -> 0 <= w) ->
  (v == 0 <-> forall x w, x ∈ l -> h x = Ok w -> w == 0).
Proof.
  intros Hm Hv Hr. apply mapM_Forall2 in Hm.
  apply py_max_spec in Hv as [Hin Hmax]. split.
  - intros Ev x w Hx Hw. pose proof (Hr x w Hx Hw).
    apply list_elem_of_lookup in Hx as [i Hi].
    destruct (Forall2_lookup_l _ _ _ _ _ Hm Hi) as (w' & Hw' & Hhx).
    rewrite Hw in Hhx. injection Hhx as <-.
    rewrite List.Forall_forall in Hmax.
    assert (w <= v) by (apply Hmax, list_elem_of_In;
                        by eapply list_elem_of_lookup_2).
    lra.
  - intros Hall. apply list_elem_of_lookup in Hin as [i Hi].
    destruct (Forall2_lookup_r _ _ _ _ _ Hm Hi) as (x & Hx & Hhx).
    apply (Hall x v); [by eapply list_elem_of_lookup_2|done].
Qed.

End MaxFacts.

(** ** The assignment scorer: range, closed form, perfect score *)

Section ScorerExtras.
Local Open Scope Q_scope.

Variable lsa : matrix -> list nat * list nat.
Hypothesis lsa_ok : lsa_contract lsa.

Lemma uic_bb_f1_score_closed {A B} (prediction : list A)
    (ground_truth : list B) (f : A -> B -> Q) (threshold : Q) :
  prediction <> [] -> ground_truth <> [] ->
  let c := score_matrix prediction ground_truth f threshold in
  let a := zip (lsa (mat_neg c)).1 (lsa (mat_neg c)).2 in
  let k := count_matches threshold c a in
  (k <= length prediction /\ k <= length ground_truth)%nat /\
  exists v,
    uic_bb_f1_score lsa prediction ground_truth (fun x y => Ok (f x y))
      threshold = Ok v /\
    v * (len prediction + len ground_truth) == 2 * inject_Z (Z.of_nat k).
Proof.
  intros Hp Hg c a k.
  destruct (solver_assignment lsa lsa_ok prediction ground_truth f threshold
              Hp Hg) as (_ & [Ha Hlen] & _).
  fold c in Ha, Hlen. fold a in Ha, Hlen.
  pose proof (count_matches_le threshold c a) as Hk. fold k in Hk.
  assert (k <= length prediction /\ k <= length ground_truth)%nat as [Hn Hm]
    by lia.
  split; [done|].
  rewrite (uic_bb_f1_score_value lsa lsa_ok _ _ _ f) by done.
  cbv zeta. fold c a k.
  destruct (Nat.eqb_spec k 0) as [E|N].
  - exists 0. split; [done|]. rewrite E.
    change (inject_Z (Z.of_nat 0)) with 0. ring.
  - eexists. split; [done|].
    assert (0 < inject_Z (Z.of_nat k)) by (apply inject_nat_pos; lia).
    assert (inject_Z (Z.of_nat k) <= len prediction)
      by (unfold len; rewrite <- Zle_Qle; lia).
    assert (inject_Z (Z.of_nat k) <= len ground_truth)
      by (unfold len; rewrite <- Zle_Qle; lia).
    rewrite harmonic_closed_form by done. field. lra.
Qed.

(** The scorer returns a number in [[0, 1]] on every pair of lists. *)
Lemma uic_bb_f1_score_unit {A B} (prediction : list A)
    (ground_truth : list B) (score_func : A -> B -> res Q)
    (f : A -> B -> Q) (threshold : Q) :
  (forall x y, score_func x y = Ok (f x y)) ->
  exists v,
    uic_bb_f1_score lsa prediction ground_truth score_func threshold = Ok v /\
    0 <= v /\ v <= 1.
Proof.
  intros Hf.
  destruct prediction as [|x p].
  { destruct ground_truth; eexists; (split; [reflexivity|lra]). }
  destruct ground_truth as [|y g].
  { eexists; (split; [reflexivity|lra]). }
  destruct (uic_bb_f1_score_closed (x :: p) (y :: g) f threshold)
    as ([Hn Hm] & v & Hv & E); [done|done|]. cbv zeta in *.
  assert (uic_bb_f1_score lsa (x :: p) (y :: g) score_func threshold = Ok v)
    as ->.
  { rewrite <- Hv. unfold uic_bb_f1_score. cbn [py_not andb orb].
    rewrite !(cost_matrix_value _ _ _ f) by done. done. }
  exists v. split; [done|].
  set (k := count_matches _ _ _) in *.
  assert (0 <= inject_Z (Z.of_nat k)) by (rewrite <- (Zle_Qle 0); lia).
  assert (inject_Z (Z.of_nat k) <= len (x :: p))
    by (unfold len; rewrite <- Zle_Qle; lia).
  assert (inject_Z (Z.of_nat k) <= len (y :: g))
    by (unfold len; rewrite <- Zle_Qle; lia).
  assert (0 < len (x :: p)) by (unfold len; apply inject_nat_pos; simpl; lia).
  split; nra.
Qed.

(** X11. With a solver that meets its contract and a score function with
    values in [[0, 1]], [uic_bb_f1_score] on non-empty lists returns a
    number in [[0, 1]]; it is 0 exactly when no pair of the solver's
    assignment passes the threshold, and 1 exactly when every element of
    both lists is in a passing pair. *)
Theorem uic_bb_f1_score_extremes {A B} (prediction : list A)
    (ground_truth : list B) (f : A -> B -> Q) (threshold : Q) :
  prediction <> [] -> ground_truth <> [] ->
  (forall x y, 0 <= f x y /\ f x y <= 1) ->
  let c := score_matrix prediction ground_truth f threshold in
  let a := zip (lsa (mat_neg c)).1 (lsa (mat_neg c)).2 in
  let k := count_matches threshold c a in
  exists v,
    uic_bb_f1_score lsa prediction ground_truth (fun x y => Ok (f x y))
      threshold = Ok v /\
    0 <= v /\ v <= 1 /\
    (v == 0 <-> k = 0%nat) /\
    (v == 1 <-> k = length prediction /\ k = length ground_truth).
Proof.
  intros Hp Hg _ c a k.
  destruct (uic_bb_f1_score_closed prediction ground_truth f threshold Hp Hg)
    as ([Hn Hm] & v & Hv & E). cbv zeta in Hn, Hm, E. fold c a k in Hn, Hm, E.
  destruct (uic_bb_f1_score_unit prediction ground_truth
              (fun x y => Ok (f x y)) f threshold) as (w & Hw & H0 & H1);
    [done|].
  rewrite Hv in Hw. injection Hw as <-. clearbody k.
  exists v. split; [done|]. split; [done|]. split; [done|].
  assert (Hlp : 0 < len prediction)
    by (unfold len; apply inject_nat_pos; destruct prediction; cbn; [done|lia]).
  assert (Hlg : 0 < len ground_truth)
    by (unfold len; apply inject_nat_pos; destruct ground_truth;
        cbn; [done|lia]).
  assert (Hk0 : 0 <= inject_Z (Z.of_nat k)) by (rewrite <- (Zle_Qle 0); lia).
  assert (Hkp : inject_Z (Z.of_nat k) <= len prediction)
    by (unfold len; rewrite <- Zle_Qle; lia).
  assert (Hkg : inject_Z (Z.of_nat k) <= len ground_truth)
    by (unfold len; rewrite <- Zle_Qle; lia).
  split; split.
  - intros Ev. rewrite Ev in E.
    assert (Ek : inject_Z (Z.of_nat k) == inject_Z (Z.of_nat 0)).
    { change (inject_Z (Z.of_nat 0)) with 0. lra. }
    by apply Nat2Z.inj, inject_Z_injective.
  - intros ->. change (inject_Z (Z.of_nat 0)) with 0 in E.
    assert (Ez : v * (len prediction + len ground_truth) == 0) by lra.
    apply Qmult_integral in Ez as [?|?]; lra.
  - intros Ev. rewrite Ev in E.
    assert (inject_Z (Z.of_nat k) == len prediction) as Ep by lra.
    assert (inject_Z (Z.of_nat k) == len ground_truth) as Eg by lra.
    unfold len in Ep, Eg.
    split; by apply Nat2Z.inj, inject_Z_injective.
  - intros [Ep Eg].
    assert (inject_Z (Z.of_nat k) == len prediction) as Ep'
      by (unfold len; by rewrite <- Ep).
    assert (inject_Z (Z.of_nat k) == len ground_truth) as Eg'
      by (unfold len; by rewrite <- Eg).
    nra.
Qed.

Lemma score_matrix_le_1 {A B} (p : list A) (g : list B) f t :
  (forall x y, f x y <= 1) ->
  forall i j, mat_get (score_matrix p g f t) i j <= 1.
Proof.
  intros Hf i j. rewrite score_matrix_entry.
  destruct (p !! i) as [x|]; [|lra]. destruct (g !! j) as [y|]; [|lra].
  destruct (Qle_bool t (f x y)); [apply Hf|lra].
Qed.

(** Entries that are at most 1 and add up to their number at least are
    all 1. *)
Lemma total_full (c : matrix) (a : assignment) :
  (forall i j, mat_get c i j <= 1) ->
  inject_Z (Z.of_nat (length a)) <= total c a ->
  Forall (fun p => mat_get c p.1 p.2 == 1) a.
Proof.
  intros Hc.
  assert (Hle : forall b : assignment,
             total c b <= inject_Z (Z.of_nat (length b))).
  { induction b as [|p b IH]; [by compute|].
    rewrite total_cons. cbn [length].
    rewrite Nat2Z.inj_succ, <- Z.add_1_l, inject_Z_plus.
    specialize (Hc p.1 p.2). change (inject_Z 1) with 1. lra. }
  induction a as [|p a IH]; intros Ht; [constructor|].
  rewrite total_cons in Ht. cbn [length] in Ht.
  rewrite Nat2Z.inj_succ, <- Z.add_1_l, inject_Z_plus in Ht.
  change (inject_Z 1) with 1 in Ht.
  specialize (Hle a). pose proof (Hc p.1 p.2).
  constructor; [lra|]. apply IH. lra.
Qed.

Lemma diagonal_complete (n : nat) : complete n n (zip (seq 0 n) (seq 0 n)).
Proof.
  split; [|rewrite length_zip_with, length_seq; lia].
  split; [|split].
  - rewrite fst_zip by (rewrite !length_seq; lia). apply NoDup_seq.
  - rewrite snd_zip by (rewrite !length_seq; lia). apply NoDup_seq.
  - apply List.Forall_forall. intros [i j] Hin.
    apply list_elem_of_In, list_elem_of_lookup in Hin as [k Hk].
    apply lookup_zip_Some in Hk as [H1 H2].
    apply lookup_seq in H1 as [-> ?], H2 as [-> ?]. cbn. lia.
Qed.

Lemma diagonal_total (c : matrix) (n : nat) :
  (forall i, (i < n)%nat -> mat_get c i i == 1) ->
  total c (zip (seq 0 n) (seq 0 n)) == inject_Z (Z.of_nat n).
Proof.
  intros Hd.
  assert (forall k s, (forall i, (s <= i < s + k)%nat -> mat_get c i i == 1) ->
            total c (zip (seq s k) (seq s k)) == inject_Z (Z.of_nat k))
    as Hgen.
  { induction k as [|k IH]; intros s Hs; [reflexivity|].
    cbn [seq zip zip_with]. rewrite total_cons. cbn [fst snd].
    rewrite Hs by lia. rewrite IH by (intros; apply Hs; lia).
    rewrite Nat2Z.inj_succ, <- Z.add_1_l, inject_Z_plus. reflexivity. }
  apply Hgen. intros i Hi. apply Hd. lia.
Qed.

Lemma positional_pairing_f1 {A B} (prediction : list A)
    (ground_truth : list B) (score_func : A -> B -> res Q)
    (f : A -> B -> Q) (threshold : Q) :
  (forall x y, score_func x y = Ok (f x y)) ->
  prediction <> [] -> length prediction = length ground_truth ->
  threshold <= 1 ->
  (forall x y, f x y <= 1) ->
  (forall i x y, prediction !! i = Some x -> ground_truth !! i = Some y ->
                 f x y == 1) ->
  returns (uic_bb_f1_score lsa prediction ground_truth score_func
             threshold) 1.
Proof.
  intros Hsf Hp Hlen Ht Hf Hd.
  assert (ground_truth <> []) as Hg
    by (intros ->; destruct prediction; done).
  assert (0 < length prediction)%nat as Hn
    by (destruct prediction; [done|simpl; lia]).
  destruct (solver_assignment lsa lsa_ok prediction ground_truth f threshold
              Hp Hg) as (_ & [Ha Hl] & Hopt).
  rewrite (uic_bb_f1_score_value lsa lsa_ok _ _ _ f) by done. cbv zeta.
  set (c := score_matrix prediction ground_truth f threshold) in *.
  set (a := zip (lsa (mat_neg c)).1 (lsa (mat_neg c)).2) in *.
  set (n := length prediction) in *. rewrite <- Hlen in *.
  rewrite Nat.min_id in Hl.
  assert (Hdiag : forall i, (i < n)%nat -> mat_get c i i == 1).
  { intros i Hi. unfold c. rewrite score_matrix_entry.
    destruct (lookup_lt_is_Some_2 prediction i) as [x Hx]; [done|].
    destruct (lookup_lt_is_Some_2 ground_truth i) as [y Hy]; [lia|].
    rewrite Hx, Hy. specialize (Hd i x y Hx Hy).
    assert (Qle_bool threshold (f x y) = true) as ->
      by (apply Qle_bool_iff; lra). done. }
  assert (Hfull : Forall (fun p => mat_get c p.1 p.2 == 1) a).
  { apply total_full; [by apply score_matrix_le_1|].
    rewrite Hl, <- (diagonal_total c n Hdiag).
    apply Hopt, diagonal_complete. }
  assert (count_matches threshold c a = n) as ->.
  { rewrite <- Hl. unfold count_matches. clear Hl Ha Hopt.
    induction Hfull as [|p a' Hp1 _ IH]; [done|].
    rewrite filter_cons_True by (apply Qle_bool_iff; lra).
    cbn. by rewrite IH. }
  assert (0 < inject_Z (Z.of_nat n)) by (by apply inject_nat_pos).
  destruct (Nat.eqb_spec n 0) as [E|N]; [lia|].
  eexists. split; [reflexivity|]. unfold len. fold n. rewrite <- Hlen.
  field. lra.
Qed.

(** X12. Lists of the same length whose elements score 1 position by
    position, under a score function that never exceeds 1 and a threshold
    of at most 1, get F1 = 1: the optimal assignment cannot do worse than
    the positional pairing. *)
Theorem uic_bb_f1_score_perfect {A B} (prediction : list A)
    (ground_truth : list B) (f : A -> B -> Q) (threshold : Q) :
  prediction <> [] -> length prediction = length ground_truth ->
  threshold <= 1 ->
  (forall x y, f x y <= 1) ->
  (forall i x y, prediction !! i = Some x -> ground_truth !! i = Some y ->
                 f x y == 1) ->
  returns (uic_bb_f1_score lsa prediction ground_truth
             (fun x y => Ok (f x y)) threshold) 1.
Proof.
  intros Hp Hlen Ht Hf Hd.
  by apply (positional_pairing_f1 _ _ _ f).
Qed.

End ScorerExtras.

Section ScorerExtraExamples.
Local Open Scope Q_scope.

Lemma greedy_trap_unit (x y : nat) :
  0 <= greedy_trap x y /\ greedy_trap x y <= 1.
Proof.
  unfold greedy_trap.
  destruct x as [|[|x]], y as [|[|y]]; cbn; split; by apply Qle_bool_iff.
Qed.

Lemma uic_bb_f1_score_extremes_witness :
  let c := score_matrix [0; 1]%nat [0; 1; 2]%nat greedy_trap (1 # 2) in
  let a := zip (lsa_brute (mat_neg c)).1 (lsa_brute (mat_neg c)).2 in
  let k := count_matches (1 # 2) c a in
  exists v,
    uic_bb_f1_score lsa_brute [0; 1]%nat [0; 1; 2]%nat
      (fun x y => Ok (greedy_trap x y)) (1 # 2) = Ok v /\
    0 <= v /\ v <= 1 /\
    (v == 0 <-> k = 0%nat) /\
    (v == 1 <-> k = length [0; 1]%nat /\ k = length [0; 1; 2]%nat).
Proof.
  apply (uic_bb_f1_score_extremes lsa_brute lsa_brute_contract
           [0; 1]%nat [0; 1; 2]%nat greedy_trap (1 # 2));
    [discriminate|discriminate|apply greedy_trap_unit].
Defined.

Lemma uic_bb_f1_score_perfect_witness :
  returns (uic_bb_f1_score lsa_brute ["a"; "b"]%string ["a"; "b"]%string
             (fun x y => Ok (eq_score x y)) (1 # 2)) 1.
Proof.
  apply (uic_bb_f1_score_perfect lsa_brute lsa_brute_contract
           ["a"; "b"]%string ["a"; "b"]%string eq_score (1 # 2)).
  - discriminate.
  - reflexivity.
  - discriminate.
  - intros x y. unfold eq_score. destruct (bool_decide _); discriminate.
  - intros [|[|i]] x y Hx Hy; simpl in Hx, Hy; try discriminate;
      injection Hx as <-; injection Hy as <-; reflexivity.
Defined.

End ScorerExtraExamples.

(** ** The boxed-element variant: range, perfect prediction, threshold *)

Section BoxedExtras.
Local Open Scope Q_scope.
Context {C : Type} `{EqDecision C}.

Variable lsa : matrix -> list nat * list nat.
Hypothesis lsa_ok : lsa_contract lsa.

(** The score function of the content-gated F1, as a number. *)
Lemma gated_iou_Ok (x y : bbox * C) :
  (if bool_decide (x.2 = y.2) then iou x.1 y.1 else Ok 0)
  = Ok (if bool_decide (x.2 = y.2) then iou_value x.1 y.1 else 0).
Proof. destruct (bool_decide _); [apply iou_Ok|done]. Qed.

Lemma iou_value_unit (a b : bbox) : 0 <= iou_value a b /\ iou_value a b <= 1.
Proof.
  destruct (iou_total a b) as (v & Hv & H0 & H1).
  unfold iou_value. by rewrite Hv.
Qed.

(** The parts of the result on a non-empty prediction with a ground truth
    left by the filter. *)
Lemma sqa_uic_bb_metrics_parts (prediction : list (bbox * C))
    (ground_truths : list (list (bbox * C))) (t : Q) :
  prediction <> [] ->
  filter (fun gt => py_not gt = false) ground_truths <> [] ->
  let gts := filter (fun gt => py_not gt = false) ground_truths in
  exists v1 m1 b v2 m2,
    mapM (fun gt => uic_bb_f1_score lsa (map fst prediction) (map fst gt)
                      iou t) gts = Ok v1 /\
    py_max v1 = Ok m1 /\
    any_exact_match prediction gts = Ok b /\
    mapM (fun gt => uic_bb_f1_score lsa prediction gt
                      (fun x y => if bool_decide (x.2 = y.2)
                                  then iou x.1 y.1 else Ok 0) t) gts
    = Ok v2 /\
    py_max v2 = Ok m2 /\
    sqa_uic_bb_metrics lsa prediction ground_truths t
    = Ok (m1, if b then 1 else 0, m2).
Proof.
  intros Hp Hg. cbv zeta. unfold sqa_uic_bb_metrics.
  set (gts := filter (fun gt => py_not gt = false) ground_truths) in *.
  clearbody gts.
  assert (py_not prediction = false) as -> by (by destruct prediction).
  assert (py_not gts = false) as -> by (by destruct gts).
  destruct (any_exact_match_spec prediction gts) as (b & Eb & _).
  destruct (mapM_returns (fun gt =>
              uic_bb_f1_score lsa (map fst prediction) (map fst gt) iou t)
              gts) as (v1 & E1 & L1).
  { intros gt. apply (uic_bb_f1_score_returns _ lsa_ok _ _ _ iou_value).
    intros; apply iou_Ok. }
  destruct (py_max_returns v1) as (m1 & M1).
  { intros ->. by destruct gts. }
  destruct (mapM_returns (fun gt =>
              uic_bb_f1_score lsa prediction gt
                (fun x y => if bool_decide (x.2 = y.2)
                            then iou x.1 y.1 else Ok 0) t) gts)
    as (v2 & E2 & L2).
  { intros gt.
    apply (uic_bb_f1_score_returns _ lsa_ok _ _ _
             (fun x y => if bool_decide (x.2 = y.2)
                         then iou_value x.1 y.1 else 0)).
    intros; apply gated_iou_Ok. }
  destruct (py_max_returns v2) as (m2 & M2).
  { intros ->. by destruct gts. }
  exists v1, m1, b, v2, m2. rewrite E1. cbn [mbind res_bind].
  rewrite M1. cbn [mbind res_bind]. rewrite Eb. cbn [mbind res_bind].
  rewrite E2. cbn [mbind res_bind]. rewrite M2. done.
Qed.

(** X13. With a solver that meets its contract, [sqa_uic_bb_metrics]
    returns a triple for every input, whatever the boxes: both F1
    components lie in [[0, 1]] and the exact match is 0 or 1. *)
Theorem sqa_uic_bb_metrics_unit (prediction : list (bbox * C))
    (ground_truths : list (list (bbox * C))) (t : Q) :
  exists bbox_f1 em f1,
    sqa_uic_bb_metrics lsa prediction ground_truths t
    = Ok (bbox_f1, em, f1) /\
    (0 <= bbox_f1 /\ bbox_f1 <= 1) /\ (em = 0 \/ em = 1) /\
    (0 <= f1 /\ f1 <= 1).
Proof.
  destruct prediction as [|e prediction].
  { unfold sqa_uic_bb_metrics. cbn [py_not].
    destruct (existsb py_not ground_truths); do 3 eexists;
      (split; [reflexivity|]); repeat split; auto; lra. }
  destruct (filter (fun gt => py_not gt = false) ground_truths)
    as [|g gs] eqn:Eg.
  { unfold sqa_uic_bb_metrics. cbn [py_not]. rewrite Eg. cbn [py_not].
    do 3 eexists; (split; [reflexivity|]); repeat split; auto; lra. }
  destruct (sqa_uic_bb_metrics_parts (e :: prediction) ground_truths t)
    as (v1 & m1 & b & v2 & m2 & E1 & M1 & _ & E2 & M2 & ->);
    [done|by rewrite Eg|].
  exists m1, (if b then 1 else 0), m2. split; [done|].
  split; [|split; [destruct b; auto|]].
  - eapply py_max_unit; [exact E1|exact M1|].
    intros gt w _ Hw.
    destruct (uic_bb_f1_score_unit lsa lsa_ok (map fst (e :: prediction))
                (map fst gt) iou iou_value t) as (w' & Hw' & ?);
      [intros; apply iou_Ok|].
    rewrite Hw in Hw'. by injection Hw' as <-.
  - eapply py_max_unit; [exact E2|exact M2|].
    intros gt w _ Hw.
    destruct (uic_bb_f1_score_unit lsa lsa_ok (e :: prediction) gt
                (fun x y => if bool_decide (x.2 = y.2)
                            then iou x.1 y.1 else Ok 0)
                (fun x y => if bool_decide (x.2 = y.2)
                            then iou_value x.1 y.1 else 0) t)
      as (w' & Hw' & ?); [intros; apply gated_iou_Ok|].
    rewrite Hw in Hw'. by injection Hw' as <-.
Qed.

(** X14. A non-empty prediction that is one of the ground truths, with
    boxes whose sides lie between [2^-511] and [2^511] (in binary64 their
    areas neither underflow nor overflow when doubled), scores 1 on all
    three components at every threshold up to 1. *)
Theorem sqa_uic_bb_metrics_exact (prediction : list (bbox * C))
    (ground_truths : list (list (bbox * C))) (t : Q) :
  prediction <> [] -> prediction ∈ ground_truths ->
  Forall (fun e => sides_sized e.1) prediction -> t <= 1 ->
  exists bbox_f1 f1,
    sqa_uic_bb_metrics lsa prediction ground_truths t
    = Ok (bbox_f1, 1, f1) /\ bbox_f1 == 1 /\ f1 == 1.
Proof.
  intros Hp Hin Hb%Forall_sized_proper Ht.
  assert (Hin' : prediction ∈ filter (fun gt => py_not gt = false)
                                     ground_truths).
  { apply list_elem_of_filter. split; [by destruct prediction|done]. }
  destruct (sqa_uic_bb_metrics_parts prediction ground_truths t)
    as (v1 & m1 & b & v2 & m2 & E1 & M1 & Eb & E2 & M2 & ->);
    [done|intros E; rewrite E in Hin'; by apply not_elem_of_nil in Hin'|].
  set (gts := filter (fun gt => py_not gt = false) ground_truths) in *.
  assert (b = true) as ->.
  { destruct (any_exact_match_spec prediction gts) as (b' & Eb' & Hb').
    rewrite Eb in Eb'. injection Eb' as <-. apply Hb'.
    exists prediction. split; [done|].
    apply positional_match_self; [discriminate|done]. }
  exists m1, m2. split; [done|]. split.
  - eapply py_max_unit; [exact E1|exact M1| |].
    + intros gt w _ Hw.
      destruct (uic_bb_f1_score_unit lsa lsa_ok (map fst prediction)
                  (map fst gt) iou iou_value t) as (w' & Hw' & ?);
        [intros; apply iou_Ok|].
      rewrite Hw in Hw'. by injection Hw' as <-.
    + destruct (positional_pairing_f1 lsa lsa_ok (map fst prediction)
                  (map fst prediction) iou iou_value t)
        as (w & Hw & Ew).
      * intros; apply iou_Ok.
      * by destruct prediction.
      * done.
      * done.
      * intros; apply iou_value_unit.
      * intros i x y Hx Hy. rewrite Hx in Hy. injection Hy as <-.
        apply (list_lookup_fmap_Some fst) in Hx as (e & -> & He).
        rewrite List.Forall_forall in Hb.
        destruct (iou_proper_self e.1) as (v & Hv & Ev).
        { apply Hb, list_elem_of_In. by eapply list_elem_of_lookup_2. }
        unfold iou_value. by rewrite Hv.
      * by exists prediction, w.
  - eapply py_max_unit; [exact E2|exact M2| |].
    + intros gt w _ Hw.
      destruct (uic_bb_f1_score_unit lsa lsa_ok prediction gt
                  (fun x y => if bool_decide (x.2 = y.2)
                              then iou x.1 y.1 else Ok 0)
                  (fun x y => if bool_decide (x.2 = y.2)
                              then iou_value x.1 y.1 else 0) t)
        as (w' & Hw' & ?); [intros; apply gated_iou_Ok|].
      rewrite Hw in Hw'. by injection Hw' as <-.
    + destruct (positional_pairing_f1 lsa lsa_ok prediction prediction
                  (fun x y => if bool_decide (x.2 = y.2)
                              then iou x.1 y.1 else Ok 0)
                  (fun x y => if bool_decide (x.2 = y.2)
                              then iou_value x.1 y.1 else 0) t)
        as (w & Hw & Ew).
      * intros; apply gated_iou_Ok.
      * done.
      * done.
      * done.
      * intros x y. destruct (bool_decide _); [apply iou_value_unit|lra].
      * intros i x y Hx Hy. rewrite Hx in Hy. injection Hy as <-.
        rewrite bool_decide_eq_true_2 by done.
        rewrite List.Forall_forall in Hb.
        destruct (iou_proper_self x.1) as (v & Hv & Ev).
        { apply Hb, list_elem_of_In. by eapply list_elem_of_lookup_2. }
        unfold iou_value. by rewrite Hv.
      * by exists prediction, w.
Qed.

(** X15. The exact-match component is the same at every [iou_threshold]:
    the threshold of the call is not handed to [uic_bb_exact_match], which
    compares at its default 0.1. *)
Theorem sqa_uic_bb_metrics_em_threshold_free (prediction : list (bbox * C))
    (ground_truths : list (list (bbox * C))) (t t' em : Q) :
  em_component (sqa_uic_bb_metrics lsa prediction ground_truths t) em <->
  em_component (sqa_uic_bb_metrics lsa prediction ground_truths t') em.
Proof.
  split; by apply sqa_uic_bb_metrics_em_any_threshold.
Qed.

End BoxedExtras.

Section BoxedExtraExamples.
Local Open Scope Q_scope.

Lemma sqa_uic_bb_metrics_unit_witness :
  exists bbox_f1 em f1,
    sqa_uic_bb_metrics lsa_brute [(BBox 0 0 2 2, "a"%string)]
      [[(BBox 1 1 3 3, "a"%string)]; []] (1 # 10)
    = Ok (bbox_f1, em, f1) /\
    (0 <= bbox_f1 /\ bbox_f1 <= 1) /\ (em = 0 \/ em = 1) /\
    (0 <= f1 /\ f1 <= 1).
Proof.
  apply (sqa_uic_bb_metrics_unit lsa_brute lsa_brute_contract).
Defined.

Lemma sqa_uic_bb_metrics_exact_witness :
  exists bbox_f1 f1,
    sqa_uic_bb_metrics lsa_brute
      [(BBox 0 0 1 1, "a"%string); (BBox 0 2 1 3, "b"%string)]
      [[(BBox 5 5 6 6, "c"%string)];
       [(BBox 0 0 1 1, "a"%string); (BBox 0 2 1 3, "b"%string)]] (1 # 2)
    = Ok (bbox_f1, 1, f1) /\ bbox_f1 == 1 /\ f1 == 1.
Proof.
  apply (sqa_uic_bb_metrics_exact lsa_brute lsa_brute_contract).
  - discriminate.
  - apply list_elem_of_In. simpl. auto.
  - repeat constructor; apply Qle_bool_iff; reflexivity.
  - discriminate.
Defined.

Lemma sqa_uic_bb_metrics_em_threshold_free_witness :
  em_component (sqa_uic_bb_metrics lsa_brute [(BBox 0 0 1 1, "a"%string)]
                  [[(BBox 0 0 1 2, "a"%string)]] (1 # 10)) 1 <->
  em_component (sqa_uic_bb_metrics lsa_brute [(BBox 0 0 1 1, "a"%string)]
                  [[(BBox 0 0 1 2, "a"%string)]] (9 # 10)) 1.
Proof.
  apply (sqa_uic_bb_metrics_em_threshold_free lsa_brute lsa_brute_contract).
Defined.

End BoxedExtraExamples.

(** ** The element-list variant *)

Section UicExtras.
Local Open Scope Q_scope.
Context `{Countable K}.

Lemma sqa_uic_metrics_parts (prediction : list K)
    (ground_truths : list (list K)) :
  prediction <> [] ->
  filter (fun gt => py_not gt = false) ground_truths <> [] ->
  let gts := filter (fun gt => py_not gt = false) ground_truths in
  exists vs m,
    mapM (fun gt => f1_score prediction gt) gts = Ok vs /\
    py_max vs = Ok m /\
    sqa_uic_metrics prediction ground_truths
    = Ok (if bool_decide (prediction ∈ gts) then 1 else 0, m).
Proof.
  intros Hp Hg. cbv zeta. unfold sqa_uic_metrics.
  set (gts := filter (fun gt => py_not gt = false) ground_truths) in *.
  clearbody gts.
  assert (py_not prediction = false) as -> by (by destruct prediction).
  assert (py_not gts = false) as -> by (by destruct gts).
  destruct (mapM_returns (fun gt => f1_score prediction gt) gts)
    as (vs & E & L); [intros; apply f1_score_returns|].
  destruct (py_max_returns vs) as (m & M); [intros ->; by destruct gts|].
  exists vs, m. rewrite E. cbn [mbind res_bind]. rewrite M. done.
Qed.

Lemma nonempty_ground_truths (prediction : list K)
    (ground_truths : list (list K)) :
  prediction <> [] ->
  prediction ∈ filter (fun gt => py_not gt = false) ground_truths
  <-> prediction ∈ ground_truths.
Proof.
  intros Hp. rewrite list_elem_of_filter. destruct prediction; [done|].
  cbn. split; [by intros [_ ?]|done].
Qed.

(** X16. [sqa_uic_metrics] returns a pair for every input, with exact
    match 0 or 1 and F1 in [[0, 1]].  The exact match is 1 exactly when
    the prediction is one of the ground truths (for an empty prediction:
    when some ground truth is empty), and then F1 is 1 too. *)
Theorem sqa_uic_metrics_spec (prediction : list K)
    (ground_truths : list (list K)) :
  exists em f1,
    sqa_uic_metrics prediction ground_truths = Ok (em, f1) /\
    (em = 0 \/ em = 1) /\ (0 <= f1 /\ f1 <= 1) /\
    (em = 1 <-> prediction ∈ ground_truths) /\
    (em = 1 -> f1 == 1).
Proof.
  destruct prediction as [|e prediction].
  { unfold sqa_uic_metrics. cbn [py_not].
    destruct (existsb py_not ground_truths) eqn:E; do 2 eexists;
      (split; [reflexivity|]).
    - apply existsb_py_not in E. repeat split; auto; lra.
    - split; [by left|]. split; [lra|]. split; [|discriminate].
      split; [discriminate|]. intros Hin. apply existsb_py_not in Hin.
      congruence. }
  destruct (filter (fun gt => py_not gt = false) ground_truths)
    as [|g gs] eqn:Eg.
  { unfold sqa_uic_metrics. cbn [py_not]. rewrite Eg. cbn [py_not].
    do 2 eexists; (split; [reflexivity|]).
    split; [by left|]. split; [lra|]. split; [|discriminate].
    split; [discriminate|]. intros Hin.
    apply (nonempty_ground_truths (e :: prediction)) in Hin; [|done].
    rewrite Eg in Hin. by apply not_elem_of_nil in Hin. }
  destruct (sqa_uic_metrics_parts (e :: prediction) ground_truths)
    as (vs & m & E & M & ->); [done|by rewrite Eg|].
  clear Eg g gs.
  set (gts := filter (fun gt => py_not gt = false) ground_truths) in *.
  assert (Hunit : forall gt w, gt ∈ gts ->
            f1_score (e :: prediction) gt = Ok w -> 0 <= w /\ w <= 1).
  { intros gt w _ Hw. destruct (f1_score_unit (e :: prediction) gt)
      as (w' & Hw' & ?). rewrite Hw in Hw'. by injection Hw' as <-. }
  destruct (py_max_unit _ _ _ _ E M Hunit) as [Hm Hone].
  do 2 eexists. split; [reflexivity|].
  split; [destruct (bool_decide _); auto|]. split; [done|].
  assert (Hem : (if bool_decide (e :: prediction ∈ gts) then 1 else 0) = 1
                <-> e :: prediction ∈ ground_truths).
  { split.
    - intros E1. apply (nonempty_ground_truths (e :: prediction)); [done|].
      fold gts. destruct (bool_decide_reflect (e :: prediction ∈ gts));
        [done|discriminate E1].
    - intros Hin.
      apply (nonempty_ground_truths (e :: prediction)) in Hin; [|done].
      fold gts in Hin. by rewrite bool_decide_eq_true_2. }
  split; [done|]. intros Hin. apply Hem in Hin.
  apply (nonempty_ground_truths (e :: prediction)) in Hin; [|done].
  apply Hone.
  destruct (f1_score_one_zero (e :: prediction) (e :: prediction))
    as [[_ H1] _].
  destruct H1 as (w & Hw & Ew); [done|]. by exists (e :: prediction), w.
Qed.

(** X17. For a non-empty prediction, the F1 of [sqa_uic_metrics] is 1
    exactly when the prediction is a permutation of some ground truth
    (exact match needs the same order; F1 does not), and 0 exactly when it
    shares no element with any ground truth. *)
Theorem sqa_uic_metrics_f1_extremes (prediction : list K)
    (ground_truths : list (list K)) :
  prediction <> [] ->
  exists em f1,
    sqa_uic_metrics prediction ground_truths = Ok (em, f1) /\
    (f1 == 1 <-> exists gt, gt ∈ ground_truths /\ prediction ≡ₚ gt) /\
    (f1 == 0 <->
     forall gt x, gt ∈ ground_truths -> x ∈ prediction -> x ∉ gt).
Proof.
  intros Hp.
  assert (Hgts : forall gt,
            gt ∈ filter (fun gt => py_not gt = false) ground_truths
            <-> gt ∈ ground_truths /\ gt <> []).
  { intros gt. rewrite list_elem_of_filter.
    destruct gt; cbn; split; intros [? ?]; split; done. }
  destruct (filter (fun gt => py_not gt = false) ground_truths)
    as [|g gs] eqn:Eg.
  { unfold sqa_uic_metrics.
    assert (py_not prediction = false) as -> by (by destruct prediction).
    rewrite Eg. cbn [py_not]. do 2 eexists. split; [reflexivity|]. split.
    - split; [discriminate|]. intros (gt & Hin & Hperm). exfalso.
      apply (not_elem_of_nil gt), Hgts. split; [done|].
      intros ->. by apply Permutation_nil_r in Hperm.
    - split; [|reflexivity]. intros _ gt x Hin Hx Hxg.
      apply (not_elem_of_nil gt), Hgts. split; [done|].
      intros ->. by apply not_elem_of_nil in Hxg. }
  rewrite <- Eg in Hgts.
  destruct (sqa_uic_metrics_parts prediction ground_truths)
    as (vs & m & E & M & ->); [done|by rewrite Eg|].
  clear Eg g gs.
  set (gts := filter (fun gt => py_not gt = false) ground_truths) in *.
  assert (Hunit : forall gt w, gt ∈ gts ->
            f1_score prediction gt = Ok w -> 0 <= w /\ w <= 1).
  { intros gt w _ Hw. destruct (f1_score_unit prediction gt)
      as (w' & Hw' & ?). rewrite Hw in Hw'. by injection Hw' as <-. }
  do 2 eexists. split; [reflexivity|]. split.
  - rewrite (py_max_one_iff _ _ _ _ E M) by (intros; by eapply Hunit).
    split.
    + intros (gt & w & Hin & Hw & Ew).
      destruct (f1_score_one_zero prediction gt) as [[H1 _] _].
      destruct H1 as [_ Hperm]; [by exists w|].
      exists gt. split; [by apply Hgts in Hin as [? _]|done].
    + intros (gt & Hin & Hperm).
      destruct (f1_score_one_zero prediction gt) as [[_ H1] _].
      destruct H1 as (w & Hw & Ew); [done|].
      exists gt, w. split; [|done]. apply Hgts. split; [done|].
      intros ->. by apply Permutation_nil_r in Hperm.
  - rewrite (py_max_zero_iff _ _ _ _ E M) by (intros; by eapply Hunit).
    split.
    + intros Hall gt x Hin Hx Hxg.
      assert (gt ∈ gts) as Hin'.
      { apply Hgts. split; [done|]. intros ->.
        by apply not_elem_of_nil in Hxg. }
      destruct (f1_score_returns prediction gt) as [w Hw].
      destruct (f1_score_one_zero prediction gt) as [_ [H0 _]].
      apply (H0 ltac:(exists w; split; [done|by eapply Hall]) x); done.
    + intros Hdis gt w Hin Hw.
      destruct (f1_score_one_zero prediction gt) as [_ [_ H0]].
      destruct H0 as (w' & Hw' & Ew').
      { intros x Hx. apply (Hdis gt); [|done]. by apply Hgts in Hin as [? _]. }
      rewrite Hw in Hw'. by injection Hw' as <-.
Qed.

End UicExtras.

Section UicExtraExamples.
Local Open Scope Q_scope.

Lemma sqa_uic_metrics_f1_extremes_witness :
  exists em f1,
    sqa_uic_metrics ["b"; "a"]%string [["a"; "b"]%string; ["c"]%string]
    = Ok (em, f1) /\
    (f1 == 1 <->
     exists gt, gt ∈ [["a"; "b"]%string; ["c"]%string] /\
                ["b"; "a"]%string ≡ₚ gt) /\
    (f1 == 0 <->
     forall gt x, gt ∈ [["a"; "b"]%string; ["c"]%string] ->
                  x ∈ ["b"; "a"]%string -> x ∉ gt).
Proof.
  apply (sqa_uic_metrics_f1_extremes ["b"; "a"]%string
           [["a"; "b"]%string; ["c"]%string]).
  discriminate.
Defined.

End UicExtraExamples.

(** ** The text variant *)

Section TextExtras.
Local Open Scope Q_scope.

Lemma sqa_s_metrics_parts (p : string) (ground_truths : list string) :
  p <> NO_ANSWER ->
  filter (fun gt => gt <> NO_ANSWER) ground_truths <> [] ->
  let gts := map normalize_squad
               (filter (fun gt => gt <> NO_ANSWER) ground_truths) in
  exists vs m,
    mapM (fun gt => f1_score (split (normalize_squad p)) (split gt)) gts
    = Ok vs /\
    py_max vs = Ok m /\
    sqa_s_metrics p ground_truths
    = Ok (if bool_decide (normalize_squad p ∈ gts) then 1 else 0, m).
Proof.
  intros Hp Hg. cbv zeta. unfold sqa_s_metrics.
  rewrite bool_decide_eq_false_2 by done.
  set (raw := filter (fun gt => gt <> NO_ANSWER) ground_truths) in *.
  clearbody raw.
  assert (py_not raw = false) as -> by (by destruct raw).
  destruct (mapM_returns
              (fun gt => f1_score (split (normalize_squad p)) (split gt))
              (map normalize_squad raw)) as (vs & E & L);
    [intros; apply f1_score_returns|].
  destruct (py_max_returns vs) as (m & M).
  { intros ->. rewrite length_map in L. by destruct raw. }
  exists vs, m. rewrite E. cbn [mbind res_bind]. rewrite M. done.
Qed.

Lemma elem_of_normalized (p : string) (ground_truths : list string) :
  normalize_squad p
    ∈ map normalize_squad (filter (fun gt => gt <> NO_ANSWER) ground_truths)
  <-> exists gt, gt ∈ ground_truths /\ gt <> NO_ANSWER /\
                 normalize_squad gt = normalize_squad p.
Proof.
  change (map normalize_squad ?l) with (normalize_squad <$> l).
  rewrite list_elem_of_fmap. split.
  - intros (gt & E & Hin). apply list_elem_of_filter in Hin as [? ?].
    by exists gt.
  - intros (gt & Hin & Hne & E). exists gt. split; [done|].
    by apply list_elem_of_filter.
Qed.

(** X18. [sqa_s_metrics] returns a pair for every input, with exact match
    0 or 1 and F1 in [[0, 1]].  With the sentinel as prediction the exact
    match is 1 exactly when some ground truth is the sentinel; otherwise
    exactly when some ground truth other than the sentinel has the same
    normalized text. *)
Theorem sqa_s_metrics_spec (p : string) (ground_truths : list string) :
  exists em f1,
    sqa_s_metrics p ground_truths = Ok (em, f1) /\
    (em = 0 \/ em = 1) /\ (0 <= f1 /\ f1 <= 1) /\
    (em = 1 <->
     (p = NO_ANSWER /\ NO_ANSWER ∈ ground_truths) \/
     (p <> NO_ANSWER /\
      exists gt, gt ∈ ground_truths /\ gt <> NO_ANSWER /\
                 normalize_squad gt = normalize_squad p)).
Proof.
  destruct (decide (p = NO_ANSWER)) as [->|Hp].
  { unfold sqa_s_metrics. rewrite bool_decide_eq_true_2 by done.
    destruct (existsb _ ground_truths) eqn:E; do 2 eexists;
      (split; [reflexivity|]).
    - apply existsb_no_answer in E.
      split; [by right|]. split; [lra|]. split; [by left|done].
    - split; [by left|]. split; [lra|]. split; [discriminate|].
      intros [[_ Hin]|[N _]]; [|done].
      apply existsb_no_answer in Hin. congruence. }
  destruct (decide (filter (fun gt => gt <> NO_ANSWER) ground_truths = []))
    as [Eg|Ng].
  { unfold sqa_s_metrics. rewrite bool_decide_eq_false_2 by done.
    rewrite Eg. cbn [py_not]. do 2 eexists. split; [reflexivity|].
    split; [by left|]. split; [lra|]. split; [discriminate|].
    intros [[? _]|[_ (gt & Hin & Hne & _)]]; [done|].
    exfalso. apply (not_elem_of_nil gt). rewrite <- Eg.
    by apply list_elem_of_filter. }
  destruct (sqa_s_metrics_parts p ground_truths Hp Ng)
    as (vs & m & E & M & ->).
  assert (Hunit : forall gt w,
            gt ∈ map normalize_squad
                   (filter (fun gt => gt <> NO_ANSWER) ground_truths) ->
            f1_score (split (normalize_squad p)) (split gt) = Ok w ->
            0 <= w /\ w <= 1).
  { intros gt w _ Hw.
    destruct (f1_score_unit (split (normalize_squad p)) (split gt))
      as (w' & Hw' & ?). rewrite Hw in Hw'. by injection Hw' as <-. }
  destruct (py_max_unit _ _ _ _ E M Hunit) as [Hm _].
  do 2 eexists. split; [reflexivity|].
  split; [destruct (bool_decide _); auto|]. split; [done|].
  destruct (bool_decide_reflect
              (normalize_squad p
               ∈ map normalize_squad
                   (filter (fun gt => gt <> NO_ANSWER) ground_truths)))
    as [Hin|Hnin].
  - split; [|done]. intros _. right. split; [done|].
    by apply elem_of_normalized.
  - split; [discriminate|]. intros [[? _]|[_ Hex]]; [done|].
    by apply elem_of_normalized in Hex.
Qed.

(** X19. For a prediction other than the sentinel, the F1 of
    [sqa_s_metrics] is 1 exactly when the normalized prediction has a
    token and the same tokens, in any order, as the normalized text of a
    ground truth other than the sentinel; it is 0 exactly when it shares
    no token with any of them. *)
Theorem sqa_s_metrics_f1_extremes (p : string)
    (ground_truths : list string) :
  p <> NO_ANSWER ->
  exists em f1,
    sqa_s_metrics p ground_truths = Ok (em, f1) /\
    (f1 == 1 <->
     split (normalize_squad p) <> [] /\
     exists gt, gt ∈ ground_truths /\ gt <> NO_ANSWER /\
                split (normalize_squad p) ≡ₚ split (normalize_squad gt)) /\
    (f1 == 0 <->
     forall gt w, gt ∈ ground_truths -> gt <> NO_ANSWER ->
                  w ∈ split (normalize_squad p) ->
                  w ∉ split (normalize_squad gt)).
Proof.
  intros Hp.
  destruct (decide (filter (fun gt => gt <> NO_ANSWER) ground_truths = []))
    as [Eg|Ng].
  { unfold sqa_s_metrics. rewrite bool_decide_eq_false_2 by done.
    rewrite Eg. cbn [py_not]. do 2 eexists. split; [reflexivity|].
    assert (Hnone : forall gt, gt ∈ ground_truths -> gt <> NO_ANSWER -> False).
    { intros gt Hin Hne. apply (not_elem_of_nil gt). rewrite <- Eg.
      by apply list_elem_of_filter. }
    split.
    - split; [intros Q; by apply Qeq_bool_neq in Q|].
      intros (_ & gt & Hin & Hne & _). by destruct (Hnone gt).
    - split; [|reflexivity]. intros _ gt w Hin Hne. by destruct (Hnone gt). }
  destruct (sqa_s_metrics_parts p ground_truths Hp Ng)
    as (vs & m & E & M & ->).
  set (raw := filter (fun gt => gt <> NO_ANSWER) ground_truths) in *.
  set (toks := split (normalize_squad p)) in *.
  assert (Hraw : forall gt, gt ∈ raw <-> gt ∈ ground_truths /\ gt <> NO_ANSWER).
  { intros gt. unfold raw. rewrite list_elem_of_filter. tauto. }
  assert (Hnorm : forall g, g ∈ map normalize_squad raw <->
                    exists gt, gt ∈ ground_truths /\ gt <> NO_ANSWER /\
                               g = normalize_squad gt).
  { intros g. change (map normalize_squad raw) with (normalize_squad <$> raw).
    rewrite list_elem_of_fmap. split.
    - intros (gt & -> & Hin). apply Hraw in Hin as [? ?]. by exists gt.
    - intros (gt & ? & ? & ->). exists gt. split; [done|]. by apply Hraw. }
  assert (Hunit : forall g w, g ∈ map normalize_squad raw ->
            f1_score toks (split g) = Ok w -> 0 <= w /\ w <= 1).
  { intros g w _ Hw. destruct (f1_score_unit toks (split g))
      as (w' & Hw' & ?). rewrite Hw in Hw'. by injection Hw' as <-. }
  do 2 eexists. split; [reflexivity|]. split.
  - rewrite (py_max_one_iff _ _ _ _ E M) by (intros; by eapply Hunit).
    split.
    + intros (g & w & Hin & Hw & Ew).
      destruct (f1_score_one_zero toks (split g)) as [[Hone _] _].
      destruct Hone as [Hne Hperm]; [by exists w|].
      split; [done|]. apply Hnorm in Hin as (gt & ? & ? & ->). by exists gt.
    + intros (Hne & gt & Hin & Hgt & Hperm).
      destruct (f1_score_one_zero toks (split (normalize_squad gt)))
        as [[_ Hone] _].
      destruct Hone as (w & Hw & Ew); [done|].
      exists (normalize_squad gt), w. split; [|done].
      apply Hnorm. by exists gt.
  - rewrite (py_max_zero_iff _ _ _ _ E M) by (intros; by eapply Hunit).
    split.
    + intros Hall gt w Hin Hne Hw.
      destruct (f1_score_returns toks (split (normalize_squad gt)))
        as [v Hv].
      destruct (f1_score_one_zero toks (split (normalize_squad gt)))
        as [_ [Hzero _]].
      apply Hzero; [|done]. exists v. split; [done|].
      apply (Hall (normalize_squad gt)); [|done]. apply Hnorm. by exists gt.
    + intros Hdis g w Hin Hw. apply Hnorm in Hin as (gt & ? & ? & ->).
      destruct (f1_score_one_zero toks (split (normalize_squad gt)))
        as [_ [_ Hzero]].
      destruct Hzero as (w' & Hw' & Ew'); [intros x; by apply Hdis|].
      rewrite Hw in Hw'. by injection Hw' as <-.
Qed.

(** X20. Exact match and F1 can disagree: a prediction that normalizes to
    a text without tokens (only articles, punctuation and whitespace) gets
    exact match 1 and F1 0 against a ground truth that normalizes to the
    same text. *)
Theorem sqa_s_metrics_empty_normal_form (p : string)
    (ground_truths : list string) :
  p <> NO_ANSWER -> split (normalize_squad p) = [] ->
  (exists gt, gt ∈ ground_truths /\ gt <> NO_ANSWER /\
              normalize_squad gt = normalize_squad p) ->
  exists f1, sqa_s_metrics p ground_truths = Ok (1, f1) /\ f1 == 0.
Proof.
  intros Hp Htok Hex.
  assert (Ng : filter (fun gt => gt <> NO_ANSWER) ground_truths <> []).
  { destruct Hex as (gt & Hin & Hne & _). intros Eg.
    apply (not_elem_of_nil gt). rewrite <- Eg. by apply list_elem_of_filter. }
  destruct (sqa_s_metrics_parts p ground_truths Hp Ng)
    as (vs & m & E & M & ->).
  rewrite bool_decide_eq_true_2 by (by apply elem_of_normalized).
  exists m. split; [done|].
  apply (py_max_zero_iff _ _ _ _ E M).
  - intros g w _ Hw.
    destruct (f1_score_unit (split (normalize_squad p)) (split g))
      as (w' & Hw' & ? & ?). rewrite Hw in Hw'. by injection Hw' as <-.
  - intros g w _ Hw. rewrite Htok in Hw.
    destruct (f1_score_one_zero ([] : list string) (split g)) as [_ [_ Hzero]].
    destruct Hzero as (w' & Hw' & Ew').
    { intros x Hx. by apply not_elem_of_nil in Hx. }
    rewrite Hw in Hw'. by injection Hw' as <-.
Qed.

End TextExtras.

Section TextExtraExamples.
Local Open Scope Q_scope.

Lemma sqa_s_metrics_f1_extremes_witness :
  exists em f1,
    sqa_s_metrics "Red The Apple" ["an apple, red!"; "pear"] = Ok (em, f1) /\
    (f1 == 1 <->
     split (normalize_squad "Red The Apple") <> [] /\
     exists gt, gt ∈ ["an apple, red!"; "pear"]%string /\ gt <> NO_ANSWER /\
                split (normalize_squad "Red The Apple")
                ≡ₚ split (normalize_squad gt)) /\
    (f1 == 0 <->
     forall gt w, gt ∈ ["an apple, red!"; "pear"]%string -> gt <> NO_ANSWER ->
                  w ∈ split (normalize_squad "Red The Apple") ->
                  w ∉ split (normalize_squad gt)).
Proof.
  apply (sqa_s_metrics_f1_extremes "Red The Apple"
           ["an apple, red!"; "pear"]%string).
  discriminate.
Defined.

Lemma sqa_s_metrics_empty_normal_form_witness :
  exists f1, sqa_s_metrics "The." ["a"] = Ok (1, f1) /\ f1 == 0.
Proof.
  apply (sqa_s_metrics_empty_normal_form "The." ["a"]%string).
  - discriminate.
  - reflexivity.
  - exists "a"%string. split; [apply list_elem_of_In; simpl; auto|].
    split; [discriminate|reflexivity].
Defined.

End TextExtraExamples.

(** ** The sentinel is compared before normalization *)

Section SentinelClaim.
Local Open Scope Q_scope.

(** A prediction other than the sentinel is scored as text: the exact
    match and the F1 are decided by the normalized texts and their tokens,
    against the ground truths other than the sentinel. *)
Lemma sqa_s_metrics_as_text (p : string) (gts : list string) :
  p <> NO_ANSWER ->
  exists em f1,
    sqa_s_metrics p gts = Ok (em, f1) /\
    (em = 0 \/ em = 1) /\
    (em = 1 <->
     exists gt, gt ∈ gts /\ gt <> NO_ANSWER /\
                normalize_squad gt = normalize_squad p) /\
    (f1 == 1 <->
     split (normalize_squad p) <> [] /\
     exists gt, gt ∈ gts /\ gt <> NO_ANSWER /\
                split (normalize_squad p) ≡ₚ split (normalize_squad gt)).
Proof.
  intros Hp.
  destruct (decide (filter (fun gt => gt <> NO_ANSWER) gts = [])) as [Eg|Ng].
  { unfold sqa_s_metrics. rewrite bool_decide_eq_false_2 by done.
    rewrite Eg. cbn [py_not]. do 2 eexists. split; [reflexivity|].
    assert (Hnone : forall gt, gt ∈ gts -> gt <> NO_ANSWER -> False).
    { intros gt Hin Hne. apply (not_elem_of_nil gt). rewrite <- Eg.
      by apply list_elem_of_filter. }
    split; [by left|]. split.
    - split; [discriminate|]. intros (gt & Hin & Hne & _).
      by destruct (Hnone gt).
    - split; [intros Q; by apply Qeq_bool_neq in Q|].
      intros (_ & gt & Hin & Hne & _). by destruct (Hnone gt). }
  destruct (sqa_s_metrics_parts p gts Hp Ng) as (vs & m & E & M & ->).
  set (raw := filter (fun gt => gt <> NO_ANSWER) gts) in *.
  set (toks := split (normalize_squad p)) in *.
  assert (Hnorm : forall g, g ∈ map normalize_squad raw <->
                    exists gt, gt ∈ gts /\ gt <> NO_ANSWER /\
                               g = normalize_squad gt).
  { intros g. change (map normalize_squad raw) with (normalize_squad <$> raw).
    rewrite list_elem_of_fmap. split.
    - intros (gt & -> & Hin). apply list_elem_of_filter in Hin as [? ?].
      by exists gt.
    - intros (gt & ? & ? & ->). exists gt. split; [done|].
      by apply list_elem_of_filter. }
  assert (Hle : forall g w, g ∈ map normalize_squad raw ->
            f1_score toks (split g) = Ok w -> w <= 1).
  { intros g w _ Hw. destruct (f1_score_unit toks (split g))
      as (w' & Hw' & ? & ?). rewrite Hw in Hw'. by injection Hw' as <-. }
  do 2 eexists. split; [reflexivity|].
  split; [destruct (bool_decide _); auto|]. split.
  - destruct (bool_decide_reflect (normalize_squad p ∈ map normalize_squad raw))
      as [Hin|Hnin].
    + split; [|done]. intros _. by apply elem_of_normalized.
    + split; [discriminate|]. intros Hex. by apply elem_of_normalized in Hex.
  - rewrite (py_max_one_iff _ _ _ _ E M Hle). split.
    + intros (g & w & Hin & Hw & Ew).
      destruct (f1_score_one_zero toks (split g)) as [[Hone _] _].
      destruct Hone as [Hne Hperm]; [by exists w|].
      split; [done|]. apply Hnorm in Hin as (gt & ? & ? & ->). by exists gt.
    + intros (Hne & gt & Hin & Hgt & Hperm).
      destruct (f1_score_one_zero toks (split (normalize_squad gt)))
        as [[_ Hone] _].
      destruct Hone as (w & Hw & Ew); [done|].
      exists (normalize_squad gt), w. split; [|done].
      apply Hnorm. by exists gt.
Qed.

(** C10. The sentinel is recognised by equality with the exact constant,
    before any normalization.  The constant itself takes the short-circuit:
    [(1, 1)] when some ground truth is the constant and [(0, 0)] otherwise.
    Any other prediction, whatever it normalizes to, is scored as text
    against the ground truths other than the constant: the exact match is 1
    exactly when one of them has the same normalized text, and the F1 is 1
    exactly when one of them has the same tokens.  So ["<No Answer>"],
    which normalizes like the sentinel, scores [(0, 0)] against the
    sentinel alone and [(1, 1)] against the text ["no answer"]. *)
Theorem sqa_s_metrics_sentinel_is_raw :
  (forall gts,
     sqa_s_metrics NO_ANSWER gts
     = Ok (if bool_decide (NO_ANSWER ∈ gts) then (1, 1) else (0, 0))) /\
  (forall p gts, p <> NO_ANSWER ->
     sqa_s_metrics p gts
     = sqa_s_metrics p (filter (fun gt => gt <> NO_ANSWER) gts) /\
     exists em f1,
       sqa_s_metrics p gts = Ok (em, f1) /\
       (em = 0 \/ em = 1) /\
       (em = 1 <->
        exists gt, gt ∈ gts /\ gt <> NO_ANSWER /\
                   normalize_squad gt = normalize_squad p) /\
       (f1 == 1 <->
        split (normalize_squad p) <> [] /\
        exists gt, gt ∈ gts /\ gt <> NO_ANSWER /\
                   split (normalize_squad p)
                   ≡ₚ split (normalize_squad gt))) /\
  (forall p, p <> NO_ANSWER -> sqa_s_metrics p [NO_ANSWER] = Ok (0, 0)) /\
  normalize_squad "<No Answer>" = "no answer"%string /\
  normalize_squad "<no answer>" = "no answer"%string /\
  sqa_s_metrics "<No Answer>" ["<no answer>"] = Ok (0, 0) /\
  (exists f1, sqa_s_metrics "<No Answer>" ["no answer"] = Ok (1, f1) /\
              f1 == 1).
Proof.
  split.
  { intros gts. unfold sqa_s_metrics. rewrite bool_decide_eq_true_2 by done.
    destruct (existsb _ gts) eqn:E.
    - apply existsb_no_answer in E. by rewrite bool_decide_eq_true_2.
    - rewrite bool_decide_eq_false_2; [done|].
      intros Hin. apply existsb_no_answer in Hin. congruence. }
  split.
  { intros p gts Hp. split; [|by apply sqa_s_metrics_as_text].
    unfold sqa_s_metrics. rewrite bool_decide_eq_false_2 by done.
    by rewrite filter_idemp. }
  split.
  { intros p Hp. unfold sqa_s_metrics.
    rewrite bool_decide_eq_false_2 by done. done. }
  split; [by vm_compute|]. split; [by vm_compute|]. split; [by vm_compute|].
  eexists. split; [by vm_compute|]. by vm_compute.
Qed.

Lemma sqa_s_metrics_sentinel_is_raw_witness :
  sqa_s_metrics "<NO ANSWER>" ["<no answer>"; "no answer"] =
    sqa_s_metrics "<NO ANSWER>" ["no answer"] /\
  sqa_s_metrics "<no answer>." [NO_ANSWER] = Ok (0, 0).
Proof.
  destruct sqa_s_metrics_sentinel_is_raw as (_ & Hf & Hs & _).
  split.
  - apply (Hf "<NO ANSWER>"%string ["<no answer>"; "no answer"]%string).
    discriminate.
  - apply Hs. discriminate.
Defined.

End SentinelClaim.

(** ** The normalizer: shape of the result *)

Section NormalizerExtras.
Local Open Scope string_scope.

(** *** Tokens *)

Lemma split_from_no_space (cur s : string) :
  no_space cur = true ->
  Forall (fun w => no_space w = true) (split_from cur s).
Proof.
  revert cur. induction s as [|c s IH]; intros cur Hc; simpl.
  - destruct cur; [constructor|]. by repeat constructor.
  - destruct (is_space c) eqn:Ec.
    + destruct cur; [by apply IH|]. constructor; [done|]. by apply IH.
    + apply IH. by apply no_space_snoc.
Qed.

Lemma split_from_run (w rest cur : string) :
  no_space w = true ->
  split_from cur (w ++ rest) = split_from (cur ++ w) rest.
Proof.
  revert cur. induction w as [|c w IH]; intros cur Hw.
  - by rewrite append_nil_l, append_nil_r.
  - simpl in Hw. apply andb_prop in Hw as [Hc Hw].
    apply negb_true_iff in Hc. rewrite append_cons. simpl. rewrite Hc.
    rewrite IH by done. by rewrite append_assoc, append_cons, append_nil_l.
Qed.

Lemma split_concat (ws : list string) :
  Forall (fun w => w <> "") ws -> Forall (fun w => no_space w = true) ws ->
  split (String.concat " " ws) = ws.
Proof.
  unfold split. induction ws as [|w ws IH]; intros Hne Hns; [done|].
  apply list.Forall_cons in Hne as [Hw Hne].
  apply list.Forall_cons in Hns as [Hs Hns].
  destruct ws as [|w2 ws].
  - simpl. rewrite <- (append_nil_r w) at 1.
    rewrite split_from_run, append_nil_l by done. simpl. by destruct w.
  - change (String.concat " " (w :: w2 :: ws))
      with (w ++ " " ++ String.concat " " (w2 :: ws)).
    rewrite split_from_run, append_nil_l by done.
    rewrite append_cons, append_nil_l. cbn [split_from].
    rewrite space_is_space, IH by done. by destruct w.
Qed.

Lemma split_white_space_fix (s : string) :
  split (white_space_fix s) = split s.
Proof.
  unfold white_space_fix. apply split_concat.
  - apply split_from_tokens.
  - by apply split_from_no_space.
Qed.

Lemma white_space_fix_idemp (s : string) :
  white_space_fix (white_space_fix s) = white_space_fix s.
Proof. unfold white_space_fix at 1. by rewrite split_white_space_fix. Qed.

(** X21. Splitting undoes joining: the tokens of [white_space_fix s] are
    the tokens of [s], so [white_space_fix] changes nothing when applied a
    second time; every token is non-empty and free of whitespace. *)
Theorem white_space_fix_round_trip (s : string) :
  split (white_space_fix s) = split s /\
  white_space_fix (white_space_fix s) = white_space_fix s /\
  Forall (fun w => w <> "" /\ no_space w = true) (split s).
Proof.
  split; [apply split_white_space_fix|]. split.
  - apply white_space_fix_idemp.
  - pose proof (split_from_tokens "" s) as H1.
    pose proof (split_from_no_space "" s eq_refl) as H2.
    unfold split. induction H1 as [|w ws Hw H1 IH]; [constructor|].
    apply list.Forall_cons in H2 as [? ?]. constructor; [done|]. by apply IH.
Qed.

(** *** Characters *)

Lemma string_forall_app (P : ascii -> bool) (s1 s2 : string) :
  string_forall P (s1 ++ s2) = string_forall P s1 && string_forall P s2.
Proof.
  induction s1 as [|c s1 IH]; [by rewrite append_nil_l|].
  rewrite append_cons. simpl. rewrite IH. by rewrite andb_assoc.
Qed.

Lemma string_forall_impl (P Q : ascii -> bool) (s : string) :
  (forall c, P c = true -> Q c = true) ->
  string_forall P s = true -> string_forall Q s = true.
Proof.
  intros HPQ. induction s as [|c s IH]; [done|]. simpl.
  intros [Hc Hs]%andb_prop. rewrite (HPQ c Hc). by apply IH.
Qed.

Lemma string_forall_and (P Q : ascii -> bool) (s : string) :
  string_forall P s = true -> string_forall Q s = true ->
  string_forall (fun c => P c && Q c) s = true.
Proof.
  induction s as [|c s IH]; [done|]. simpl.
  intros [-> ?]%andb_prop [-> ?]%andb_prop. by apply IH.
Qed.

Lemma lower_char_not_upper (c : ascii) : is_upper (lower_char c) = false.
Proof. destruct c as [[] [] [] [] [] [] [] []]; reflexivity. Qed.

Lemma lower_no_upper (s : string) :
  string_forall (fun c => negb (is_upper c)) (lower s) = true.
Proof.
  induction s as [|c s IH]; [done|]. simpl.
  by rewrite lower_char_not_upper, IH.
Qed.

Lemma filter_chars_forall (P keep : ascii -> bool) (s : string) :
  string_forall P s = true -> string_forall P (filter_chars keep s) = true.
Proof.
  induction s as [|c s IH]; [done|]. simpl.
  intros [Hc Hs]%andb_prop. destruct (keep c); simpl; [rewrite Hc|]; auto.
Qed.

Lemma filter_chars_keep (keep : ascii -> bool) (s : string) :
  string_forall keep (filter_chars keep s) = true.
Proof.
  induction s as [|c s IH]; [done|]. simpl.
  destruct (keep c) eqn:E; simpl; [rewrite E|]; auto.
Qed.

Lemma filter_chars_id (keep : ascii -> bool) (s : string) :
  string_forall keep s = true -> filter_chars keep s = s.
Proof.
  induction s as [|c s IH]; [done|]. simpl.
  intros [-> Hs]%andb_prop. by rewrite IH.
Qed.

Lemma sub_articles_forall (P : ascii -> bool) (s : string)
    (prev : option ascii) (k : nat) :
  P " "%char = true -> string_forall P s = true ->
  string_forall P (sub_articles " " prev k s) = true.
Proof.
  intros Hsp. revert prev k. induction s as [|c s IH]; intros prev k; [done|].
  simpl string_forall. intros [Hc Hs]%andb_prop.
  cbn [sub_articles]. destruct k as [|k]; [|by apply IH].
  destruct (match_article prev (String c s)) as [[|n]|].
  - simpl. rewrite Hc. by apply IH.
  - rewrite append_cons, append_nil_l. simpl. rewrite Hsp. by apply IH.
  - simpl. rewrite Hc. by apply IH.
Qed.

Lemma split_from_forall (P : ascii -> bool) (s cur : string) :
  string_forall P cur = true -> string_forall P s = true ->
  Forall (fun w => string_forall P w = true) (split_from cur s).
Proof.
  revert cur. induction s as [|c s IH]; intros cur Hcur; simpl.
  - intros _. destruct cur; [constructor|]. by repeat constructor.
  - intros [Hc Hs]%andb_prop. destruct (is_space c).
    + destruct cur; [by apply IH|]. constructor; [done|]. by apply IH.
    + apply IH; [|done]. rewrite string_forall_app, Hcur. simpl.
      by rewrite Hc.
Qed.

Lemma concat_forall (P : ascii -> bool) (ws : list string) :
  P " "%char = true -> Forall (fun w => string_forall P w = true) ws ->
  string_forall P (String.concat " " ws) = true.
Proof.
  intros Hsp. induction 1 as [|w ws Hw Hws IH]; [done|].
  destruct ws as [|w2 ws]; [done|].
  change (String.concat " " (w :: w2 :: ws))
    with (w ++ " " ++ String.concat " " (w2 :: ws)).
  rewrite string_forall_app, Hw, append_cons, append_nil_l.
  cbn [string_forall andb]. by rewrite Hsp, IH.
Qed.

Lemma concat_no_space_sep (ws : list string) :
  Forall (fun w => no_space w = true) ws ->
  string_forall (fun c => negb (is_space c) || Ascii.eqb c " ")
                (String.concat " " ws) = true.
Proof.
  induction 1 as [|w ws Hw Hws IH]; [done|].
  assert (Hw' : string_forall (fun c => negb (is_space c) || Ascii.eqb c " ")
                  w = true).
  { clear -Hw. induction w as [|c w IH]; [done|]. simpl in *.
    apply andb_prop in Hw as [-> ?]. simpl. by apply IH. }
  destruct ws as [|w2 ws]; [done|].
  change (String.concat " " (w :: w2 :: ws))
    with (w ++ " " ++ String.concat " " (w2 :: ws)).
  rewrite string_forall_app, Hw', append_cons, append_nil_l.
  cbn [string_forall andb]. by rewrite IH.
Qed.

Lemma normalize_squad_forall (P : ascii -> bool) (s : string) :
  P " "%char = true ->
  string_forall P (strip_punctuation (lower s)) = true ->
  string_forall P (normalize_squad s) = true.
Proof.
  intros Hsp Hs. unfold normalize_squad, white_space_fix, split.
  apply concat_forall; [done|]. apply split_from_forall; [done|].
  unfold remove_articles. apply sub_articles_forall; [done|].
  by rewrite replace_punctuation_empty.
Qed.

Lemma normalize_squad_normal (s : string) :
  string_forall normal_char (normalize_squad s) = true.
Proof.
  unfold normal_char. apply string_forall_and; [apply string_forall_and|].
  - apply normalize_squad_forall; [done|]. unfold strip_punctuation.
    apply filter_chars_forall, lower_no_upper.
  - apply normalize_squad_forall; [done|]. unfold strip_punctuation.
    apply filter_chars_keep.
  - unfold normalize_squad, white_space_fix, split.
    apply concat_no_space_sep. by apply split_from_no_space.
Qed.

(** X22. The result of [normalize_squad] contains no upper-case letter, no
    punctuation character and no whitespace other than the space; in
    particular it is never the sentinel. *)
Theorem normalize_squad_characters (s : string) :
  string_forall normal_char (normalize_squad s) = true /\
  normalize_squad s <> NO_ANSWER.
Proof.
  split; [apply normalize_squad_normal|].
  intros E. pose proof (normalize_squad_normal s) as H.
  rewrite E in H. discriminate H.
Qed.

End NormalizerExtras.

(** ** The normalizer: articles and idempotence *)

Section ArticleExtras.
Local Open Scope string_scope.

Lemma space_not_word (c : ascii) : is_space c = true -> is_word c = false.
Proof. destruct c as [[] [] [] [] [] [] [] []]; try reflexivity; discriminate. Qed.

(** *** Blocks *)

Lemma blocks_head (s : string) :
  match blocks s with
  | Word _ :: _ => is_word_opt (head_char s) = true
  | _ => is_word_opt (head_char s) = false
  end.
Proof.
  destruct s as [|c s]; [done|]. simpl.
  destruct (is_word c) eqn:Ec; [|by rewrite ?Ec].
  by destruct (blocks s) as [|[w|d] bs].
Qed.

Lemma blocks_well_formed (s : string) : well_formed (blocks s).
Proof.
  induction s as [|c s IH]; [done|]. simpl.
  destruct (is_word c) eqn:Ec; [|done].
  destruct (blocks s) as [|[w|d] bs]; simpl in *.
  - by rewrite Ec.
  - destruct IH as (? & Hw & ? & ?). by rewrite Ec, Hw.
  - by rewrite Ec.
Qed.

Lemma blocks_nonword (c : ascii) (s : string) :
  is_word c = false -> blocks (String c s) = Other c :: blocks s.
Proof. intros Ec. simpl. by rewrite Ec. Qed.

Lemma blocks_app_word (w rest : string) :
  all_word w = true -> w <> "" -> is_word_opt (head_char rest) = false ->
  blocks (w ++ rest) = Word w :: blocks rest.
Proof.
  induction w as [|c w IH]; intros Hw Hne Hr; [done|].
  simpl in Hw. apply andb_prop in Hw as [Hc Hw].
  rewrite append_cons. simpl. rewrite Hc.
  destruct w as [|d w].
  - rewrite append_nil_l. pose proof (blocks_head rest) as Hh.
    destruct (blocks rest) as [|[v|e] bs]; [done| |done]. congruence.
  - by rewrite IH.
Qed.

Lemma blocks_app_sep (x : string) (c : ascii) (y : string) :
  is_word c = false ->
  blocks (x ++ String c y) = (blocks x ++ Other c :: blocks y)%list.
Proof.
  intros Ec. induction x as [|d x IH].
  - rewrite append_nil_l. by apply blocks_nonword.
  - rewrite append_cons. simpl. rewrite IH.
    destruct (is_word d); [|done].
    by destruct (blocks x) as [|[w|e] bs].
Qed.

Lemma blocks_raw (s : string) :
  foldr (fun b acc => raw_block b ++ acc) "" (blocks s) = s.
Proof.
  induction s as [|c s IH]; [done|]. simpl.
  destruct (is_word c).
  - destruct (blocks s) as [|[w|d] bs]; simpl in *.
    + by rewrite <- IH.
    + by rewrite append_cons, IH.
    + by rewrite append_cons, append_nil_l, IH.
  - simpl. by rewrite append_cons, append_nil_l, IH.
Qed.

Lemma render_blocks_raw (bs : list block) :
  Forall (fun b => match b with Word w => w ∉ articles | Other _ => True end)
         bs ->
  render_blocks bs = foldr (fun b acc => raw_block b ++ acc) "" bs.
Proof.
  induction 1 as [|b bs Hb Hbs IH]; [done|].
  rewrite render_blocks_cons, IH. simpl. f_equal.
  destruct b as [w|c]; [|done]. simpl. by rewrite bool_decide_eq_false_2.
Qed.

Lemma words_no_article (s : string) :
  Forall (fun w => w ∉ articles) (words s) ->
  Forall (fun b => match b with Word w => w ∉ articles | Other _ => True end)
         (blocks s).
Proof.
  unfold words. induction (blocks s) as [|[w|c] bs IH]; simpl; intros H.
  - constructor.
  - apply list.Forall_cons in H as [? ?]. constructor; [done|]. by apply IH.
  - constructor; [done|]. by apply IH.
Qed.

(** A text none of whose words is an article is left as it is. *)
Lemma remove_articles_id (s : string) :
  Forall (fun w => w ∉ articles) (words s) -> remove_articles s = s.
Proof.
  intros H. rewrite remove_articles_spec. unfold replace_article_words.
  rewrite render_blocks_raw by (by apply words_no_article).
  apply blocks_raw.
Qed.

(** *** Words after the removal of the articles *)

Lemma render_head (bs : list block) :
  well_formed bs ->
  match bs with Word _ :: _ => False | _ => True end ->
  is_word_opt (head_char (render_blocks bs)) = false.
Proof.
  destruct bs as [|[w|c] bs]; [done|done|].
  intros [Hc _] _. rewrite render_blocks_cons. cbn [render_block].
  by rewrite append_cons.
Qed.

Lemma blocks_render (bs : list block) :
  well_formed bs ->
  blocks (render_blocks bs)
  = map (fun b => match b with
                  | Word w => if bool_decide (w ∈ articles) then Other " "
                              else Word w
                  | Other c => Other c
                  end) bs.
Proof.
  induction bs as [|[w|c] bs IH]; [done| |].
  - intros (Hne & Hw & Hadj & Hwf). rewrite render_blocks_cons.
    cbn [render_block map]. destruct (bool_decide (w ∈ articles)).
    + rewrite append_cons, append_nil_l, blocks_nonword by done.
      by rewrite IH.
    + rewrite blocks_app_word, IH; [done..|]. by apply render_head.
  - intros [Hc Hwf]. rewrite render_blocks_cons. cbn [render_block map].
    rewrite append_cons, append_nil_l, blocks_nonword by done.
    by rewrite IH.
Qed.

Lemma words_remove_articles (s : string) :
  words (remove_articles s) = filter (fun w => w ∉ articles) (words s).
Proof.
  rewrite remove_articles_spec. unfold replace_article_words, words.
  rewrite blocks_render by apply blocks_well_formed.
  generalize (blocks s). intros bs.
  induction bs as [|[w|c] bs IH]; [done| |exact IH].
  rewrite map_cons.
  change (omap ?f (Word w :: bs)) with (w :: omap f bs).
  destruct (bool_decide_reflect (w ∈ articles)) as [Hin|Hnin].
  - rewrite filter_cons_False by (intros ?; done).
    change (omap ?f (Other ?c :: ?l)) with (omap f l). apply IH.
  - rewrite filter_cons_True by done.
    change (omap ?f (Word w :: ?l)) with (w :: omap f l). by rewrite IH.
Qed.

(** *** Words are untouched by the whitespace steps *)

Lemma words_nonword (c : ascii) (s : string) :
  is_word c = false -> words (String c s) = words s.
Proof. intros Ec. unfold words. by rewrite blocks_nonword. Qed.

Lemma words_cons_cong (c : ascii) (x y : string) :
  is_word_opt (head_char x) = is_word_opt (head_char y) ->
  words x = words y -> words (String c x) = words (String c y).
Proof.
  intros Hh Hw. destruct (is_word c) eqn:Ec;
    [|by rewrite !words_nonword].
  pose proof (blocks_head x) as Hx. pose proof (blocks_head y) as Hy.
  unfold words in *. simpl. rewrite Ec.
  destruct (blocks x) as [|[w|d] bs], (blocks y) as [|[w'|d'] bs'];
    simpl in *; try congruence.
Qed.

Lemma words_collapse (s : string) :
  words (collapse_spaces true s) = words s /\
  words (collapse_spaces false s) = words s /\
  is_word_opt (head_char (collapse_spaces false s))
  = is_word_opt (head_char s).
Proof.
  induction s as [|c s (IH1 & IH2 & IH3)]; [done|]. simpl.
  destruct (is_space c) eqn:Ec.
  - pose proof (space_not_word c Ec) as Hc.
    rewrite !words_nonword by done. simpl. by rewrite Hc.
  - split; [by apply words_cons_cong|]. split; [by apply words_cons_cong|done].
Qed.

Lemma words_drop_leading (s : string) :
  words (drop_leading_spaces s) = words s.
Proof.
  induction s as [|c s IH]; [done|]. simpl.
  destruct (is_space c) eqn:Ec; [|done].
  by rewrite words_nonword by (by apply space_not_word).
Qed.

Lemma words_drop_trailing (s : string) :
  words (drop_trailing_spaces s) = words s /\
  is_word_opt (head_char (drop_trailing_spaces s))
  = is_word_opt (head_char s).
Proof.
  induction s as [|c s [IH1 IH2]]; [done|]. simpl.
  destruct (drop_trailing_spaces s) as [|d r] eqn:Er.
  - destruct (is_space c) eqn:Ec.
    + pose proof (space_not_word c Ec) as Hc.
      rewrite words_nonword by done. simpl. by rewrite Hc.
    + split; [by apply words_cons_cong|done].
  - split; [by apply words_cons_cong|done].
Qed.

Lemma words_white_space_fix (s : string) :
  words (white_space_fix s) = words s.
Proof.
  rewrite white_space_fix_collapse_and_trim. unfold collapse_and_trim, trim.
  destruct (words_drop_trailing
              (drop_leading_spaces (collapse_spaces false s))) as [-> _].
  rewrite words_drop_leading. by destruct (words_collapse s) as (_ & -> & _).
Qed.

Lemma words_normalize_squad (s : string) :
  Forall (fun w => w ∉ articles) (words (normalize_squad s)).
Proof.
  unfold normalize_squad. rewrite words_white_space_fix, words_remove_articles.
  apply List.Forall_forall. intros w Hin%list_elem_of_In.
  by apply list_elem_of_filter in Hin as [? _].
Qed.

(** *** Tokens that are words *)

Lemma blocks_all_word (w : string) :
  all_word w = true -> w <> "" -> blocks w = [Word w].
Proof.
  intros Hw Hne. rewrite <- (append_nil_r w) at 1.
  by rewrite blocks_app_word.
Qed.

Lemma word_token (w s cur : string) :
  w ∈ split_from cur s -> all_word w = true -> Word w ∈ blocks (cur ++ s).
Proof.
  revert cur. induction s as [|c s IH]; intros cur Hin Hw; simpl in Hin.
  - rewrite append_nil_r. destruct cur as [|d cur].
    { by apply not_elem_of_nil in Hin. }
    apply list_elem_of_singleton in Hin as ->.
    rewrite blocks_all_word by done. by apply list_elem_of_singleton.
  - destruct (is_space c) eqn:Ec.
    + rewrite blocks_app_sep by (by apply space_not_word).
      apply elem_of_app. destruct cur as [|d cur].
      * right. apply elem_of_cons. right.
        rewrite <- (append_nil_l s). by apply IH.
      * apply elem_of_cons in Hin as [->|Hin].
        -- left. rewrite blocks_all_word by done.
           by apply list_elem_of_singleton.
        -- right. apply elem_of_cons. right.
           rewrite <- (append_nil_l s). by apply IH.
    + specialize (IH _ Hin Hw).
      by rewrite append_assoc, append_cons, append_nil_l in IH.
Qed.

Lemma article_token_is_word (w s : string) :
  w ∈ split s -> w ∈ articles -> w ∈ words s.
Proof.
  intros Hin Ha.
  assert (Hw : all_word w = true).
  { unfold articles in Ha. repeat (apply elem_of_cons in Ha as [->|Ha]);
      [done..|]. by apply not_elem_of_nil in Ha. }
  pose proof (word_token w s "" Hin Hw) as Hb. rewrite append_nil_l in Hb.
  unfold words. apply list_elem_of_omap. by exists (Word w).
Qed.

(** X23. No token of a normalized text is an article: what [sqa_s_metrics]
    feeds to the token F1 never contains [a], [an] or [the]. *)
Theorem normalize_squad_no_article_token (s w : string) :
  w ∈ split (normalize_squad s) -> w ∉ articles.
Proof.
  intros Hin Ha.
  pose proof (article_token_is_word _ _ Hin Ha) as Hw.
  pose proof (words_normalize_squad s) as Hall.
  rewrite List.Forall_forall in Hall.
  by apply (Hall w); [apply list_elem_of_In|].
Qed.

(** *** Idempotence *)

Lemma lower_id (s : string) :
  string_forall (fun c => negb (is_upper c)) s = true -> lower s = s.
Proof.
  induction s as [|c s IH]; [done|]. simpl.
  intros [Hc Hs]%andb_prop. apply negb_true_iff in Hc.
  unfold lower_char. by rewrite Hc, IH.
Qed.

Lemma normalize_squad_fixed (t : string) :
  string_forall normal_char t = true ->
  Forall (fun w => w ∉ articles) (words t) ->
  white_space_fix t = t ->
  normalize_squad t = t.
Proof.
  intros Hch Hw Hws. unfold normalize_squad.
  rewrite lower_id; cycle 1.
  { eapply string_forall_impl; [|exact Hch]. unfold normal_char.
    by intros c [[? _]%andb_prop _]%andb_prop. }
  rewrite replace_punctuation_empty. unfold strip_punctuation.
  rewrite filter_chars_id; cycle 1.
  { eapply string_forall_impl; [|exact Hch]. unfold normal_char.
    by intros c [[_ ?]%andb_prop _]%andb_prop. }
  by rewrite remove_articles_id.
Qed.

(** X24. [normalize_squad] is idempotent: a normalized text is its own
    normal form. *)
Theorem normalize_squad_idempotent (s : string) :
  normalize_squad (normalize_squad s) = normalize_squad s.
Proof.
  apply normalize_squad_fixed.
  - apply normalize_squad_normal.
  - apply words_normalize_squad.
  - apply white_space_fix_idemp.
Qed.

End ArticleExtras.

Section ArticleExamples.
Local Open Scope string_scope.

Lemma normalize_squad_no_article_token_witness :
  "red" ∈ split (normalize_squad "The red Apple") /\ "red" ∉ articles.
Proof.
  assert (H : "red" ∈ split (normalize_squad "The red Apple")).
  { apply list_elem_of_In. vm_compute. auto. }
  split; [exact H|].
  exact (normalize_squad_no_article_token "The red Apple" "red" H).
Defined.

End ArticleExamples.

(** ** The ground truths count as a set *)

Section GroundTruthSets.
Local Open Scope Q_scope.

Lemma py_max_subset {A} (h : A -> res Q) (l l' : list A) (vs vs' : list Q)
    (m m' : Q) :
  (forall x, x ∈ l -> x ∈ l') ->
  mapM h l = Ok vs -> mapM h l' = Ok vs' ->
  py_max vs = Ok m -> py_max vs' = Ok m' -> m <= m'.
Proof.
  intros Hsub E E' M M'.
  apply mapM_Forall2 in E, E'.
  apply py_max_spec in M as [Hin _]. apply py_max_spec in M' as [_ Hmax].
  apply list_elem_of_lookup in Hin as [i Hi].
  destruct (Forall2_lookup_r _ _ _ _ _ E Hi) as (x & Hx & Hhx).
  assert (Hx' : x ∈ l') by (by eapply Hsub, list_elem_of_lookup_2).
  apply list_elem_of_lookup in Hx' as [j Hj].
  destruct (Forall2_lookup_l _ _ _ _ _ E' Hj) as (w & Hw & Hhw).
  rewrite Hhx in Hhw. injection Hhw as <-.
  rewrite List.Forall_forall in Hmax.
  apply Hmax, list_elem_of_In. by eapply list_elem_of_lookup_2.
Qed.

Lemma py_max_same_set {A} (h : A -> res Q) (l l' : list A)
    (vs vs' : list Q) (m m' : Q) :
  (forall x, x ∈ l <-> x ∈ l') ->
  mapM h l = Ok vs -> mapM h l' = Ok vs' ->
  py_max vs = Ok m -> py_max vs' = Ok m' -> m == m'.
Proof.
  intros Hset E E' M M'.
  assert (m <= m')
    by (eapply (py_max_subset h l l'); eauto; intros; by apply Hset).
  assert (m' <= m)
    by (eapply (py_max_subset h l' l); eauto; intros; by apply Hset).
  lra.
Qed.

Lemma filter_same_set {A} (P : A -> Prop) `{forall x, Decision (P x)}
    (l l' : list A) :
  (forall x, x ∈ l <-> x ∈ l') ->
  forall x, x ∈ filter P l <-> x ∈ filter P l'.
Proof. intros Hset x. rewrite !list_elem_of_filter, Hset. tauto. Qed.

Lemma same_set_nil {A} (l l' : list A) :
  (forall x, x ∈ l <-> x ∈ l') -> l = [] -> l' = [].
Proof.
  intros Hset ->. destruct l' as [|x l']; [done|].
  exfalso. apply (not_elem_of_nil x), Hset. by left.
Qed.

Lemma existsb_same_set {A} (P : A -> bool) (l l' : list A) :
  (forall x, x ∈ l <-> x ∈ l') -> existsb P l = existsb P l'.
Proof.
  intros Hset. apply eq_true_iff_eq. rewrite !existsb_exists.
  split; intros (x & Hin & Hx); exists x; (split; [|done]);
    apply list_elem_of_In, Hset, list_elem_of_In, Hin.
Qed.

(** X25. [sqa_s_metrics] depends on the ground truths only as a set:
    their order and repetitions change neither the exact match nor the
    F1. *)
Theorem sqa_s_metrics_ground_truth_set (p : string)
    (gts gts' : list string) :
  (forall gt, gt ∈ gts <-> gt ∈ gts') ->
  exists em f1 f1',
    sqa_s_metrics p gts = Ok (em, f1) /\
    sqa_s_metrics p gts' = Ok (em, f1') /\ f1 == f1'.
Proof.
  intros Hset.
  destruct (decide (p = NO_ANSWER)) as [->|Hp].
  { unfold sqa_s_metrics. rewrite bool_decide_eq_true_2 by done.
    rewrite (existsb_same_set _ gts gts' Hset).
    destruct (existsb _ gts'); do 3 eexists; by repeat split. }
  pose proof (filter_same_set (fun gt => gt <> NO_ANSWER) gts gts' Hset)
    as Hf.
  destruct (decide (filter (fun gt => gt <> NO_ANSWER) gts = [])) as [Eg|Ng].
  { pose proof (same_set_nil _ _ Hf Eg) as Eg'.
    unfold sqa_s_metrics. rewrite bool_decide_eq_false_2 by done.
    rewrite Eg, Eg'. cbn [py_not]. do 3 eexists. by repeat split. }
  assert (Ng' : filter (fun gt => gt <> NO_ANSWER) gts' <> []).
  { intros Eg'. apply Ng. eapply same_set_nil; [|exact Eg'].
    intros x. by rewrite Hf. }
  destruct (sqa_s_metrics_parts p gts Hp Ng) as (vs & m & E & M & ->).
  destruct (sqa_s_metrics_parts p gts' Hp Ng') as (vs' & m' & E' & M' & ->).
  assert (Hn : forall g,
            g ∈ map normalize_squad (filter (fun gt => gt <> NO_ANSWER) gts)
            <-> g ∈ map normalize_squad
                      (filter (fun gt => gt <> NO_ANSWER) gts')).
  { intros g. change (map normalize_squad ?l) with (normalize_squad <$> l).
    rewrite !list_elem_of_fmap.
    split; intros (x & -> & Hx); exists x; (split; [done|]); by apply Hf. }
  exists (if bool_decide
               (normalize_squad p
                ∈ map normalize_squad
                    (filter (fun gt => gt <> NO_ANSWER) gts))
          then 1 else 0), m, m'.
  split; [done|]. split.
  - by rewrite (bool_decide_ext _ _ (Hn (normalize_squad p))).
  - by apply (py_max_same_set _ _ _ _ _ _ _ Hn E E' M M').
Qed.

(** X26. Normalizing beforehand changes nothing: [sqa_s_metrics] gives the
    same result on a prediction other than the sentinel and on its
    normalized text, and on the ground truths and on the normalized texts
    of those that are not the sentinel. *)
Theorem sqa_s_metrics_prenormalized (p : string) (gts : list string) :
  p <> NO_ANSWER ->
  sqa_s_metrics (normalize_squad p) gts = sqa_s_metrics p gts /\
  sqa_s_metrics p
    (map normalize_squad (filter (fun gt => gt <> NO_ANSWER) gts))
  = sqa_s_metrics p gts.
Proof.
  intros Hp.
  assert (Hs : forall s, normalize_squad s <> NO_ANSWER).
  { intros s E. pose proof (normalize_squad_normal s) as Hn.
    rewrite E in Hn. discriminate Hn. }
  assert (Hi : forall s,
            normalize_squad (normalize_squad s) = normalize_squad s).
  { intros s. apply normalize_squad_fixed.
    - apply normalize_squad_normal.
    - apply words_normalize_squad.
    - apply white_space_fix_idemp. }
  split.
  - unfold sqa_s_metrics.
    rewrite (bool_decide_eq_false_2 (normalize_squad p = NO_ANSWER))
      by apply Hs.
    rewrite (bool_decide_eq_false_2 (p = NO_ANSWER)) by done.
    cbv zeta. by rewrite Hi.
  - unfold sqa_s_metrics. rewrite bool_decide_eq_false_2 by done.
    cbv zeta.
    set (raw := filter (fun gt => gt <> NO_ANSWER) gts).
    assert (filter (fun gt => gt <> NO_ANSWER) (map normalize_squad raw)
            = map normalize_squad raw) as ->.
    { clearbody raw. induction raw as [|g raw IH]; [done|].
      rewrite map_cons, filter_cons_True by apply Hs. by rewrite IH. }
    assert (map normalize_squad (map normalize_squad raw)
            = map normalize_squad raw) as ->.
    { clearbody raw. induction raw as [|g raw IH]; [done|].
      by rewrite !map_cons, Hi, IH. }
    by destruct raw.
Qed.

End GroundTruthSets.

Section GroundTruthSetsUic.
Context `{Countable K}.
Local Open Scope Q_scope.

(** X27. [sqa_uic_metrics] depends on the ground truths only as a set:
    their order and repetitions change neither the exact match nor the
    F1. *)
Theorem sqa_uic_metrics_ground_truth_set (p : list K)
    (gts gts' : list (list K)) :
  (forall gt, gt ∈ gts <-> gt ∈ gts') ->
  exists em f1 f1',
    sqa_uic_metrics p gts = Ok (em, f1) /\
    sqa_uic_metrics p gts' = Ok (em, f1') /\ f1 == f1'.
Proof.
  intros Hset.
  destruct (decide (p = [])) as [->|Hp].
  { unfold sqa_uic_metrics. cbn [py_not].
    rewrite (existsb_same_set _ gts gts' Hset).
    destruct (existsb _ gts'); do 3 eexists; by repeat split. }
  pose proof (filter_same_set (fun gt => py_not gt = false) gts gts' Hset)
    as Hf.
  assert (Hnot : py_not p = false) by (by destruct p).
  destruct (decide (filter (fun gt => py_not gt = false) gts = []))
    as [Eg|Ng].
  { pose proof (same_set_nil _ _ Hf Eg) as Eg'.
    unfold sqa_uic_metrics. rewrite Hnot, Eg, Eg'. cbn [py_not].
    do 3 eexists. by repeat split. }
  assert (Ng' : filter (fun gt => py_not gt = false) gts' <> []).
  { intros Eg'. apply Ng. eapply same_set_nil; [|exact Eg'].
    intros x. by rewrite Hf. }
  destruct (sqa_uic_metrics_parts p gts Hp Ng) as (vs & m & E & M & ->).
  destruct (sqa_uic_metrics_parts p gts' Hp Ng') as (vs' & m' & E' & M' & ->).
  do 3 eexists. split; [done|]. split.
  - by rewrite (bool_decide_ext _ _ (Hf p)).
  - by apply (py_max_same_set _ _ _ _ _ _ _ Hf E E' M M').
Qed.

End GroundTruthSetsUic.

Section GroundTruthSetsBoxed.
Context {C : Type} `{EqDecision C}.
Local Open Scope Q_scope.
Variable lsa : matrix -> list nat * list nat.
Hypothesis lsa_ok : lsa_contract lsa.

(** X28. With a solver that meets its contract, [sqa_uic_bb_metrics]
    depends on the ground truths only as a set: their order and
    repetitions change none of the three components. *)
Theorem sqa_uic_bb_metrics_ground_truth_set (p : list (bbox * C))
    (gts gts' : list (list (bbox * C))) (t : Q) :
  (forall gt, gt ∈ gts <-> gt ∈ gts') ->
  exists b em f b' f',
    sqa_uic_bb_metrics lsa p gts t = Ok (b, em, f) /\
    sqa_uic_bb_metrics lsa p gts' t = Ok (b', em, f') /\
    b == b' /\ f == f'.
Proof.
  intros Hset.
  destruct (decide (p = [])) as [->|Hp].
  { unfold sqa_uic_bb_metrics. cbn [py_not].
    rewrite (existsb_same_set _ gts gts' Hset).
    destruct (existsb _ gts'); do 5 eexists; by repeat split. }
  pose proof (filter_same_set (fun gt => py_not gt = false) gts gts' Hset)
    as Hf.
  assert (Hnot : py_not p = false) by (by destruct p).
  destruct (decide (filter (fun gt => py_not gt = false) gts = []))
    as [Eg|Ng].
  { pose proof (same_set_nil _ _ Hf Eg) as Eg'.
    unfold sqa_uic_bb_metrics. rewrite Hnot, Eg, Eg'. cbn [py_not].
    do 5 eexists. by repeat split. }
  assert (Ng' : filter (fun gt => py_not gt = false) gts' <> []).
  { intros Eg'. apply Ng. eapply same_set_nil; [|exact Eg'].
    intros x. by rewrite Hf. }
  destruct (sqa_uic_bb_metrics_parts lsa lsa_ok p gts t Hp Ng)
    as (v1 & m1 & b & v2 & m2 & E1 & M1 & Eb & E2 & M2 & ->).
  destruct (sqa_uic_bb_metrics_parts lsa lsa_ok p gts' t Hp Ng')
    as (v1' & m1' & b' & v2' & m2' & E1' & M1' & Eb' & E2' & M2' & ->).
  assert (b = b') as <-.
  { destruct (any_exact_match_spec p
                (filter (fun gt => py_not gt = false) gts))
      as (c & Ec & Hc).
    destruct (any_exact_match_spec p
                (filter (fun gt => py_not gt = false) gts'))
      as (c' & Ec' & Hc').
    rewrite Eb in Ec. rewrite Eb' in Ec'.
    injection Ec as <-. injection Ec' as <-.
    apply eq_true_iff_eq. rewrite Hc, Hc'.
    split; intros (gt & Hin & Hm); exists gt; (split; [|done]);
      by apply Hf. }
  do 5 eexists. split; [done|]. split; [done|]. split.
  - by apply (py_max_same_set _ _ _ _ _ _ _ Hf E1 E1' M1 M1').
  - by apply (py_max_same_set _ _ _ _ _ _ _ Hf E2 E2' M2 M2').
Qed.

End GroundTruthSetsBoxed.

Section GroundTruthSetExamples.
Local Open Scope Q_scope.

Lemma same_set_example {A} (x y : A) (z : A) :
  z ∈ [x; y] <-> z ∈ [y; x; y].
Proof.
  rewrite !elem_of_cons. split; intros Hz.
  - destruct Hz as [->|[->|Hz]]; auto.
  - destruct Hz as [->|[->|[->|Hz]]]; auto.
Qed.

Lemma sqa_s_metrics_ground_truth_set_witness :
  exists em f1 f1',
    sqa_s_metrics "red apple" ["the apple"; "pear"]%string = Ok (em, f1) /\
    sqa_s_metrics "red apple" ["pear"; "the apple"; "pear"]%string
    = Ok (em, f1') /\ f1 == f1'.
Proof.
  apply (sqa_s_metrics_ground_truth_set "red apple"
           ["the apple"; "pear"]%string
           ["pear"; "the apple"; "pear"]%string).
  apply same_set_example.
Defined.

Lemma sqa_s_metrics_prenormalized_witness :
  sqa_s_metrics (normalize_squad "The Red apple.") ["red apple"; NO_ANSWER]
  = sqa_s_metrics "The Red apple." ["red apple"; NO_ANSWER] /\
  sqa_s_metrics "The Red apple."
    (map normalize_squad
       (filter (fun gt => gt <> NO_ANSWER) ["red apple"; NO_ANSWER]))
  = sqa_s_metrics "The Red apple." ["red apple"; NO_ANSWER].
Proof.
  apply (sqa_s_metrics_prenormalized "The Red apple."
           ["red apple"%string; NO_ANSWER]).
  discriminate.
Defined.

Lemma sqa_uic_metrics_ground_truth_set_witness :
  exists em f1 f1',
    sqa_uic_metrics ["a"; "b"]%string [["a"]%string; ["c"]%string]
    = Ok (em, f1) /\
    sqa_uic_metrics ["a"; "b"]%string
      [["c"]%string; ["a"]%string; ["c"]%string]
    = Ok (em, f1') /\ f1 == f1'.
Proof.
  apply (sqa_uic_metrics_ground_truth_set ["a"; "b"]%string
           [["a"]%string; ["c"]%string]
           [["c"]%string; ["a"]%string; ["c"]%string]).
  apply same_set_example.
Defined.

Lemma sqa_uic_bb_metrics_ground_truth_set_witness :
  exists b em f b' f',
    sqa_uic_bb_metrics lsa_brute [(BBox 0 0 2 2, "a"%string)]
      [[(BBox 1 1 3 3, "a"%string)]; [(BBox 0 0 2 2, "b"%string)]] (1 # 10)
    = Ok (b, em, f) /\
    sqa_uic_bb_metrics lsa_brute [(BBox 0 0 2 2, "a"%string)]
      [[(BBox 0 0 2 2, "b"%string)]; [(BBox 1 1 3 3, "a"%string)];
       [(BBox 0 0 2 2, "b"%string)]] (1 # 10)
    = Ok (b', em, f') /\
    b == b' /\ f == f'.
Proof.
  apply (sqa_uic_bb_metrics_ground_truth_set lsa_brute lsa_brute_contract).
  apply same_set_example.
Defined.

End GroundTruthSetExamples.
